(** * STYLO virtual try-on: outfit timeline, try-on orchestrator and error
    classification.

    A shallow embedding of the state handling of [src/App.tsx] (the outfit
    history, its cursor, the pose cursor, the busy flag and the stored error,
    together with the four user-facing handlers) and of
    [getFriendlyErrorMessage] of [src/lib/utils.ts], followed by the
    properties the specification states about them. *)

From Stdlib Require Import Ascii String.
From stdpp Require Import base numbers option list strings.

Local Open Scope string_scope.

(** ** [src/lib/utils.ts] *)

Module Utils.

(** JavaScript strings are modelled as [string], one character per code
    unit. The model is that of ASCII text, the strings [isAsciiText]
    accepts: there [String.prototype.toLowerCase] changes the letters
    [A]-[Z] and nothing else, which is what [toLowerCase] below does. Outside
    ASCII [toLowerCase] also folds other letters (the Kelvin sign to [k]),
    which the model does not follow; what is stated of an arbitrary message
    is therefore stated of ASCII text. Host names, as [new URL] gives them,
    are always ASCII. *)
Fixpoint isAsciiText (s : string) : bool :=
  match s with
  | EmptyString => true
  | String c r => (nat_of_ascii c <? 128)%nat && isAsciiText r
  end.

Definition lower_ascii (c : ascii) : ascii :=
  let n := nat_of_ascii c in
  if (65 <=? n)%nat && (n <=? 90)%nat then ascii_of_nat (n + 32) else c.

Fixpoint toLowerCase (s : string) : string :=
  match s with
  | EmptyString => EmptyString
  | String c r => String (lower_ascii c) (toLowerCase r)
  end.

(** [s.startsWith(p)] *)
Fixpoint startsWith (s p : string) {struct p} : bool :=
  match p, s with
  | EmptyString, _ => true
  | String a p', String b s' => if Ascii.eqb a b then startsWith s' p' else false
  | String _ _, EmptyString => false
  end.

(** [s.includes(needle)] *)
Fixpoint includes (s needle : string) : bool :=
  startsWith s needle ||
  match s with
  | EmptyString => false
  | String _ r => includes r needle
  end.

(** The character class [[\w\/.-]] of the regular expression. *)
Definition is_mime_char (c : ascii) : bool :=
  let n := nat_of_ascii c in
  ((48 <=? n) && (n <=? 57) || (65 <=? n) && (n <=? 90) ||
   (97 <=? n) && (n <=? 122) || (n =? 95) || (n =? 47) || (n =? 46) ||
   (n =? 45))%nat.

Fixpoint takeWhile (f : ascii → bool) (s : string) : string :=
  match s with
  | EmptyString => EmptyString
  | String c r => if f c then String c (takeWhile f r) else EmptyString
  end.

Fixpoint dropChars (n : nat) (s : string) : string :=
  match n, s with
  | O, _ => s
  | S n', String _ r => dropChars n' r
  | S _, EmptyString => EmptyString
  end.

Definition mimePrefix : string := "Unsupported MIME type: ".

(** An attempt of [/Unsupported MIME type: ([\w\/.-]+)/] at the start of
    [s]: the literal, then the longest non-empty run of class characters. *)
Definition mimeMatchHere (s : string) : option string :=
  if startsWith s mimePrefix then
    match takeWhile is_mime_char (dropChars (String.length mimePrefix) s) with
    | EmptyString => None
    | m => Some m
    end
  else None.

(** [rawMessage.match(/Unsupported MIME type: ([\w\/.-]+)/)], giving the
    capture group of the leftmost match. *)
Fixpoint mimeMatch (s : string) : option string :=
  match mimeMatchHere s with
  | Some m => Some m
  | None =>
      match s with
      | EmptyString => None
      | String _ r => mimeMatch r
      end
  end.

(** The values [getFriendlyErrorMessage] distinguishes in its argument of
    type [unknown]. *)
Inductive unknown : Type :=
| ErrorObject (message : string)          (* error instanceof Error *)
| StringValue (s : string)                (* typeof error === 'string' *)
| OtherValue (truthy : bool) (str : string). (* String(error) = str *)

Definition rawMessageOf (error : unknown) : string :=
  match error with
  | ErrorObject message => message
  | StringValue s => s
  | OtherValue true str => str
  | OtherValue false _ => "An unknown error occurred."
  end.

Definition rateLimitMessage : string :=
  "We're experiencing high demand right now. Please wait a moment and try again.".

Definition unsupportedMessage (mimeType : string) : string :=
  "Sorry, " ++ mimeType ++
  " is not supported. Please upload a standard image format like PNG, JPEG, or WEBP.".

Definition safetyMessage : string :=
  "Your request was blocked for safety reasons. This can happen with certain images or prompts. Please try a different image.".

Definition modelRefusedMessage : string :=
  "The AI couldn't create an image for this request. It might be too complex or unusual. Please try a different image or garment.".

Definition genericMessage (context : string) : string :=
  "An unexpected error occurred while trying to " ++ toLowerCase context ++
  ". Please try again. If the problem continues, there might be a temporary issue with the service.".

Definition getFriendlyErrorMessage (error : unknown) (context : string) : string :=
  let rawMessage := rawMessageOf error in
  let lowerCaseMessage := toLowerCase rawMessage in
  if includes lowerCaseMessage "quota" || includes lowerCaseMessage "rate limit"
     || includes lowerCaseMessage "429" then
    rateLimitMessage
  else if includes lowerCaseMessage "unsupported mime type" then
    let mimeType :=
      match mimeMatch rawMessage with
      | Some m => "'" ++ m ++ "'"
      | None => "this file type"
      end in
    unsupportedMessage mimeType
  else if includes lowerCaseMessage "blocked" || includes lowerCaseMessage "safety" then
    safetyMessage
  else if includes lowerCaseMessage "model did not return an image" then
    modelRefusedMessage
  else
    genericMessage context.

End Utils.

(** ** [src/App.tsx]: state, derived views and handlers *)

Module App.
Import Utils.

Definition POSE_INSTRUCTIONS : list string :=
  [ "Full frontal view, hands on hips";
    "Slightly turned, 3/4 view";
    "Side profile view";
    "Jumping in the air, mid-action shot";
    "Walking towards camera";
    "Leaning against a wall" ].

(** Modelled from the spec: [src/types.ts] is not among the sources. A
    garment reference carries an identity and a display name; a pose image
    has a [standard] locator and an optional [enhanced] one; a layer binds a
    garment (or none, for the base model) to its per-pose images. *)
Record WardrobeItem : Type := { id : string; name : string }.

Record PoseImage : Type := { standard : string; enhanced : option string }.

(** [poseImages] is a JavaScript object keyed by pose instruction. None of
    the keys is an array index, so its keys are enumerated in insertion
    order: an association list, written to with [objSet]. *)
Definition PoseImages : Type := list (string * PoseImage).

Record OutfitLayer : Type :=
  { garment : option WardrobeItem; poseImages : PoseImages }.

(** [obj[key]] *)
Fixpoint objGet (key : string) (obj : PoseImages) : option PoseImage :=
  match obj with
  | [] => None
  | (k, v) :: rest => if String.eqb k key then Some v else objGet key rest
  end.

(** [{ ...obj, [key]: v }]: an existing key keeps its place, a new key goes
    to the end. *)
Fixpoint objSet (key : string) (v : PoseImage) (obj : PoseImages) : PoseImages :=
  match obj with
  | [] => [(key, v)]
  | (k, w) :: rest =>
      if String.eqb k key then (k, v) :: rest else (k, w) :: objSet key v rest
  end.

(** [Object.keys(obj)] *)
Definition objKeys (obj : PoseImages) : list string := map fst obj.

(** Truthiness of a string, and of a string that may be [null] or
    [undefined]. *)
Definition truthy (s : string) : bool := negb (String.eqb s "").

Definition truthyOpt (o : option string) : bool :=
  match o with
  | Some s => truthy s
  | None => false
  end.

(** [a ?? b] *)
Definition nullish {A : Type} (a b : option A) : option A :=
  match a with
  | Some x => Some x
  | None => b
  end.

(** [POSE_INSTRUCTIONS[i]], which is [undefined] out of range, and the
    property key an instruction that may be [undefined] is used as. *)
Definition poseInstructionAt (i : Z) : option string :=
  if (i <? 0)%Z then None else POSE_INSTRUCTIONS !! Z.to_nat i.

Definition keyOf (poseInstruction : option string) : string :=
  default "undefined" poseInstruction.

Record AppState : Type :=
  { modelImageUrl : option string;
    outfitHistory : list OutfitLayer;
    currentOutfitIndex : nat;
    isLoading : bool;
    loadingMessage : string;
    error : option string;
    currentPoseIndex : Z;
    wardrobe : list WardrobeItem }.

Definition initialState : AppState :=
  {| modelImageUrl := None; outfitHistory := []; currentOutfitIndex := 0;
     isLoading := false; loadingMessage := ""; error := None;
     currentPoseIndex := 0; wardrobe := [] |}.

Definition setModelImageUrl (v : option string) (st : AppState) : AppState :=
  {| modelImageUrl := v; outfitHistory := outfitHistory st;
     currentOutfitIndex := currentOutfitIndex st; isLoading := isLoading st;
     loadingMessage := loadingMessage st; error := error st;
     currentPoseIndex := currentPoseIndex st; wardrobe := wardrobe st |}.

Definition setOutfitHistory (v : list OutfitLayer) (st : AppState) : AppState :=
  {| modelImageUrl := modelImageUrl st; outfitHistory := v;
     currentOutfitIndex := currentOutfitIndex st; isLoading := isLoading st;
     loadingMessage := loadingMessage st; error := error st;
     currentPoseIndex := currentPoseIndex st; wardrobe := wardrobe st |}.

Definition setCurrentOutfitIndex (v : nat) (st : AppState) : AppState :=
  {| modelImageUrl := modelImageUrl st; outfitHistory := outfitHistory st;
     currentOutfitIndex := v; isLoading := isLoading st;
     loadingMessage := loadingMessage st; error := error st;
     currentPoseIndex := currentPoseIndex st; wardrobe := wardrobe st |}.

Definition setIsLoading (v : bool) (st : AppState) : AppState :=
  {| modelImageUrl := modelImageUrl st; outfitHistory := outfitHistory st;
     currentOutfitIndex := currentOutfitIndex st; isLoading := v;
     loadingMessage := loadingMessage st; error := error st;
     currentPoseIndex := currentPoseIndex st; wardrobe := wardrobe st |}.

Definition setLoadingMessage (v : string) (st : AppState) : AppState :=
  {| modelImageUrl := modelImageUrl st; outfitHistory := outfitHistory st;
     currentOutfitIndex := currentOutfitIndex st; isLoading := isLoading st;
     loadingMessage := v; error := error st;
     currentPoseIndex := currentPoseIndex st; wardrobe := wardrobe st |}.

Definition setError (v : option string) (st : AppState) : AppState :=
  {| modelImageUrl := modelImageUrl st; outfitHistory := outfitHistory st;
     currentOutfitIndex := currentOutfitIndex st; isLoading := isLoading st;
     loadingMessage := loadingMessage st; error := v;
     currentPoseIndex := currentPoseIndex st; wardrobe := wardrobe st |}.

Definition setCurrentPoseIndex (v : Z) (st : AppState) : AppState :=
  {| modelImageUrl := modelImageUrl st; outfitHistory := outfitHistory st;
     currentOutfitIndex := currentOutfitIndex st; isLoading := isLoading st;
     loadingMessage := loadingMessage st; error := error st;
     currentPoseIndex := v; wardrobe := wardrobe st |}.

Definition setWardrobe (v : list WardrobeItem) (st : AppState) : AppState :=
  {| modelImageUrl := modelImageUrl st; outfitHistory := outfitHistory st;
     currentOutfitIndex := currentOutfitIndex st; isLoading := isLoading st;
     loadingMessage := loadingMessage st; error := error st;
     currentPoseIndex := currentPoseIndex st; wardrobe := v |}.

(** *** Derived views *)

Definition activeOutfitLayers (st : AppState) : list OutfitLayer :=
  take (currentOutfitIndex st + 1) (outfitHistory st).

Definition activeGarmentIds (st : AppState) : list string :=
  filter (λ i, truthy i = true)
    (omap (λ layer, id <$> garment layer) (activeOutfitLayers st)).

Definition displayImageUrl (st : AppState) : option string :=
  if (length (outfitHistory st) =? 0)%nat then modelImageUrl st
  else
    match outfitHistory st !! currentOutfitIndex st with
    | None => modelImageUrl st
    | Some currentLayer =>
        let poseInstruction := poseInstructionAt (currentPoseIndex st) in
        let poseImage := objGet (keyOf poseInstruction) (poseImages currentLayer) in
        let poseKeys := objKeys (poseImages currentLayer) in
        let fallbackPose :=
          match poseKeys with
          | k0 :: _ => objGet k0 (poseImages currentLayer)
          | [] => None
          end in
        nullish (poseImage ≫= enhanced)
          (nullish (standard <$> poseImage)
             (nullish (standard <$> fallbackPose) (modelImageUrl st)))
    end.

Definition isEnhanced (st : AppState) : bool :=
  if (length (outfitHistory st) =? 0)%nat then false
  else
    truthyOpt
      (outfitHistory st !! currentOutfitIndex st ≫= λ currentLayer,
       objGet (keyOf (poseInstructionAt (currentPoseIndex st)))
              (poseImages currentLayer) ≫= enhanced).

(** *** Handlers without a remote call *)

Definition baseLayerOf (url : string) : OutfitLayer :=
  {| garment := None;
     poseImages :=
       [(keyOf (poseInstructionAt 0), {| standard := url; enhanced := None |})] |}.

Definition handleModelFinalized (url : string) (st : AppState) : AppState :=
  setCurrentOutfitIndex 0
    (setOutfitHistory [baseLayerOf url] (setModelImageUrl (Some url) st)).

Definition addToWardrobe (garmentInfo : WardrobeItem) (prev : list WardrobeItem)
  : list WardrobeItem :=
  if existsb (λ item, String.eqb (id item) (id garmentInfo)) prev then prev
  else prev ++ [garmentInfo].

Definition handleInitialTryOnFinalized (baseModelUrl finalTryOnUrl : string)
    (garmentInfo : WardrobeItem) (st : AppState) : AppState :=
  let baseLayer := baseLayerOf baseModelUrl in
  let tryOnLayer :=
    {| garment := Some garmentInfo;
       poseImages :=
         [(keyOf (poseInstructionAt 0),
           {| standard := finalTryOnUrl; enhanced := None |})] |} in
  let st := setModelImageUrl (Some baseModelUrl) st in
  let st := setOutfitHistory [baseLayer; tryOnLayer] st in
  let st := setCurrentOutfitIndex 1 st in
  setWardrobe (addToWardrobe garmentInfo (wardrobe st)) st.

Definition handleStartOver (st : AppState) : AppState :=
  let st := setModelImageUrl None st in
  let st := setOutfitHistory [] st in
  let st := setCurrentOutfitIndex 0 st in
  let st := setIsLoading false st in
  let st := setLoadingMessage "" st in
  let st := setError None st in
  setCurrentPoseIndex 0 st.

(** *** Handlers around a remote call

    An [async] handler runs up to its [await] and either returns, throws
    before any state is written, or leaves a remote call outstanding with
    the continuation that runs when the call settles. The continuation
    holds what the closure captured at the time of the call; the functional
    updates ([setX(prev => ...)]) read the state at the time it settles. *)

Definition File : Type := string.

Inductive RemoteCall : Type :=
| generateVirtualTryOnImage (modelImage : string) (garmentFile : File)
| generatePoseVariation (image : string) (poseInstruction : option string)
| enhanceImageQuality (image : string).

Inductive Continuation : Type :=
| AfterTryOn (garmentInfo : WardrobeItem) (capturedOutfitIndex : nat)
    (capturedPoseIndex : Z)
| AfterPose (poseInstruction : option string) (capturedOutfitIndex : nat)
    (prevPoseIndex : Z)
| AfterEnhance (poseInstruction : option string) (capturedOutfitIndex : nat).

Inductive Outcome : Type :=
| Returned (st : AppState)
| Awaiting (st : AppState) (call : RemoteCall) (k : Continuation)
| Threw.

(** How a remote call settles: with the resulting image locator, or with an
    error whose [String(err)] is [err]. *)
Inductive Settled : Type :=
| Fulfilled (url : string)
| Rejected (err : string).

(** [nextLayer && nextLayer.garment?.id === garmentInfo.id] *)
Definition isNextLayerOf (nextLayer : option OutfitLayer) (garmentInfo : WardrobeItem)
  : bool :=
  match nextLayer with
  | Some layer =>
      match garment layer with
      | Some g => String.eqb (id g) (id garmentInfo)
      | None => false
      end
  | None => false
  end.

Definition handleGarmentSelect (garmentFile : File) (garmentInfo : WardrobeItem)
    (st : AppState) : Outcome :=
  match displayImageUrl st with
  | None => Returned st
  | Some url =>
      if negb (truthy url) || isLoading st then Returned st
      else
        let nextLayer := outfitHistory st !! (currentOutfitIndex st + 1) in
        if isNextLayerOf nextLayer garmentInfo then
          Returned
            (setCurrentPoseIndex 0
               (setCurrentOutfitIndex (currentOutfitIndex st + 1) st))
        else
          let st' := setError None st in
          let st' := setIsLoading true st' in
          let st' := setLoadingMessage ("Adding " ++ name garmentInfo ++ "...") st' in
          Awaiting st' (generateVirtualTryOnImage url garmentFile)
            (AfterTryOn garmentInfo (currentOutfitIndex st) (currentPoseIndex st))
  end.

Definition handleRemoveLastGarment (st : AppState) : Outcome :=
  if (0 <? currentOutfitIndex st)%nat then
    match outfitHistory st !! currentOutfitIndex st with
    | None => Threw
    | Some _ =>
        Returned
          (setCurrentPoseIndex 0
             (setCurrentOutfitIndex (currentOutfitIndex st - 1) st))
    end
  else Returned st.

Definition handlePoseSelect (newIndex : Z) (st : AppState) : Outcome :=
  if isLoading st || (length (outfitHistory st) =? 0)%nat
     || (newIndex =? currentPoseIndex st)%Z then Returned st
  else
    let poseInstruction := poseInstructionAt newIndex in
    match outfitHistory st !! currentOutfitIndex st with
    | None => Threw
    | Some currentLayer =>
        if truthyOpt
             (standard <$> objGet (keyOf poseInstruction) (poseImages currentLayer))
        then Returned (setCurrentPoseIndex newIndex st)
        else
          match displayImageUrl st with
          | None => Returned st
          | Some baseImageForPoseChange =>
              if negb (truthy baseImageForPoseChange) then Returned st
              else
                let st' := setError None st in
                let st' := setIsLoading true st' in
                let st' := setLoadingMessage "Changing pose..." st' in
                let prevPoseIndex := currentPoseIndex st in
                let st' := setCurrentPoseIndex newIndex st' in
                Awaiting st'
                  (generatePoseVariation baseImageForPoseChange poseInstruction)
                  (AfterPose poseInstruction (currentOutfitIndex st) prevPoseIndex)
          end
    end.

Definition handleEnhanceImage (st : AppState) : Outcome :=
  match displayImageUrl st with
  | None => Returned st
  | Some url =>
      if negb (truthy url) || isLoading st then Returned st
      else
        match outfitHistory st !! currentOutfitIndex st with
        | None => Threw
        | Some currentLayer =>
            let poseInstruction := poseInstructionAt (currentPoseIndex st) in
            if truthyOpt
                 (objGet (keyOf poseInstruction) (poseImages currentLayer)
                  ≫= enhanced)
            then Returned st
            else
              let st' := setError None st in
              let st' := setIsLoading true st' in
              let st' := setLoadingMessage "Enhancing image quality..." st' in
              Awaiting st' (enhanceImageQuality url)
                (AfterEnhance poseInstruction (currentOutfitIndex st))
        end
  end.

(** The [finally] block shared by the three handlers. *)
Definition finallyIdle (st : AppState) : AppState :=
  setLoadingMessage "" (setIsLoading false st).

(** The layer patches of [handlePoseSelect] and [handleEnhanceImage]. *)
Definition withPoseStandard (poseInstruction : option string) (newImageUrl : string)
    (layer : OutfitLayer) : OutfitLayer :=
  {| garment := garment layer;
     poseImages :=
       objSet (keyOf poseInstruction)
         {| standard := newImageUrl; enhanced := None |} (poseImages layer) |}.

Definition withPoseEnhanced (poseInstruction : option string)
    (enhancedImageUrl : string) (layer : OutfitLayer) : OutfitLayer :=
  {| garment := garment layer;
     poseImages :=
       match objGet (keyOf poseInstruction) (poseImages layer) with
       | Some poseToUpdate =>
           objSet (keyOf poseInstruction)
             {| standard := standard poseToUpdate;
                enhanced := Some enhancedImageUrl |} (poseImages layer)
       | None => poseImages layer
       end |}.

(** What runs after the [await], on the state [st] of that moment. *)
Definition resume (k : Continuation) (r : Settled) (st : AppState) : AppState :=
  match k, r with
  | AfterTryOn garmentInfo capturedOutfitIndex capturedPoseIndex, Fulfilled newImageUrl =>
      let currentPoseInstruction := poseInstructionAt capturedPoseIndex in
      let newLayer :=
        {| garment := Some garmentInfo;
           poseImages :=
             [(keyOf currentPoseInstruction,
               {| standard := newImageUrl; enhanced := None |})] |} in
      let st' :=
        setOutfitHistory
          (take (capturedOutfitIndex + 1) (outfitHistory st) ++ [newLayer]) st in
      let st' := setCurrentOutfitIndex (currentOutfitIndex st' + 1) st' in
      let st' := setWardrobe (addToWardrobe garmentInfo (wardrobe st')) st' in
      finallyIdle st'
  | AfterTryOn _ _ _, Rejected err =>
      finallyIdle
        (setError
           (Some (getFriendlyErrorMessage (StringValue err) "Failed to apply garment"))
           st)
  | AfterPose poseInstruction capturedOutfitIndex _, Fulfilled newImageUrl =>
      finallyIdle
        (setOutfitHistory
           (alter (withPoseStandard poseInstruction newImageUrl)
              capturedOutfitIndex (outfitHistory st)) st)
  | AfterPose _ _ prevPoseIndex, Rejected err =>
      finallyIdle
        (setCurrentPoseIndex prevPoseIndex
           (setError
              (Some (getFriendlyErrorMessage (StringValue err) "Failed to change pose"))
              st))
  | AfterEnhance poseInstruction capturedOutfitIndex, Fulfilled enhancedImageUrl =>
      finallyIdle
        (setOutfitHistory
           (alter (withPoseEnhanced poseInstruction enhancedImageUrl)
              capturedOutfitIndex (outfitHistory st)) st)
  | AfterEnhance _ _, Rejected err =>
      finallyIdle
        (setError
           (Some (getFriendlyErrorMessage (StringValue err) "Failed to enhance image"))
           st)
  end.

(** *** Sessions: the application state with the outstanding remote calls *)

Record Session : Type :=
  { app : AppState; pending : list (RemoteCall * Continuation) }.

Inductive Event : Type :=
| GarmentSelect (garmentFile : File) (garmentInfo : WardrobeItem)
| RemoveLastGarment
| PoseSelect (newIndex : Z)
| EnhanceImage
| Settle (r : Settled).

Definition dispatch (o : Outcome) (s : Session) : Session :=
  match o with
  | Returned st => {| app := st; pending := pending s |}
  | Awaiting st call k => {| app := st; pending := pending s ++ [(call, k)] |}
  | Threw => s
  end.

(** One event of a session in which every handler is called as the
    closure of the latest render, so that it reads the state it writes, and
    [Settle r] settles the oldest outstanding call. This is the special
    case of [Closures.act] below, which also has the wardrobe panel call
    [handleGarmentSelect] as the closure of an earlier render and lets the
    outstanding calls settle in any order. *)
Definition step (s : Session) (e : Event) : Session :=
  match e with
  | GarmentSelect garmentFile garmentInfo =>
      dispatch (handleGarmentSelect garmentFile garmentInfo (app s)) s
  | RemoveLastGarment => dispatch (handleRemoveLastGarment (app s)) s
  | PoseSelect newIndex => dispatch (handlePoseSelect newIndex (app s)) s
  | EnhanceImage => dispatch (handleEnhanceImage (app s)) s
  | Settle r =>
      match pending s with
      | [] => s
      | (_, k) :: rest => {| app := resume k r (app s); pending := rest |}
      end
  end.

Definition run (s : Session) (events : list Event) : Session :=
  fold_left step events s.

(** A freshly reset timeline with nothing outstanding: the base layer
    alone, on the initial state. [handleStartOver] cancels no call, so a
    timeline reset after it may start with calls left over;
    [Closures.resetTimeline] covers those. *)
Definition freshSession (url : string) : Session :=
  {| app := handleModelFinalized url initialState; pending := [] |}.

(** The timeline as [handleInitialTryOnFinalized] leaves it: the base layer
    and a first garment layer. *)
Definition freshTryOnSession (baseModelUrl finalTryOnUrl : string)
    (garmentInfo : WardrobeItem) : Session :=
  {| app :=
       handleInitialTryOnFinalized baseModelUrl finalTryOnUrl garmentInfo
         initialState;
     pending := [] |}.

End App.

(** ** The specification's vocabulary *)

Module Spec.
Import Utils App.

(** Case-insensitive substring matching: some piece of [raw] equals
    [needle] up to the case of its letters. *)
Definition occursIgnoringCase (needle raw : string) : Prop :=
  ∃ pre piece post,
    raw = pre ++ piece ++ post ∧ toLowerCase piece = toLowerCase needle.

(** The same notion without reference to [toLowerCase]: two characters
    are the same letter when they are equal or one is a lower-case letter
    [a]-[z] and the other its upper-case form. *)
Definition upperCaseOf (lower upper : ascii) : Prop :=
  (97 ≤ nat_of_ascii lower ≤ 122)%nat
  ∧ (nat_of_ascii upper + 32 = nat_of_ascii lower)%nat.

Definition sameLetter (a b : ascii) : Prop :=
  a = b ∨ upperCaseOf a b ∨ upperCaseOf b a.

Fixpoint equalIgnoringCase (s t : string) : Prop :=
  match s, t with
  | EmptyString, EmptyString => True
  | String a s', String b t' => sameLetter a b ∧ equalIgnoringCase s' t'
  | _, _ => False
  end.

Definition containsIgnoringCase (needle raw : string) : Prop :=
  ∃ pre piece post,
    raw = pre ++ piece ++ post ∧ equalIgnoringCase piece needle.

(** Every character of [s] satisfies [P]. *)
Fixpoint everyChar (P : ascii → Prop) (s : string) : Prop :=
  match s with
  | EmptyString => True
  | String c r => P c ∧ everyChar P r
  end.

(** [lowered] is [s] with each upper-case letter replaced by its lower-case
    form. *)
Definition lowerCaseOf (s lowered : string) : Prop :=
  equalIgnoringCase lowered s
  ∧ everyChar (λ c, ¬ (65 ≤ nat_of_ascii c ≤ 90)%nat) lowered.

(** The error taxonomy. *)
Inductive ErrorKind : Type :=
| RateLimited | UnsupportedInput | SafetyRejected | ModelRefused | Unknown.

Definition mentionsRateLimit (raw : string) : Prop :=
  containsIgnoringCase "quota" raw ∨ containsIgnoringCase "rate limit" raw
  ∨ containsIgnoringCase "429" raw.

Definition mentionsUnsupported (raw : string) : Prop :=
  containsIgnoringCase "unsupported mime type" raw.

Definition mentionsSafety (raw : string) : Prop :=
  containsIgnoringCase "blocked" raw ∨ containsIgnoringCase "safety" raw.

Definition mentionsRefusal (raw : string) : Prop :=
  containsIgnoringCase "model did not return an image" raw.

(** The precedence order of the classification. *)
Inductive classifies (raw : string) : ErrorKind → Prop :=
| classifies_rate :
    mentionsRateLimit raw → classifies raw RateLimited
| classifies_unsupported :
    ¬ mentionsRateLimit raw → mentionsUnsupported raw →
    classifies raw UnsupportedInput
| classifies_safety :
    ¬ mentionsRateLimit raw → ¬ mentionsUnsupported raw → mentionsSafety raw →
    classifies raw SafetyRejected
| classifies_refused :
    ¬ mentionsRateLimit raw → ¬ mentionsUnsupported raw → ¬ mentionsSafety raw →
    mentionsRefusal raw → classifies raw ModelRefused
| classifies_unknown :
    ¬ mentionsRateLimit raw → ¬ mentionsUnsupported raw → ¬ mentionsSafety raw →
    ¬ mentionsRefusal raw → classifies raw Unknown.

(** The characters a format name is made of: letters, digits, [_], [/],
    [.] and [-]. *)
Definition isFormatChar (c : ascii) : Prop :=
  let n := nat_of_ascii c in
  (48 ≤ n ≤ 57 ∨ 65 ≤ n ≤ 90 ∨ 97 ≤ n ≤ 122
   ∨ n = 95 ∨ n = 47 ∨ n = 46 ∨ n = 45)%nat.

Definition startsWithFormatChar (s : string) : Prop :=
  match s with
  | EmptyString => False
  | String c _ => isFormatChar c
  end.

(** The offending format as it can be extracted from [raw]: at the first
    place where the literal [Unsupported MIME type: ] is followed by a
    format character, [m] is the whole run of format characters. *)
Definition namesFormat (raw m : string) : Prop :=
  ∃ pre post,
    raw = pre ++ "Unsupported MIME type: " ++ m ++ post
    ∧ startsWithFormatChar m ∧ everyChar isFormatChar m
    ∧ ¬ startsWithFormatChar post
    ∧ ∀ pre' rest,
        raw = pre' ++ "Unsupported MIME type: " ++ rest →
        startsWithFormatChar rest →
        (String.length pre ≤ String.length pre')%nat.

(** The user-facing message of each kind, for the raw message [raw] and
    the context [context]. *)
Inductive describes (raw context : string) : ErrorKind → string → Prop :=
| describes_rate :
    describes raw context RateLimited
      "We're experiencing high demand right now. Please wait a moment and try again."
| describes_named (m : string) :
    namesFormat raw m →
    describes raw context UnsupportedInput
      ("Sorry, '" ++ m ++
       "' is not supported. Please upload a standard image format like PNG, JPEG, or WEBP.")
| describes_unnamed :
    (∀ m, ¬ namesFormat raw m) →
    describes raw context UnsupportedInput
      "Sorry, this file type is not supported. Please upload a standard image format like PNG, JPEG, or WEBP."
| describes_safety :
    describes raw context SafetyRejected
      "Your request was blocked for safety reasons. This can happen with certain images or prompts. Please try a different image."
| describes_refused :
    describes raw context ModelRefused
      "The AI couldn't create an image for this request. It might be too complex or unusual. Please try a different image or garment."
| describes_unknown (lowered : string) :
    lowerCaseOf context lowered →
    describes raw context Unknown
      ("An unexpected error occurred while trying to " ++ lowered ++
       ". Please try again. If the problem continues, there might be a temporary issue with the service.").

(** The display image of layer [L] for the pose keyed [key], with the base
    model image [base] as the last resort. *)
Inductive resolvesTo (L : OutfitLayer) (key : string) (base : option string)
  : option string → Prop :=
| resolves_enhanced (p : PoseImage) (e : string) :
    objGet key (poseImages L) = Some p → enhanced p = Some e →
    resolvesTo L key base (Some e)
| resolves_standard (p : PoseImage) :
    objGet key (poseImages L) = Some p → enhanced p = None →
    resolvesTo L key base (Some (standard p))
| resolves_other_pose (key' : string) (p' : PoseImage) :
    objGet key (poseImages L) = None → key' ≠ key →
    objGet key' (poseImages L) = Some p' →
    resolvesTo L key base (Some (standard p'))
| resolves_base :
    poseImages L = [] → resolvesTo L key base base.

End Spec.

(** ** Invariants of a session *)

Module Invariants.
Import Utils App.

(** The [enhanced] locator stored for pose key [k] on layer [j]. *)
Definition enhancedAt (st : AppState) (j : nat) (k : string) : option string :=
  outfitHistory st !! j ≫= λ L, objGet k (poseImages L) ≫= enhanced.

(** Event [e], taken in session [s], commits a new garment layer above a
    captured cursor that lies below [j]: layer [j] is discarded or replaced
    wholesale. *)
Definition replacesLayer (s : Session) (e : Event) (j : nat) : Prop :=
  ∃ url call garmentInfo c p rest,
    e = Settle (Fulfilled url) ∧
    pending s = (call, AfterTryOn garmentInfo c p) :: rest ∧ (c < j)%nat.

(** The events that are calls of a handler, as opposed to the settling of
    a remote call. *)
Definition isHandlerCall (e : Event) : Prop :=
  match e with
  | Settle _ => False
  | _ => True
  end.

(** Somewhere along [events], run from [s], layer [j] is replaced. *)
Definition replacedDuring (s : Session) (events : list Event) (j : nat) : Prop :=
  ∃ before e after,
    events = (before ++ e :: after)%list ∧ replacesLayer (run s before) e j.

(** An enhanced image is only ever stored next to a displayable standard
    one. *)
Definition enhancedHasStandard (h : list OutfitLayer) : Prop :=
  ∀ j L k p e,
    h !! j = Some L → objGet k (poseImages L) = Some p → enhanced p = Some e →
    truthy (standard p) = true.

(** What an outstanding continuation may rely on. *)
Definition pendingOk (st : AppState) (k : Continuation) : Prop :=
  match k with
  | AfterTryOn _ c _ =>
      (currentOutfitIndex st ≤ c)%nat ∧ (c < length (outfitHistory st))%nat
  | AfterPose poseInstruction c _ =>
      ∀ L p, outfitHistory st !! c = Some L →
             objGet (keyOf poseInstruction) (poseImages L) = Some p →
             enhanced p = None
  | AfterEnhance poseInstruction c =>
      ∀ L p, outfitHistory st !! c = Some L →
             objGet (keyOf poseInstruction) (poseImages L) = Some p →
             enhanced p = None ∧ truthy (standard p) = true
  end.

Record invariant (s : Session) : Prop :=
  { inv_cursor :
      (currentOutfitIndex (app s) < length (outfitHistory (app s)))%nat;
    inv_base :
      ∃ L, outfitHistory (app s) !! 0 = Some L ∧ garment L = None;
    inv_enhanced : enhancedHasStandard (outfitHistory (app s));
    inv_pending :
      (pending s = [] ∧ isLoading (app s) = false)
      ∨ ∃ call k, pending s = [(call, k)] ∧ isLoading (app s) = true
                  ∧ pendingOk (app s) k }.

End Invariants.

(** ** Concrete sessions *)

Module Scenario.
Import Utils App.

Definition shirt : WardrobeItem := {| id := "shirt-1"; name := "Shirt" |}.
Definition jacket : WardrobeItem := {| id := "jacket-2"; name := "Jacket" |}.
Definition scarf : WardrobeItem := {| id := "scarf-3"; name := "Scarf" |}.

Definition shirtLayer : OutfitLayer :=
  {| garment := Some shirt;
     poseImages :=
       [("Full frontal view, hands on hips",
         {| standard := "shirt_on_model.png"; enhanced := None |})] |}.

Definition jacketLayer : OutfitLayer :=
  {| garment := Some jacket;
     poseImages :=
       [("Full frontal view, hands on hips",
         {| standard := "jacket_on_shirt.png"; enhanced := None |})] |}.

Definition shirtSideLayer : OutfitLayer :=
  {| garment := Some shirt;
     poseImages :=
       [("Side profile view",
         {| standard := "shirt_side.png"; enhanced := None |})] |}.

(** The base model wearing the shirt, then the jacket: cursor on the jacket. *)
Definition twoGarments : Session :=
  run (freshSession "model.png")
    [ GarmentSelect "shirt.png" shirt; Settle (Fulfilled "shirt_on_model.png");
      GarmentSelect "jacket.png" jacket; Settle (Fulfilled "jacket_on_shirt.png") ].

(** The jacket removed again: the history keeps it, cursor on the shirt. *)
Definition steppedBack : Session := step twoGarments RemoveLastGarment.

(** The same, with a pose change outstanding. *)
Definition steppedBackLoading : Session := step steppedBack (PoseSelect 1).

(** Two garments with a pose change outstanding. *)
Definition twoGarmentsLoading : Session := step twoGarments (PoseSelect 1).

(** A garment layer whose image came back as the empty string. *)
Definition emptyImage : Session :=
  run (freshSession "model.png")
    [ GarmentSelect "shirt.png" shirt; Settle (Fulfilled "") ].

(** The shirt removed, then a pose of the base layer regenerated into the
    empty string: nothing is loading, the shirt layer still follows the
    cursor, and there is no image to display. *)
Definition emptyPose : Session :=
  run (freshSession "model.png")
    [ GarmentSelect "shirt.png" shirt; Settle (Fulfilled "shirt_on_model.png");
      RemoveLastGarment;
      PoseSelect 1; Settle (Fulfilled "") ].

(** A shirt layer holding the empty string for the side pose only, shown
    in the frontal pose. *)
Definition emptySide : Session :=
  run (freshSession "model.png")
    [ PoseSelect 2; Settle (Fulfilled "model_side.png");
      GarmentSelect "shirt.png" shirt; Settle (Fulfilled "");
      RemoveLastGarment; GarmentSelect "shirt.png" shirt ].

(** Garments applied in the side pose; after the jacket is removed the
    cursor is on the shirt layer, which has the side pose only, and the
    pose cursor is back at the frontal pose. *)
Definition sideOnly : Session :=
  run (freshSession "model.png")
    [ PoseSelect 2; Settle (Fulfilled "model_side.png");
      GarmentSelect "shirt.png" shirt; Settle (Fulfilled "shirt_side.png");
      GarmentSelect "jacket.png" jacket; Settle (Fulfilled "jacket_side.png");
      RemoveLastGarment ].

Definition sideOnlyLoading : Session := step sideOnly (PoseSelect 1).

(** A failed pose change after the shirt was removed: an error is stored
    and the shirt can be re-selected. *)
Definition failedPose : Session :=
  run (freshSession "model.png")
    [ GarmentSelect "shirt.png" shirt; Settle (Fulfilled "shirt_on_model.png");
      RemoveLastGarment;
      PoseSelect 1; Settle (Rejected "Error: 429 Too Many Requests") ].

(** The base image enhanced. *)
Definition enhancedBase : Session :=
  run (freshSession "model.png")
    [ EnhanceImage; Settle (Fulfilled "model_hd.png") ].

Definition laterEvents : list Event :=
  [ PoseSelect 1; Settle (Fulfilled "model_pose1.png");
    GarmentSelect "shirt.png" shirt; Settle (Fulfilled "shirt_pose1.png");
    RemoveLastGarment; EnhanceImage; PoseSelect 0;
    GarmentSelect "scarf.png" scarf; Settle (Rejected "blocked") ].

End Scenario.

(** ** [src/App.tsx]: the wishlist, model creation and the wardrobe rows *)

Module Session.
Import Utils App.

(** [array.includes(x)] on an array of strings. *)
Definition arrayIncludes (x : string) (l : list string) : bool :=
  existsb (String.eqb x) l.

(** The state updater of [toggleWishlist] in [useWishlist]. *)
Definition toggleWishlist (productId : string) (prev : list string) : list string :=
  let isAdding := negb (arrayIncludes productId prev) in
  if isAdding then prev ++ [productId]
  else filter (λ id, id ≠ productId) prev.

Definition isInWishlist (productId : string) (wishlist : list string) : bool :=
  arrayIncludes productId wishlist.

(** [handleFileSelectForTryOn] up to its first [await]. With a pending
    garment the garment image is loaded and the initial try-on generated;
    without one only the model image is generated. Nothing is written
    between the two awaits of the first branch. *)
Definition MODEL_CREATION_MESSAGE_0 : string := "Creating your personal model...".

Definition handleFileSelectForTryOn (pendingGarment : option WardrobeItem)
    (st : AppState) : AppState :=
  let st := setError None st in
  let st := setIsLoading true st in
  match pendingGarment with
  | Some _ => setLoadingMessage "Creating your virtual try-on..." st
  | None => setLoadingMessage MODEL_CREATION_MESSAGE_0 st
  end.

(** How an awaited call comes back: with its result, or with the value
    thrown, which the [catch] receives as it is. *)
Inductive Awaited (A : Type) : Type :=
| Resolved (a : A)
| Thrown (err : unknown).

Arguments Resolved {A} a.
Arguments Thrown {A} err.

Definition creationFailed (err : unknown) (st : AppState) : AppState :=
  finallyIdle
    (setError (Some (getFriendlyErrorMessage err "Failed to create your look")) st).

(** What runs after the awaits of [handleFileSelectForTryOn], in the
    branch without a pending garment and in the branch with one. *)
Definition afterGenerateModelImage (r : Awaited string) (st : AppState) : AppState :=
  match r with
  | Resolved result => finallyIdle (handleModelFinalized result st)
  | Thrown err => creationFailed err st
  end.

Definition afterGenerateInitialTryOn (pendingGarment : WardrobeItem)
    (r : Awaited (string * string)) (st : AppState) : AppState :=
  match r with
  | Resolved (baseModelUrl, finalTryOnUrl) =>
      finallyIdle
        (handleInitialTryOnFinalized baseModelUrl finalTryOnUrl pendingGarment st)
  | Thrown err => creationFailed err st
  end.

(** The rows of the [products] table as [fetchWardrobe] reads them:
    [image_urls] may be missing (or otherwise falsy), something that is not
    an array, or an array; [image_url] may be a string or not. *)
Inductive ImageUrlsField : Type :=
| Falsy
| NotAnArray
| UrlArray (urls : list string).

Record ProductRow : Type :=
  { row_item : WardrobeItem;
    row_image_urls : ImageUrlsField;
    row_image_url : option string }.

Record SanitizedItem : Type :=
  { item : WardrobeItem; image_urls : list string }.

Definition sanitizeRow (row : ProductRow) : SanitizedItem :=
  let imageUrls :=
    match row_image_urls row with
    | UrlArray urls => urls
    | Falsy | NotAnArray => []
    end in
  let imageUrls :=
    match imageUrls, row_image_url row with
    | [], Some url => [url]
    | _, _ => imageUrls
    end in
  {| item := row_item row; image_urls := imageUrls |}.

Definition sanitizeWardrobe (data : list ProductRow) : list SanitizedItem :=
  filter (λ i, (0 < length (image_urls i))%nat) (sanitizeRow <$> data).

End Session.

(** ** [src/components/Canvas.tsx] and [src/components/OutfitStack.tsx] *)

Module Canvas.
Import Utils App.

(** [array.indexOf(x)] for a value that may be [undefined], which no
    element of an array of strings equals. *)
Fixpoint indexOfFrom (i : Z) (x : string) (l : list string) : Z :=
  match l with
  | [] => (-1)%Z
  | y :: rest => if String.eqb y x then i else indexOfFrom (i + 1)%Z x rest
  end.

Definition indexOf (x : option string) (l : list string) : Z :=
  match x with
  | Some s => indexOfFrom 0 s l
  | None => (-1)%Z
  end.

(** [array[i]] for an integer [i]. *)
Definition at_ (l : list string) (i : Z) : option string :=
  if (i <? 0)%Z then None else l !! Z.to_nat i.

(** The keys of the current layer's pose images, as [App] hands them to
    [Canvas]. *)
Definition availablePoseKeys (st : AppState) : list string :=
  if (length (outfitHistory st) =? 0)%nat then []
  else
    match outfitHistory st !! currentOutfitIndex st with
    | Some currentLayer => objKeys (poseImages currentLayer)
    | None => []
    end.

(** The number of pose instructions [App] passes: [poseInstructions] is
    always [POSE_INSTRUCTIONS]. *)
Definition poseCount : Z := Z.of_nat (length POSE_INSTRUCTIONS).

(** [handlePreviousPose] and [handleNextPose]: the index handed to
    [onSelectPose], if it is called. The remainder is JavaScript's [%]. *)
Definition handlePreviousPose (isLoading : bool) (availablePoseKeys : list string)
    (currentPoseIndex : Z) : option Z :=
  if isLoading || (length availablePoseKeys <=? 1)%nat then None
  else
    let currentPoseInstruction := poseInstructionAt currentPoseIndex in
    let currentIndexInAvailable := indexOf currentPoseInstruction availablePoseKeys in
    if (currentIndexInAvailable =? -1)%Z then
      Some (Z.rem (currentPoseIndex - 1 + poseCount) poseCount)
    else
      let n := Z.of_nat (length availablePoseKeys) in
      let prevIndexInAvailable := Z.rem (currentIndexInAvailable - 1 + n) n in
      let prevPoseInstruction := at_ availablePoseKeys prevIndexInAvailable in
      let newGlobalPoseIndex := indexOf prevPoseInstruction POSE_INSTRUCTIONS in
      if negb (newGlobalPoseIndex =? -1)%Z then Some newGlobalPoseIndex else None.

Definition handleNextPose (isLoading : bool) (availablePoseKeys : list string)
    (currentPoseIndex : Z) : option Z :=
  if isLoading then None
  else
    let currentPoseInstruction := poseInstructionAt currentPoseIndex in
    let currentIndexInAvailable := indexOf currentPoseInstruction availablePoseKeys in
    if (currentIndexInAvailable =? -1)%Z || (length availablePoseKeys =? 0)%nat then
      Some (Z.rem (currentPoseIndex + 1) poseCount)
    else
      let nextIndexInAvailable := (currentIndexInAvailable + 1)%Z in
      if (nextIndexInAvailable <? Z.of_nat (length availablePoseKeys))%Z then
        let nextPoseInstruction := at_ availablePoseKeys nextIndexInAvailable in
        let newGlobalPoseIndex := indexOf nextPoseInstruction POSE_INSTRUCTIONS in
        if negb (newGlobalPoseIndex =? -1)%Z then Some newGlobalPoseIndex else None
      else
        Some (Z.rem (currentPoseIndex + 1) poseCount).

(** [OutfitStack]: the rows, by index, that carry the remove button. *)
Definition removeButtonRows (outfitHistory : list OutfitLayer) : list nat :=
  filter (λ index, (0 < index)%nat ∧ index = (length outfitHistory - 1)%nat)
    (seq 0 (length outfitHistory)).

End Canvas.

(** ** [src/lib/utils.ts]: retailer names, text wrapping, share file names *)

Module Text.
Import Utils App.

(** [toUpperCase] on the letters [a]-[z], as [toLowerCase] above. *)
Definition upper_ascii (c : ascii) : ascii :=
  let n := nat_of_ascii c in
  if (97 <=? n)%nat && (n <=? 122)%nat then ascii_of_nat (n - 32) else c.

(** [s.replace(pat, rep)] with a string pattern: the first occurrence. *)
Fixpoint replaceFirst (pat rep s : string) : string :=
  if startsWith s pat then rep ++ dropChars (String.length pat) s
  else
    match s with
    | EmptyString => EmptyString
    | String c r => String c (replaceFirst pat rep r)
    end.

(** [s.split(sep)] with a separator of one character. *)
Fixpoint splitOn (sep : ascii) (s : string) : list string :=
  match s with
  | EmptyString => [EmptyString]
  | String c r =>
      if Ascii.eqb c sep then EmptyString :: splitOn sep r
      else
        match splitOn sep r with
        | h :: t => String c h :: t
        | [] => [String c EmptyString]
        end
  end.

(** [s.charAt(0).toUpperCase() + s.slice(1)] *)
Definition capitalize (s : string) : string :=
  match s with
  | EmptyString => EmptyString
  | String c r => String (upper_ascii c) r
  end.

(** The keys of [retailerMap] in the order [for ... in] visits them. *)
Definition retailerMap : list (string * string) :=
  [ ("ajio", "Ajio"); ("ajiio", "Ajio"); ("bitli", "Ajio");
    ("amazon", "Amazon"); ("flipkart", "Flipkart"); ("fkrt", "Flipkart");
    ("fktr", "Flipkart"); ("meesho", "Meesho"); ("nykaafashion", "Nykaa");
    ("myntra", "Myntra"); ("myntr", "Myntra") ].

Fixpoint findRetailer (hostname : string) (map : list (string * string))
  : option string :=
  match map with
  | [] => None
  | (keyword, retailer) :: rest =>
      if includes hostname keyword then Some retailer
      else findRetailer hostname rest
  end.

(** [getRetailerName], given what [new URL(url).hostname] evaluates to:
    [None] when the constructor throws. *)
Definition getRetailerName (parsedHostname : option string) : string :=
  match parsedHostname with
  | None => "the retailer"
  | Some h =>
      let hostname := toLowerCase h in
      match findRetailer hostname retailerMap with
      | Some retailer => retailer
      | None =>
          let parts := splitOn "." (replaceFirst "www." "" hostname) in
          match parts with
          | retailer :: _ =>
              if truthy retailer then capitalize retailer else "the retailer"
          | [] => "the retailer"
          end
      end
  end.

(** A host name label: a string with no dot in it. *)
Definition dotless (s : string) : Prop := ∀ pre post, s ≠ pre ++ "." ++ post.

(** White space, for [trim] and for [\s], on ASCII text: tab, line feed,
    vertical tab, form feed, carriage return and space. JavaScript also
    counts characters outside ASCII as white space (the no-break space, the
    byte order mark, the line and paragraph separators and others), which
    the model does not follow: what is stated of [trim] is stated of ASCII
    text. *)
Definition isSpace (c : ascii) : bool :=
  let n := nat_of_ascii c in
  ((9 <=? n) && (n <=? 13) || (n =? 32))%nat.

Fixpoint trimStart (s : string) : string :=
  match s with
  | EmptyString => EmptyString
  | String c r => if isSpace c then trimStart r else s
  end.

Fixpoint trimEnd (s : string) : string :=
  match s with
  | EmptyString => EmptyString
  | String c r =>
      match trimEnd r with
      | EmptyString => if isSpace c then EmptyString else String c EmptyString
      | r' => String c r'
      end
  end.

Definition trim (s : string) : string := trimEnd (trimStart s).

(** [s.slice(0, -1)] *)
Fixpoint dropLast (s : string) : string :=
  match s with
  | EmptyString => EmptyString
  | String c EmptyString => EmptyString
  | String c r => String c (dropLast r)
  end.

(** [name.replace(/\s+/g, '-')]: [inRun] says that the character before
    was white space already replaced. *)
Fixpoint dashRuns (inRun : bool) (s : string) : string :=
  match s with
  | EmptyString => EmptyString
  | String c r =>
      if isSpace c then
        if inRun then dashRuns true r else String "-" (dashRuns true r)
      else String c (dashRuns false r)
  end.

(** The name of the file [createProductShareImage] resolves to. *)
Definition shareFileName (productName : string) : string :=
  dashRuns false productName ++ "-share.png".

(** [wrapText]. The canvas is seen through [tooWide s], which stands for
    [ctx.measureText(s).width > maxWidth]; the result lists the texts handed
    to [fillText], the one at position [i] being drawn [i] line heights
    below [y]. [None] is a call that does not return. *)
Section WrapText.
Variable tooWide : string → bool.
Variable maxLines : Z.

(** The [while] loop shortening the last line; [n] is the length of
    [truncatedLine]. On the empty string the loop makes no progress. *)
Fixpoint truncateFrom (n : nat) (truncatedLine : string) : option string :=
  if tooWide (truncatedLine ++ "...") then
    match n with
    | O => None
    | S n' => truncateFrom n' (dropLast truncatedLine)
    end
  else Some truncatedLine.

(** The [for] loop from word [i] on; [first] is [i = 0]. *)
Fixpoint wrapLoop (words : list string) (first : bool) (line : string)
    (lineCount : Z) : option (list string) :=
  match words with
  | [] => Some [trim line]
  | word :: rest =>
      let testLine := line ++ word ++ " " in
      if tooWide testLine && negb first then
        if (lineCount =? maxLines)%Z then
          truncatedLine ← truncateFrom (String.length (trim line)) (trim line);
          Some [truncatedLine ++ "..."]
        else
          below ← wrapLoop rest false (word ++ " ") (lineCount + 1);
          Some (trim line :: below)
      else wrapLoop rest false testLine lineCount
  end.

Definition wrapText (text : string) : option (list string) :=
  wrapLoop (splitOn " " text) true "" 1.

End WrapText.

End Text.

(** ** The shape of the layers *)

Module Layers.
Import Utils App.

(** Layer [j] has at least one pose image, no pose key twice, and a
    garment exactly when it is not the first layer. *)
Definition layerOk (j : nat) (L : OutfitLayer) : Prop :=
  poseImages L ≠ [] ∧ NoDup (objKeys (poseImages L))
  ∧ (garment L = None ↔ j = 0%nat).

Definition historyOk (h : list OutfitLayer) : Prop :=
  ∀ j L, h !! j = Some L → layerOk j L.

End Layers.

(** ** Handlers as closures of a render, and overlapping calls *)

Module Closures.
Import Utils App Session Layers.

(** [handleGarmentSelect] as the closure of the render whose state was
    [render], called when the state is [st]. What it reads
    ([displayImageUrl], [isLoading], the history and both cursors) is what
    the render saw; what it writes goes to [st], the functional update of
    the cursor reading [st]. *)
Definition handleGarmentSelectOf (render : AppState) (garmentFile : File)
    (garmentInfo : WardrobeItem) (st : AppState) : Outcome :=
  match displayImageUrl render with
  | None => Returned st
  | Some url =>
      if negb (truthy url) || isLoading render then Returned st
      else
        let nextLayer := outfitHistory render !! (currentOutfitIndex render + 1) in
        if isNextLayerOf nextLayer garmentInfo then
          Returned
            (setCurrentPoseIndex 0
               (setCurrentOutfitIndex (currentOutfitIndex st + 1) st))
        else
          let st' := setError None st in
          let st' := setIsLoading true st' in
          let st' := setLoadingMessage ("Adding " ++ name garmentInfo ++ "...") st' in
          Awaiting st' (generateVirtualTryOnImage url garmentFile)
            (AfterTryOn garmentInfo (currentOutfitIndex render)
               (currentPoseIndex render))
  end.

(** The application state, the remote calls of the four handlers that are
    outstanding, the garment clicks of the wardrobe panel whose image is
    still being loaded by [urlToFile], each with the state of the render it
    was made in, and the model creations outstanding, each with the pending
    garment [handleFileSelectForTryOn] was rendered with. *)
Record World : Type :=
  { live : AppState;
    calls : list (RemoteCall * Continuation);
    loads : list (AppState * WardrobeItem);
    creations : list (option WardrobeItem) }.

Definition withLive (st : AppState) (w : World) : World :=
  {| live := st; calls := calls w; loads := loads w; creations := creations w |}.

Inductive Action : Type :=
| ClickGarment (item : WardrobeItem)
| GarmentLoaded (i : nat) (file : option File)
| UploadGarment (garmentFile : File) (garmentInfo : WardrobeItem)
| ClickRemove
| ClickPose (newIndex : Z)
| ClickEnhance
| CallSettles (i : nat) (r : Settled)
| SelectModelFile (pendingGarment : option WardrobeItem)
| ModelImageSettles (i : nat) (r : Awaited string)
| InitialTryOnSettles (i : nat) (r : Awaited (string * string))
| CloseUploadModal
| WardrobeFetchFails.

Definition dispatch (o : Outcome) (w : World) : World :=
  match o with
  | Returned st => withLive st w
  | Awaiting st call k =>
      {| live := st; calls := calls w ++ [(call, k)]; loads := loads w;
         creations := creations w |}
  | Threw => w
  end.

(** [WardrobePanel.handleGarmentClick] up to its [await]: the guard is on
    the [isLoading] and [activeGarmentIds] of the render clicked in. *)
Definition handleGarmentClick (item : WardrobeItem) (w : World) : World :=
  if isLoading (live w) || arrayIncludes (id item) (activeGarmentIds (live w))
  then w
  else {| live := live w; calls := calls w;
          loads := loads w ++ [(live w, item)]; creations := creations w |}.

(** - [ClickGarment]: a garment button of the wardrobe panel.
    - [GarmentLoaded i file]: [urlToFile] of the [i]-th waiting click
      settles; with a file, [handleGarmentClick] goes on to call the
      [onGarmentSelect] it was rendered with; without one it stores an error
      in the panel and the application state is untouched.
    - [UploadGarment]: [handleFileChange], which calls [onGarmentSelect] at
      once.
    - [ClickRemove], [ClickPose], [ClickEnhance]: the handlers of the
      latest render.
    - [CallSettles i r]: the [i]-th outstanding call settles.
    - [SelectModelFile]: [handleFileSelectForTryOn] up to its first
      [await]; [ModelImageSettles] and [InitialTryOnSettles]: the [i]-th
      outstanding creation, if it is of that branch, comes back.
    - [CloseUploadModal]: the [onClose] of the upload modal.
    - [WardrobeFetchFails]: the [catch] of [fetchWardrobe].
    [handleStartOver] is not among the actions: it ends the session, and
    what it leaves outstanding is what the next one starts with. *)
Definition act (w : World) (a : Action) : World :=
  match a with
  | ClickGarment item => handleGarmentClick item w
  | GarmentLoaded i file =>
      match loads w !! i with
      | None => w
      | Some (render, item) =>
          let w' := {| live := live w; calls := calls w;
                       loads := delete i (loads w);
                       creations := creations w |} in
          match file with
          | Some garmentFile =>
              dispatch (handleGarmentSelectOf render garmentFile item (live w)) w'
          | None => w'
          end
      end
  | UploadGarment garmentFile garmentInfo =>
      dispatch (handleGarmentSelect garmentFile garmentInfo (live w)) w
  | ClickRemove => dispatch (handleRemoveLastGarment (live w)) w
  | ClickPose newIndex => dispatch (handlePoseSelect newIndex (live w)) w
  | ClickEnhance => dispatch (handleEnhanceImage (live w)) w
  | CallSettles i r =>
      match calls w !! i with
      | None => w
      | Some (_, k) =>
          {| live := resume k r (live w); calls := delete i (calls w);
             loads := loads w; creations := creations w |}
      end
  | SelectModelFile pendingGarment =>
      {| live := handleFileSelectForTryOn pendingGarment (live w);
         calls := calls w; loads := loads w;
         creations := creations w ++ [pendingGarment] |}
  | ModelImageSettles i r =>
      match creations w !! i with
      | Some None =>
          {| live := afterGenerateModelImage r (live w); calls := calls w;
             loads := loads w; creations := delete i (creations w) |}
      | _ => w
      end
  | InitialTryOnSettles i r =>
      match creations w !! i with
      | Some (Some pendingGarment) =>
          {| live := afterGenerateInitialTryOn pendingGarment r (live w);
             calls := calls w; loads := loads w;
             creations := delete i (creations w) |}
      | _ => w
      end
  | CloseUploadModal => withLive (setError None (live w)) w
  | WardrobeFetchFails =>
      withLive
        (setError (Some "Could not load wardrobe items from the database.")
           (live w)) w
  end.

Definition perform (w : World) (actions : list Action) : World :=
  fold_left act actions w.

(** The sessions of [App.step] among these. *)
Definition worldOf (s : Session) : World :=
  {| live := app s; calls := pending s; loads := []; creations := [] |}.

Definition actionOf (e : Event) : Action :=
  match e with
  | GarmentSelect garmentFile garmentInfo => UploadGarment garmentFile garmentInfo
  | RemoveLastGarment => ClickRemove
  | PoseSelect newIndex => ClickPose newIndex
  | EnhanceImage => ClickEnhance
  | Settle r => CallSettles 0 r
  end.

Definition freshWorld (url : string) : World := worldOf (freshSession url).

(** A freshly reset timeline: the state as a successful model creation
    leaves it, with or without a first garment, whatever the state before
    it was. *)
Definition resetTimeline (st : AppState) : Prop :=
  ∃ st0,
    (∃ url, st = afterGenerateModelImage (Resolved url) st0)
    ∨ (∃ garmentInfo baseModelUrl finalTryOnUrl,
         st = afterGenerateInitialTryOn garmentInfo
                (Resolved (baseModelUrl, finalTryOnUrl)) st0).

(** What a handler call may do to the history, the model image and the
    loading flag. *)
Definition outcomeOk (st : AppState) (o : Outcome) : Prop :=
  match o with
  | Returned st' =>
      outfitHistory st' = outfitHistory st
      ∧ modelImageUrl st' = modelImageUrl st
      ∧ isLoading st' = isLoading st
  | Awaiting st' _ _ =>
      outfitHistory st' = outfitHistory st
      ∧ modelImageUrl st' = modelImageUrl st
      ∧ isLoading st' = true
  | Threw => True
  end.

(** What every world reached from a reset timeline keeps. *)
Record shaped (w : World) : Prop :=
  { shaped_nonempty : outfitHistory (live w) ≠ [];
    shaped_layers : historyOk (outfitHistory (live w));
    shaped_model : is_Some (modelImageUrl (live w));
    shaped_loading :
      isLoading (live w) = true → calls w ≠ [] ∨ creations w ≠ [] }.

(** *** Two sessions with overlapping calls *)

(** Two garments clicked one after the other while the image of the first
    is still being loaded: both clicks pass the guard, both compose calls
    are issued, both succeed. *)
Definition quickClicks : list Action :=
  [ ClickGarment Scenario.shirt; ClickGarment Scenario.jacket;
    GarmentLoaded 0 (Some "shirt.png"); GarmentLoaded 0 (Some "jacket.png");
    CallSettles 0 (Fulfilled "shirt_on_model.png");
    CallSettles 0 (Fulfilled "jacket_on_model.png") ].

(** A garment clicked, then a pose selected while the garment image is
    being loaded: the compose call is issued on top of the pose call, and
    its failure clears the loading flag with the pose call still
    outstanding. The pose is then selected again, generated and enhanced. *)
Definition poseCallLeftBehind : list Action :=
  [ ClickGarment Scenario.shirt; ClickPose 1;
    GarmentLoaded 0 (Some "shirt.png");
    CallSettles 1 (Rejected "Error: 429 Too Many Requests");
    ClickPose 0; ClickPose 1;
    CallSettles 1 (Fulfilled "model_pose1.png");
    ClickEnhance;
    CallSettles 1 (Fulfilled "model_pose1_hd.png") ].

End Closures.

(** * Properties *)

(** ** String helpers of [src/lib/utils.ts] *)

Section UtilsFacts.
Import Utils.

Lemma append_cons (c : ascii) (a b : string) :
  String c a ++ b = String c (a ++ b).
Proof. reflexivity. Qed.

Lemma append_empty (b : string) : "" ++ b = b.
Proof. reflexivity. Qed.

Lemma append_assoc (a b c : string) : (a ++ b) ++ c = a ++ (b ++ c).
Proof. induction a as [|x a IH]; [done |]. by rewrite !append_cons, IH. Qed.

Lemma length_append (a b : string) :
  String.length (a ++ b) = (String.length a + String.length b)%nat.
Proof. induction a as [|x a IH]; [done |]. rewrite append_cons. cbn. by rewrite IH. Qed.

Lemma startsWith_spec (p s : string) :
  startsWith s p = true ↔ ∃ post, s = p ++ post.
Proof.
  revert s. induction p as [|a p IH]; intros s; simpl.
  - split; [intros _; by exists s | done].
  - destruct s as [|b s].
    + split; [done | by intros [post ?]].
    + setoid_rewrite append_cons.
      destruct (Ascii.eqb_spec a b) as [->|Hne].
      * rewrite IH. split; intros [post Hpost]; exists post; congruence.
      * split; [done | intros [post Hpost]; congruence].
Qed.

Lemma includes_spec (needle s : string) :
  includes s needle = true ↔ ∃ pre post, s = pre ++ needle ++ post.
Proof.
  induction s as [|c s IH].
  - cbn [includes]. rewrite orb_false_r, startsWith_spec. split.
    + intros [post Hpost]. by exists "", post.
    + intros [[|c pre] [post Hpost]]; [by exists post | done].
  - cbn [includes]. rewrite orb_true_iff, startsWith_spec, IH. split.
    + intros [[post Hpost] | (pre & post & Hpost)].
      * by exists "", post.
      * exists (String c pre), post. by rewrite append_cons, Hpost.
    + intros ([|c' pre] & post & Hpost).
      * left. by exists post.
      * right. exists pre, post. rewrite append_cons in Hpost. congruence.
Qed.

Lemma toLowerCase_app (a b : string) :
  toLowerCase (a ++ b) = toLowerCase a ++ toLowerCase b.
Proof.
  induction a as [|c a IH]; [done |].
  rewrite append_cons. cbn [toLowerCase]. by rewrite append_cons, IH.
Qed.

Lemma toLowerCase_split (s a b : string) :
  toLowerCase s = a ++ b →
  ∃ a' b', s = a' ++ b' ∧ toLowerCase a' = a ∧ toLowerCase b' = b.
Proof.
  revert s. induction a as [|c a IH]; intros s Hs.
  - by exists "", s.
  - destruct s as [|d s]; [done |].
    rewrite append_cons in Hs. cbn [toLowerCase] in Hs.
    injection Hs as Hc Hs. destruct (IH _ Hs) as (a' & b' & -> & Ha & Hb).
    exists (String d a'), b'. cbn [toLowerCase]. by rewrite Hc, Ha.
Qed.

Lemma lower_ascii_idem (c : ascii) : lower_ascii (lower_ascii c) = lower_ascii c.
Proof.
  destruct c as [[] [] [] [] [] [] [] []]; reflexivity.
Qed.

Lemma toLowerCase_idem (s : string) : toLowerCase (toLowerCase s) = toLowerCase s.
Proof.
  induction s as [|c s IH]; cbn [toLowerCase]; [done | by rewrite lower_ascii_idem, IH].
Qed.

End UtilsFacts.

(** ** Error classification *)

Section ErrorClassification.
Import Utils Spec.

Lemma includes_toLowerCase (needle raw : string) :
  toLowerCase needle = needle →
  includes (toLowerCase raw) needle = true ↔ occursIgnoringCase needle raw.
Proof.
  intros Hlow. rewrite includes_spec. unfold occursIgnoringCase. rewrite Hlow.
  split.
  - intros (pre & post & Hraw).
    apply toLowerCase_split in Hraw as (pre' & rest & -> & Hpre & Hrest).
    apply toLowerCase_split in Hrest as (piece & post' & -> & Hpiece & Hpost).
    by exists pre', piece, post'.
  - intros (pre & piece & post & -> & Hpiece).
    exists (toLowerCase pre), (toLowerCase post).
    by rewrite !toLowerCase_app, Hpiece.
Qed.

Lemma includes_toLowerCase_false (needle raw : string) :
  toLowerCase needle = needle →
  includes (toLowerCase raw) needle = false ↔ ¬ occursIgnoringCase needle raw.
Proof.
  intros Hlow. rewrite <- (includes_toLowerCase _ _ Hlow).
  by destruct (includes _ _).
Qed.

Lemma classifies_functional (raw : string) (k1 k2 : ErrorKind) :
  classifies raw k1 → classifies raw k2 → k1 = k2.
Proof. intros H1 H2. destruct H1; destruct H2; done. Qed.

Lemma takeWhile_split (f : ascii → bool) (s : string) :
  ∃ post, s = takeWhile f s ++ post ∧ takeWhile f post = "".
Proof.
  induction s as [|c s (post & Hs & Hpost)]; [by exists "" |].
  cbn [takeWhile]. destruct (f c) eqn:Hc.
  - exists post. by rewrite append_cons, <- Hs.
  - exists (String c s). split; [done |]. cbn [takeWhile]. by rewrite Hc.
Qed.

Lemma takeWhile_idem (f : ascii → bool) (s : string) :
  takeWhile f (takeWhile f s) = takeWhile f s.
Proof.
  induction s as [|c s IH]; [done |]. cbn [takeWhile].
  destruct (f c) eqn:Hc; [| done]. cbn [takeWhile]. by rewrite Hc, IH.
Qed.

Lemma dropChars_app (p rest : string) :
  dropChars (String.length p) (p ++ rest) = rest.
Proof. induction p as [|c p IH]; [by destruct rest | done]. Qed.

Lemma mimeMatchHere_Some (s m : string) :
  mimeMatchHere s = Some m ↔
  m ≠ "" ∧ ∃ rest, s = mimePrefix ++ rest ∧ takeWhile is_mime_char rest = m.
Proof.
  unfold mimeMatchHere. destruct (startsWith s mimePrefix) eqn:Hs.
  - apply startsWith_spec in Hs as [rest ->]. rewrite dropChars_app.
    split.
    + intros Hm. destruct (takeWhile is_mime_char rest) eqn:Hrun; [done |].
      injection Hm as <-. split; [done |]. by exists rest.
    + intros [Hne (rest' & Heq & <-)].
      assert (rest' = rest) as -> by by simplify_eq.
      by destruct (takeWhile is_mime_char rest).
  - split; [done |]. intros [_ (rest & -> & _)].
    assert (startsWith (mimePrefix ++ rest) mimePrefix = true) as Habs
      by (apply startsWith_spec; by exists rest).
    congruence.
Qed.

Lemma mimeMatch_unfold (s : string) :
  mimeMatch s =
  match mimeMatchHere s with
  | Some m => Some m
  | None => match s with EmptyString => None | String _ r => mimeMatch r end
  end.
Proof. by destruct s. Qed.

(** *** The specification's vocabulary against the code's *)

Lemma nat_of_ascii_inj (a b : ascii) : nat_of_ascii a = nat_of_ascii b → a = b.
Proof.
  intros Heq. by rewrite <- (ascii_nat_embedding a), <- (ascii_nat_embedding b), Heq.
Qed.

Lemma lower_ascii_code (c : ascii) :
  nat_of_ascii (lower_ascii c) =
    if (65 <=? nat_of_ascii c)%nat && (nat_of_ascii c <=? 90)%nat
    then (nat_of_ascii c + 32)%nat else nat_of_ascii c.
Proof.
  unfold lower_ascii.
  destruct (Nat.leb_spec 65 (nat_of_ascii c)), (Nat.leb_spec (nat_of_ascii c) 90);
    cbn [andb]; try done.
  apply nat_ascii_embedding. lia.
Qed.

Lemma sameLetter_lower (a b : ascii) :
  sameLetter a b ↔ lower_ascii a = lower_ascii b.
Proof.
  split.
  - intros [-> | [[Hr Hu] | [Hr Hu]]]; [done | |];
      apply nat_of_ascii_inj; rewrite !lower_ascii_code;
      destruct (Nat.leb_spec 65 (nat_of_ascii a)), (Nat.leb_spec (nat_of_ascii a) 90),
        (Nat.leb_spec 65 (nat_of_ascii b)), (Nat.leb_spec (nat_of_ascii b) 90);
      cbn [andb]; lia.
  - intros Heq. apply (f_equal nat_of_ascii) in Heq.
    rewrite !lower_ascii_code in Heq. unfold sameLetter, upperCaseOf.
    destruct (decide (nat_of_ascii a = nat_of_ascii b)) as [Hab|Hab];
      [left; by apply nat_of_ascii_inj | right].
    destruct (Nat.leb_spec 65 (nat_of_ascii a)), (Nat.leb_spec (nat_of_ascii a) 90),
      (Nat.leb_spec 65 (nat_of_ascii b)), (Nat.leb_spec (nat_of_ascii b) 90);
      cbn [andb] in Heq; lia.
Qed.

Lemma equalIgnoringCase_lower (s t : string) :
  equalIgnoringCase s t ↔ toLowerCase s = toLowerCase t.
Proof.
  revert t. induction s as [|a s IH]; intros [|b t]; cbn; try done.
  rewrite sameLetter_lower, IH. split; [by intros [-> ->] | by intros [= -> ->]].
Qed.

Lemma contains_occurs (needle raw : string) :
  containsIgnoringCase needle raw ↔ occursIgnoringCase needle raw.
Proof.
  unfold containsIgnoringCase, occursIgnoringCase.
  by setoid_rewrite equalIgnoringCase_lower.
Qed.

Lemma includes_contains (needle raw : string) :
  toLowerCase needle = needle →
  includes (toLowerCase raw) needle = true ↔ containsIgnoringCase needle raw.
Proof. intros Hlow. by rewrite contains_occurs, includes_toLowerCase. Qed.

Lemma includes_contains_false (needle raw : string) :
  toLowerCase needle = needle →
  includes (toLowerCase raw) needle = false ↔ ¬ containsIgnoringCase needle raw.
Proof. intros Hlow. by rewrite contains_occurs, includes_toLowerCase_false. Qed.

Lemma lowerCaseOf_toLowerCase (s : string) : lowerCaseOf s (toLowerCase s).
Proof.
  split; [by apply equalIgnoringCase_lower, toLowerCase_idem |].
  induction s as [|c s IH]; [done |]. cbn. split; [| done].
  rewrite lower_ascii_code.
  destruct (Nat.leb_spec 65 (nat_of_ascii c)), (Nat.leb_spec (nat_of_ascii c) 90);
    cbn [andb]; lia.
Qed.

Lemma isFormatChar_spec (c : ascii) : is_mime_char c = true ↔ isFormatChar c.
Proof.
  unfold is_mime_char, isFormatChar. cbn zeta.
  rewrite !orb_true_iff, !andb_true_iff, !Nat.leb_le, !Nat.eqb_eq. lia.
Qed.

Lemma startsWithFormatChar_takeWhile (s : string) :
  startsWithFormatChar s ↔ takeWhile is_mime_char s ≠ "".
Proof.
  destruct s as [|c s]; cbn; [done |]. rewrite <- isFormatChar_spec.
  by destruct (is_mime_char c).
Qed.

Lemma everyChar_takeWhile (s : string) :
  everyChar isFormatChar (takeWhile is_mime_char s).
Proof.
  induction s as [|c s IH]; [done |]. cbn [takeWhile].
  destruct (is_mime_char c) eqn:Hc; [| done]. cbn. split; [| done].
  by apply isFormatChar_spec.
Qed.

Lemma startsWithFormatChar_app (m post : string) :
  startsWithFormatChar m → startsWithFormatChar (m ++ post).
Proof. by destruct m. Qed.

(** Where [mimeMatchHere] fails, the literal is not followed by a format
    character. *)
Lemma mimeMatchHere_None (s rest : string) :
  mimeMatchHere s = None → s = mimePrefix ++ rest → ¬ startsWithFormatChar rest.
Proof.
  intros Hnone -> Hrest. apply startsWithFormatChar_takeWhile in Hrest.
  destruct (takeWhile is_mime_char rest) as [|c m] eqn:Hrun; [done |].
  assert (mimeMatchHere (mimePrefix ++ rest) = Some (String c m)) as Hsome
    by (apply mimeMatchHere_Some; split; [done | by exists rest]).
  congruence.
Qed.

Lemma mimeMatch_first (raw m : string) :
  mimeMatch raw = Some m → namesFormat raw m.
Proof.
  revert m. induction raw as [|c raw IH]; intros m; rewrite mimeMatch_unfold.
  - destruct (mimeMatchHere "") eqn:Hhere; [| done].
    apply mimeMatchHere_Some in Hhere as [_ (rest & Habs & _)]. done.
  - destruct (mimeMatchHere (String c raw)) as [m'|] eqn:Hhere.
    + intros [= ->].
      apply mimeMatchHere_Some in Hhere as [Hne (rest & Hraw & Hrun)].
      destruct (takeWhile_split is_mime_char rest) as (post & Hrest & Hpost).
      rewrite Hrun in Hrest. exists "", post.
      split; [by rewrite Hraw, Hrest |].
      split; [apply startsWithFormatChar_takeWhile; rewrite <- Hrun;
              by rewrite takeWhile_idem, Hrun |].
      split; [rewrite <- Hrun; apply everyChar_takeWhile |].
      split; [rewrite startsWithFormatChar_takeWhile, Hpost; by intros Habs |].
      intros pre' rest' _ _. cbn. lia.
    + intros Hm. destruct (IH m Hm) as (pre & post & -> & Hstart & Hall & Hend & Hfirst).
      exists (String c pre), post. do 4 (split; [done |]).
      intros [|c' pre'] rest' Heq Hrest'.
      * by destruct (mimeMatchHere_None _ rest' Hhere Heq).
      * rewrite append_cons in Heq. injection Heq as -> Heq.
        cbn [String.length]. apply le_n_S. by apply (Hfirst pre' rest').
Qed.

Lemma mimeMatch_None (raw pre rest : string) :
  mimeMatch raw = None → raw = pre ++ mimePrefix ++ rest →
  ¬ startsWithFormatChar rest.
Proof.
  revert pre. induction raw as [|c raw IH]; intros pre; rewrite mimeMatch_unfold.
  - destruct (mimeMatchHere "") eqn:Hhere; [done |]. intros _ Heq.
    destruct pre; [| done]. by apply (mimeMatchHere_None "" rest).
  - destruct (mimeMatchHere (String c raw)) eqn:Hhere; [done |].
    intros Hnone Heq. destruct pre as [|c' pre].
    + by apply (mimeMatchHere_None (String c raw) rest).
    + rewrite append_cons in Heq. injection Heq as -> Heq. by apply (IH pre).
Qed.

Lemma mimeMatch_unnamed (raw : string) :
  mimeMatch raw = None → ∀ m, ¬ namesFormat raw m.
Proof.
  intros Hnone m (pre & post & Heq & Hstart & _).
  apply (mimeMatch_None raw pre (m ++ post) Hnone Heq).
  by apply startsWithFormatChar_app.
Qed.

(** The message [getFriendlyErrorMessage] returns is that of the kind its
    raw message classifies as. *)
Lemma friendly_message_described (error : unknown) (context : string) :
  ∃ kind,
    classifies (rawMessageOf error) kind
    ∧ describes (rawMessageOf error) context kind
        (getFriendlyErrorMessage error context).
Proof.
  unfold getFriendlyErrorMessage. set (raw := rawMessageOf error).
  destruct (includes (toLowerCase raw) "quota") eqn:Hq;
    [exists RateLimited; split; [| constructor]; constructor; left;
       by apply includes_contains |].
  destruct (includes (toLowerCase raw) "rate limit") eqn:Hr;
    [exists RateLimited; split; [| constructor]; constructor; right; left;
       by apply includes_contains |].
  destruct (includes (toLowerCase raw) "429") eqn:H4;
    [exists RateLimited; split; [| constructor]; constructor; right; right;
       by apply includes_contains |].
  apply includes_contains_false in Hq, Hr, H4; [| done..].
  assert (¬ mentionsRateLimit raw) as Hrate by (intros [?|[?|?]]; done).
  cbn [orb].
  destruct (includes (toLowerCase raw) "unsupported mime type") eqn:Hu.
  { exists UnsupportedInput. split.
    - apply classifies_unsupported; [done |]. by apply includes_contains.
    - destruct (mimeMatch raw) as [m|] eqn:Hm.
      + replace (unsupportedMessage ("'" ++ m ++ "'"))
          with ("Sorry, '" ++ m ++
                "' is not supported. Please upload a standard image format like PNG, JPEG, or WEBP.")
          by (unfold unsupportedMessage; rewrite !append_assoc; reflexivity).
        apply describes_named. by apply mimeMatch_first.
      + apply describes_unnamed. by apply mimeMatch_unnamed. }
  apply includes_contains_false in Hu; [| done].
  destruct (includes (toLowerCase raw) "blocked") eqn:Hb;
    [exists SafetyRejected; split; [| constructor];
       apply classifies_safety; [done..|]; left; by apply includes_contains |].
  destruct (includes (toLowerCase raw) "safety") eqn:Hs;
    [exists SafetyRejected; split; [| constructor];
       apply classifies_safety; [done..|]; right; by apply includes_contains |].
  apply includes_contains_false in Hb, Hs; [| done..].
  assert (¬ mentionsSafety raw) as Hsafe by (intros [?|?]; done).
  cbn [orb].
  destruct (includes (toLowerCase raw) "model did not return an image") eqn:Hm.
  { exists ModelRefused. split; [| constructor].
    apply classifies_refused; [done..|]. by apply includes_contains. }
  apply includes_contains_false in Hm; [| done].
  exists Unknown. split; [by apply classifies_unknown |].
  unfold genericMessage. apply describes_unknown, lowerCaseOf_toLowerCase.
Qed.



(** The classification is a function of the raw message, and the message
    of a kind is determined: no other kind and no other text satisfy the
    statement above. *)
Lemma namesFormat_functional (raw m1 m2 : string) :
  namesFormat raw m1 → namesFormat raw m2 → m1 = m2.
Proof.
  intros Hm1 Hm2.
  destruct (mimeMatch raw) as [m|] eqn:Hm;
    [| by destruct (mimeMatch_unnamed raw Hm m1)].
  assert (∀ m', namesFormat raw m' → m' = m) as Huniq; [| by rewrite (Huniq m1), (Huniq m2)].
  clear m1 m2 Hm1 Hm2. intros m' (pre' & post' & Heq' & Hstart' & Hall' & Hend' & Hfirst').
  destruct (mimeMatch_first raw m Hm) as (pre & post & Heq & Hstart & Hall & Hend & Hfirst).
  assert (String.length pre = String.length pre') as Hlen.
  { apply Nat.le_antisymm.
    - apply (Hfirst pre' (m' ++ post')); [done | by apply startsWithFormatChar_app].
    - apply (Hfirst' pre (m ++ post)); [done | by apply startsWithFormatChar_app]. }
  assert (m' ++ post' = m ++ post) as Hrest.
  { rewrite Heq in Heq'. clear -Heq' Hlen. revert pre' Heq' Hlen.
    induction pre as [|c pre IH]; intros [|c' pre'] Heq' Hlen; try done.
    - rewrite !append_empty in Heq'.
      apply (f_equal (dropChars (String.length mimePrefix))) in Heq'.
      by rewrite !(dropChars_app mimePrefix) in Heq'.
    - rewrite !append_cons in Heq'. injection Heq' as _ Heq'.
      apply (IH pre'); [done |]. cbn in Hlen. lia. }
  clear -Hrest Hall Hall' Hend Hend'.
  revert m' Hrest Hall'. induction m as [|c m IH]; intros [|c' m'] Hrest Hall'; try done.
  - rewrite append_cons, !append_empty in Hrest. subst post.
    destruct Hall' as [Hc' _]. by destruct Hend.
  - rewrite append_cons, !append_empty in Hrest. subst post'.
    destruct Hall as [Hc _]. by destruct Hend'.
  - rewrite !append_cons in Hrest. injection Hrest as -> Hrest.
    cbn in Hall, Hall'. f_equal. apply IH; [by destruct Hall | done | by destruct Hall'].
Qed.

Example friendly_rate_limit :
  getFriendlyErrorMessage (StringValue "Error: 429 Too Many Requests")
    "Failed to apply garment" = rateLimitMessage.
Proof. reflexivity. Qed.

Example friendly_rate_limit_first :
  getFriendlyErrorMessage
    (ErrorObject "Request BLOCKED: Quota exceeded for unsupported MIME type")
    "Failed to apply garment" = rateLimitMessage.
Proof. reflexivity. Qed.

Example friendly_mime_named :
  getFriendlyErrorMessage
    (StringValue "Error: Unsupported MIME type: image/gif; try again") "x"
  = "Sorry, 'image/gif' is not supported. Please upload a standard image format like PNG, JPEG, or WEBP.".
Proof. reflexivity. Qed.

Example friendly_mime_unnamed :
  getFriendlyErrorMessage (StringValue "unsupported mime type: image/gif") "x"
  = "Sorry, this file type is not supported. Please upload a standard image format like PNG, JPEG, or WEBP.".
Proof. reflexivity. Qed.

Example friendly_generic :
  getFriendlyErrorMessage (OtherValue false "") "Failed to Change pose"
  = "An unexpected error occurred while trying to failed to change pose. Please try again. If the problem continues, there might be a temporary issue with the service.".
Proof. reflexivity. Qed.

End ErrorClassification.

(** ** The pose-image object and the handlers *)

Section HandlerFacts.
Import Utils App Invariants.

Lemma objGet_objSet (k k' : string) (v : PoseImage) (obj : PoseImages) :
  objGet k' (objSet k v obj) = if decide (k' = k) then Some v else objGet k' obj.
Proof.
  induction obj as [|[k0 w] obj IH]; cbn [objSet objGet].
  - destruct (String.eqb_spec k k'); case_decide; congruence.
  - destruct (String.eqb_spec k0 k) as [->|Hk0]; cbn [objGet].
    + destruct (String.eqb_spec k k'); case_decide; congruence.
    + destruct (String.eqb_spec k0 k') as [->|]; [| done].
      case_decide; congruence.
Qed.

Lemma alter_fixed {A : Type} (f : A → A) (i : nat) (l : list A) :
  (∀ x, l !! i = Some x → f x = x) → alter f i l = l.
Proof.
  intros Hf. apply list_eq. intros j.
  destruct (decide (i = j)) as [<-|Hne].
  - rewrite list_lookup_alter_eq. destruct (l !! i) as [x|] eqn:Hi; simpl; [| done].
    by rewrite (Hf x).
  - by rewrite list_lookup_alter_ne.
Qed.

Lemma length_pos_eqb {A : Type} (l : list A) (i : nat) (x : A) :
  l !! i = Some x → (length l =? 0)%nat = false.
Proof.
  intros Hl. apply lookup_lt_Some in Hl. apply Nat.eqb_neq. lia.
Qed.

(** While loading, the three guarded handlers return at once. *)
Lemma handleGarmentSelect_busy garmentFile garmentInfo st :
  isLoading st = true → handleGarmentSelect garmentFile garmentInfo st = Returned st.
Proof.
  intros Hbusy. unfold handleGarmentSelect.
  destruct (displayImageUrl st); [| done]. by rewrite Hbusy, orb_true_r.
Qed.

Lemma handlePoseSelect_busy newIndex st :
  isLoading st = true → handlePoseSelect newIndex st = Returned st.
Proof. intros Hbusy. unfold handlePoseSelect. by rewrite Hbusy. Qed.

Lemma handleEnhanceImage_busy st :
  isLoading st = true → handleEnhanceImage st = Returned st.
Proof.
  intros Hbusy. unfold handleEnhanceImage.
  destruct (displayImageUrl st); [| done]. by rewrite Hbusy, orb_true_r.
Qed.

Lemma run_cons (s : Session) (e : Event) (events : list Event) :
  run s (e :: events) = run (step s e) events.
Proof. reflexivity. Qed.

Lemma run_app (s : Session) (before after : list Event) :
  run s (before ++ after) = run (run s before) after.
Proof. apply fold_left_app. Qed.

Lemma step_settle (s : Session) (r : Settled) (call : RemoteCall)
    (k : Continuation) (rest : list (RemoteCall * Continuation)) :
  pending s = (call, k) :: rest →
  step s (Settle r) = {| app := resume k r (app s); pending := rest |}.
Proof. intros Hp. cbn [step]. by rewrite Hp. Qed.

(** The ways each handler can come out. *)
Lemma handleGarmentSelect_cases garmentFile garmentInfo st :
  handleGarmentSelect garmentFile garmentInfo st = Returned st
  ∨ (isLoading st = false
     ∧ isNextLayerOf (outfitHistory st !! (currentOutfitIndex st + 1)) garmentInfo = true
     ∧ handleGarmentSelect garmentFile garmentInfo st =
       Returned (setCurrentPoseIndex 0
                   (setCurrentOutfitIndex (currentOutfitIndex st + 1) st)))
  ∨ (isLoading st = false
     ∧ isNextLayerOf (outfitHistory st !! (currentOutfitIndex st + 1)) garmentInfo = false
     ∧ ∃ url, displayImageUrl st = Some url ∧ truthy url = true
       ∧ handleGarmentSelect garmentFile garmentInfo st =
         Awaiting
           (setLoadingMessage ("Adding " ++ name garmentInfo ++ "...")
              (setIsLoading true (setError None st)))
           (generateVirtualTryOnImage url garmentFile)
           (AfterTryOn garmentInfo (currentOutfitIndex st) (currentPoseIndex st))).
Proof.
  unfold handleGarmentSelect.
  destruct (displayImageUrl st) as [url|]; [| by left].
  destruct (truthy url) eqn:Hurl; [| by left].
  destruct (isLoading st) eqn:Hbusy; [by left |]. cbn [negb orb].
  destruct (isNextLayerOf _ _) eqn:Hnext; [right; left | right; right]; eauto 10.
Qed.

Lemma handleRemoveLastGarment_cases st :
  handleRemoveLastGarment st = Returned st
  ∨ handleRemoveLastGarment st = Threw
  ∨ ((0 < currentOutfitIndex st)%nat
     ∧ handleRemoveLastGarment st =
       Returned (setCurrentPoseIndex 0
                   (setCurrentOutfitIndex (currentOutfitIndex st - 1) st))).
Proof.
  unfold handleRemoveLastGarment.
  destruct (0 <? currentOutfitIndex st)%nat eqn:Hpos; [| by left].
  apply Nat.ltb_lt in Hpos.
  destruct (outfitHistory st !! currentOutfitIndex st); eauto.
Qed.

Lemma handlePoseSelect_cases newIndex st :
  handlePoseSelect newIndex st = Returned st
  ∨ handlePoseSelect newIndex st = Threw
  ∨ (isLoading st = false
     ∧ handlePoseSelect newIndex st = Returned (setCurrentPoseIndex newIndex st))
  ∨ (isLoading st = false
     ∧ ∃ currentLayer url,
         outfitHistory st !! currentOutfitIndex st = Some currentLayer
         ∧ truthyOpt
             (standard <$> objGet (keyOf (poseInstructionAt newIndex))
                             (poseImages currentLayer)) = false
         ∧ displayImageUrl st = Some url ∧ truthy url = true
         ∧ handlePoseSelect newIndex st =
           Awaiting
             (setCurrentPoseIndex newIndex
                (setLoadingMessage "Changing pose..."
                   (setIsLoading true (setError None st))))
             (generatePoseVariation url (poseInstructionAt newIndex))
             (AfterPose (poseInstructionAt newIndex) (currentOutfitIndex st)
                (currentPoseIndex st))).
Proof.
  unfold handlePoseSelect.
  destruct (isLoading st) eqn:Hbusy; [by left |].
  destruct (_ || _ || _); [by left |].
  destruct (outfitHistory st !! currentOutfitIndex st) as [currentLayer|]; [| eauto].
  destruct (truthyOpt _) eqn:Hcached; [eauto |].
  destruct (displayImageUrl st) as [url|]; [| by left].
  destruct (truthy url) eqn:Hurl; [| by left]. cbn [negb].
  do 3 right. split; [done |]. by exists currentLayer, url.
Qed.

Lemma handleEnhanceImage_cases st :
  handleEnhanceImage st = Returned st
  ∨ handleEnhanceImage st = Threw
  ∨ (isLoading st = false
     ∧ ∃ currentLayer url,
         outfitHistory st !! currentOutfitIndex st = Some currentLayer
         ∧ truthyOpt
             (objGet (keyOf (poseInstructionAt (currentPoseIndex st)))
                (poseImages currentLayer) ≫= enhanced) = false
         ∧ displayImageUrl st = Some url ∧ truthy url = true
         ∧ handleEnhanceImage st =
           Awaiting
             (setLoadingMessage "Enhancing image quality..."
                (setIsLoading true (setError None st)))
             (enhanceImageQuality url)
             (AfterEnhance (poseInstructionAt (currentPoseIndex st))
                (currentOutfitIndex st))).
Proof.
  unfold handleEnhanceImage.
  destruct (displayImageUrl st) as [url|]; [| by left].
  destruct (truthy url) eqn:Hurl; [| by left].
  destruct (isLoading st) eqn:Hbusy; [by left |]. cbn [negb orb].
  destruct (outfitHistory st !! currentOutfitIndex st) as [currentLayer|]; [| eauto].
  destruct (truthyOpt _) eqn:Henh; [by left |].
  do 2 right. split; [done |]. by exists currentLayer, url.
Qed.

(** While a call is outstanding, a handler call leaves the loading flag,
    the stored error and the outstanding call alone. *)
Lemma handler_call_while_loading (s : Session) (e : Event) :
  isHandlerCall e → isLoading (app s) = true →
  isLoading (app (step s e)) = true
  ∧ error (app (step s e)) = error (app s)
  ∧ pending (step s e) = pending s.
Proof.
  intros He Hbusy. destruct s as [st pend]. cbn [app] in Hbusy.
  destruct e as [garmentFile garmentInfo | | newIndex | |]; cbn [step app pending];
    [| | | | done].
  - by rewrite handleGarmentSelect_busy.
  - by destruct (handleRemoveLastGarment_cases st) as [-> | [-> | (_ & ->)]].
  - by rewrite handlePoseSelect_busy.
  - by rewrite handleEnhanceImage_busy.
Qed.

Lemma handler_calls_while_loading (s : Session) (events : list Event) :
  Forall isHandlerCall events → isLoading (app s) = true →
  isLoading (app (run s events)) = true
  ∧ error (app (run s events)) = error (app s)
  ∧ pending (run s events) = pending s.
Proof.
  intros Hev. revert s. induction Hev as [|e events He _ IH]; intros s Hbusy;
    [done |].
  destruct (handler_call_while_loading s e He Hbusy) as (Hb1 & He1 & Hp1).
  destruct (IH _ Hb1) as (Hb2 & He2 & Hp2). rewrite run_cons.
  split; [done |]. split; congruence.
Qed.

(** A handler call never writes the history. *)
Lemma handler_call_history (s : Session) (e : Event) :
  isHandlerCall e →
  outfitHistory (app (step s e)) = outfitHistory (app s).
Proof.
  intros He. destruct s as [st pend].
  destruct e as [garmentFile garmentInfo | | newIndex | |];
    cbn [step app pending]; [| | | | done].
  - by destruct (handleGarmentSelect_cases garmentFile garmentInfo st)
      as [-> | [(_ & _ & ->) | (_ & _ & ? & _ & _ & ->)]].
  - by destruct (handleRemoveLastGarment_cases st) as [-> | [-> | (_ & ->)]].
  - by destruct (handlePoseSelect_cases newIndex st)
      as [-> | [-> | [(_ & ->) | (_ & ? & ? & _ & _ & _ & _ & ->)]]].
  - by destruct (handleEnhanceImage_cases st)
      as [-> | [-> | (_ & ? & ? & _ & _ & _ & _ & ->)]].
Qed.

Lemma handler_calls_history (s : Session) (events : list Event) :
  Forall isHandlerCall events →
  outfitHistory (app (run s events)) = outfitHistory (app s).
Proof.
  intros Hev. revert s. induction Hev as [|e events He _ IH]; intros s; [done |].
  by rewrite run_cons, IH, handler_call_history.
Qed.

End HandlerFacts.

(** ** The session invariant *)

Section InvariantFacts.
Import Utils App Invariants.

Lemma fresh_invariant (url : string) : invariant (freshSession url).
Proof.
  split; cbn.
  - lia.
  - by eexists.
  - intros [|j] L k p e; [| done]. intros [= <-]. cbn.
    case_match; [| done]. by intros [= <-].
  - by left.
Qed.

Lemma fresh_try_on_invariant (baseModelUrl finalTryOnUrl : string)
    (garmentInfo : WardrobeItem) :
  invariant (freshTryOnSession baseModelUrl finalTryOnUrl garmentInfo).
Proof.
  split; cbn.
  - lia.
  - by eexists.
  - intros [|[|j]] L k p e; [| | done]; intros [= <-]; cbn;
      (case_match; [| done]); by intros [= <-].
  - by left.
Qed.

Lemma resume_invariant st call k r :
  invariant {| app := st; pending := [(call, k)] |} →
  invariant {| app := resume k r st; pending := [] |}.
Proof.
  intros [Hc (L0 & Hb & Hg) He Hp]; cbn [app pending] in *.
  destruct Hp as [[? _] | (call' & k' & [= <- <-] & Hl & Hk)]; [done |].
  destruct k as [garmentInfo c p | poseInstruction c prev | poseInstruction c],
    r as [url | err]; cbn [resume pendingOk] in *.
  - (* a new garment layer is committed *)
    destruct Hk as [Hle Hlt].
    split; cbn; [| | | by left].
    + rewrite length_app, length_take. cbn. lia.
    + exists L0. split; [| done].
      rewrite lookup_app_l by (rewrite length_take; lia).
      rewrite lookup_take_lt by lia. done.
    + intros j L k p' e HL Hget Henh.
      destruct (decide (j < c + 1)%nat) as [Hj|Hj].
      * rewrite lookup_app_l in HL by (rewrite length_take; lia).
        rewrite lookup_take_lt in HL by lia. by eapply He.
      * rewrite lookup_app_r in HL by (rewrite length_take; lia).
        apply list_lookup_singleton_Some in HL as [_ <-]. cbn in Hget.
        case_match; [| done]. by simplify_eq.
  - split; cbn; [done | by exists L0 | done | by left].
  - (* the pose image is patched into the captured layer *)
    split; cbn; [by rewrite length_alter | | | by left].
    + rewrite list_lookup_alter. case_decide; [| by exists L0].
      subst c. rewrite Hb. cbn. by eexists.
    + intros j L k p e HL Hget Henh.
      rewrite list_lookup_alter in HL. case_decide; [| by eapply He].
      subst j. destruct (outfitHistory st !! c) as [Lc|] eqn:HLc; [| done].
      cbn in HL. injection HL as <-. cbn in Hget.
      rewrite objGet_objSet in Hget. case_decide; [by simplify_eq |].
      by eapply He.
  - split; cbn; [done | by exists L0 | done | by left].
  - (* the enhanced image is patched into the captured layer *)
    split; cbn; [by rewrite length_alter | | | by left].
    + rewrite list_lookup_alter. case_decide; [| by exists L0].
      subst c. rewrite Hb. cbn. by eexists.
    + intros j L k p e HL Hget Henh.
      rewrite list_lookup_alter in HL. case_decide; [| by eapply He].
      subst j. destruct (outfitHistory st !! c) as [Lc|] eqn:HLc; [| done].
      cbn in HL. injection HL as <-. cbn in Hget.
      destruct (objGet (keyOf poseInstruction) (poseImages Lc)) as [p0|] eqn:Hp0;
        [| by eapply He].
      rewrite objGet_objSet in Hget. case_decide; [| by eapply He].
      simplify_eq. cbn. by destruct (Hk Lc p0).
  - split; cbn; [done | by exists L0 | done | by left].
Qed.

Lemma idle_pending st pend :
  invariant {| app := st; pending := pend |} → isLoading st = false → pend = [].
Proof.
  intros [_ _ _ Hp] Hl; cbn [app pending] in *.
  destruct Hp as [[-> _] | (? & ? & _ & ? & _)]; [done | congruence].
Qed.

Lemma step_invariant (s : Session) (e : Event) :
  invariant s → invariant (step s e).
Proof.
  destruct s as [st pend]. intros Hinv.
  destruct e as [garmentFile garmentInfo | | newIndex | | r]; cbn [step app pending].
  - destruct (handleGarmentSelect_cases garmentFile garmentInfo st)
      as [-> | [(Hl & Hnext & ->) | (Hl & Hnext & url & Hd & Hu & ->)]];
      cbn [dispatch app pending]; [done | |];
      pose proof (idle_pending _ _ Hinv Hl) as ->;
      destruct Hinv as [Hc Hb He Hp]; cbn [app pending] in *.
    + split; cbn; [| done | done | by left].
      unfold isNextLayerOf in Hnext.
      destruct (outfitHistory st !! (currentOutfitIndex st + 1)) as [L|] eqn:HL;
        [| done].
      apply lookup_lt_Some in HL. lia.
    + split; cbn; [done | done | done | right].
      eexists _, _. split; [done |]. split; [done |]. cbn. lia.
  - destruct (handleRemoveLastGarment_cases st) as [-> | [-> | (Hpos & ->)]];
      cbn [dispatch app pending]; [done | done |].
    destruct Hinv as [Hc Hb He Hp]; cbn [app pending] in *.
    split; cbn; [lia | done | done |].
    destruct Hp as [? | (call & k & -> & Hl & Hk)]; [by left | right].
    exists call, k. split; [done |]. split; [done |].
    destruct k; cbn in *; [lia | done | done].
  - destruct (handlePoseSelect_cases newIndex st)
      as [-> | [-> | [(Hl & ->) | (Hl & L & url & HL & Hcached & Hd & Hu & ->)]]];
      cbn [dispatch app pending]; [done | done | |];
      pose proof (idle_pending _ _ Hinv Hl) as ->;
      destruct Hinv as [Hc Hb He Hp]; cbn [app pending] in *.
    + split; cbn; [done | done | done | by left].
    + split; cbn; [done | done | done | right].
      eexists _, _. split; [done |]. split; [done |]. cbn.
      intros L' p HL' Hget. rewrite HL in HL'. injection HL' as <-.
      rewrite Hget in Hcached. cbn in Hcached.
      destruct (enhanced p) as [e|] eqn:Henh; [| done].
      rewrite (He _ _ _ _ _ HL Hget Henh) in Hcached. done.
  - destruct (handleEnhanceImage_cases st)
      as [-> | [-> | (Hl & L & url & HL & Henh & Hd & Hu & ->)]];
      cbn [dispatch app pending]; [done | done |].
    pose proof (idle_pending _ _ Hinv Hl) as ->.
    destruct Hinv as [Hc Hb He Hp]; cbn [app pending] in *.
    split; cbn; [done | done | done | right].
    eexists _, _. split; [done |]. split; [done |]. cbn.
    intros L' p HL' Hget. rewrite HL in HL'. injection HL' as <-.
    unfold displayImageUrl in Hd.
    rewrite (length_pos_eqb _ _ _ HL), HL in Hd. cbn zeta in Hd.
    rewrite Hget in Hd, Henh. cbn in Hd, Henh.
    destruct (enhanced p) as [e|]; cbn in Hd; simplify_eq;
      [cbn in Henh; congruence | done].
  - destruct pend as [|[call k] rest]; [done |].
    assert (rest = []) as ->.
    { destruct Hinv as [_ _ _ Hp]; cbn in Hp.
      destruct Hp as [[? _] | (? & ? & ? & _)]; by simplify_eq. }
    by eapply resume_invariant.
Qed.

Lemma run_invariant (s : Session) (events : list Event) :
  invariant s → invariant (run s events).
Proof.
  revert s. induction events as [|e events IH]; intros s Hinv; [done |].
  apply IH. by apply step_invariant.
Qed.

End InvariantFacts.

(** ** Scenarios *)

Section ScenarioFacts.
Import Utils App Scenario.

Example twoGarments_state :
  (garment <$> outfitHistory (app twoGarments)) = [None; Some shirt; Some jacket]
  ∧ currentOutfitIndex (app twoGarments) = 2%nat
  ∧ isLoading (app twoGarments) = false ∧ pending twoGarments = [].
Proof. by vm_compute. Qed.

Example steppedBack_state :
  (garment <$> outfitHistory (app steppedBack)) = [None; Some shirt; Some jacket]
  ∧ currentOutfitIndex (app steppedBack) = 1%nat
  ∧ displayImageUrl (app steppedBack) = Some "shirt_on_model.png".
Proof. by vm_compute. Qed.

(** The end-to-end scenario of the specification. *)
Example end_to_end :
  let s1 := run (freshSession "model.png")
              [ GarmentSelect "shirt.png" shirt;
                Settle (Fulfilled "shirt_on_model.png") ] in
  let s2 := run s1 [ PoseSelect 1; Settle (Fulfilled "shirt_on_model_pose1.png") ] in
  let s3 := step s2 RemoveLastGarment in
  length (outfitHistory (app s1)) = 2%nat
  ∧ currentOutfitIndex (app s1) = 1%nat
  ∧ displayImageUrl (app s1) = Some "shirt_on_model.png"
  ∧ displayImageUrl (app s2) = Some "shirt_on_model_pose1.png"
  ∧ currentOutfitIndex (app s3) = 0%nat
  ∧ displayImageUrl (app s3) = Some "model.png".
Proof. by vm_compute. Qed.

End ScenarioFacts.

(** ** The outfit timeline *)

Section Timeline.
Import Utils App Spec Invariants Scenario.

(** C6: on a non-empty history with current layer [L], the display image
    is the enhanced image of the requested pose if there is one, else its
    standard image, else the standard image of another pose present on
    [L], else the base model image; a layer with a single pose's image
    shows that image for every other pose. [displayImageUrl] is a total
    function: there is nothing to throw. *)
Theorem displayImageUrl_fallback (st : AppState) (L : OutfitLayer) :
  outfitHistory st !! currentOutfitIndex st = Some L →
  let key := keyOf (poseInstructionAt (currentPoseIndex st)) in
  resolvesTo L key (modelImageUrl st) (displayImageUrl st)
  ∧ (∀ k p, poseImages L = [(k, p)] → k ≠ key →
            displayImageUrl st = Some (standard p)).
Proof.
  intros HL key. unfold displayImageUrl.
  rewrite (length_pos_eqb _ _ _ HL), HL. cbn zeta. fold key.
  split.
  - destruct (objGet key (poseImages L)) as [p|] eqn:Hget; cbn.
    + destruct (enhanced p) as [e|] eqn:He; cbn.
      * by eapply resolves_enhanced.
      * by eapply resolves_standard.
    + destruct (poseImages L) as [|[k0 p0] rest] eqn:Himgs; cbn.
      * by apply resolves_base.
      * rewrite String.eqb_refl. cbn.
        apply (resolves_other_pose _ _ _ k0 p0); rewrite ?Himgs; [done | |].
        -- intros ->. cbn in Hget. by rewrite String.eqb_refl in Hget.
        -- cbn. by rewrite String.eqb_refl.
  - intros k p -> Hk. cbn.
    destruct (String.eqb_spec k key); [done |]. cbn.
    by rewrite String.eqb_refl.
Qed.

Lemma displayImageUrl_fallback_witness :
  displayImageUrl (app sideOnly) = Some "shirt_side.png".
Proof.
  refine (proj2 (displayImageUrl_fallback (app sideOnly) shirtSideLayer _)
            "Side profile view"
            {| standard := "shirt_side.png"; enhanced := None |} _ _).
  - vm_compute. reflexivity.
  - vm_compute. reflexivity.
  - vm_compute. discriminate.
Defined.

(** As long as every handler is called as the closure of the latest
    render and the timeline starts with nothing outstanding (the sessions
    of [step]), the cursor is a valid index into the history after every
    event, and the first layer is the base model layer. *)
Lemma cursor_in_range_without_overlap (url : string) (events : list Event) :
  let st := app (run (freshSession url) events) in
  (0 ≤ currentOutfitIndex st < length (outfitHistory st))%nat
  ∧ ∃ L, outfitHistory st !! 0 = Some L ∧ garment L = None.
Proof.
  intros st.
  destruct (run_invariant _ events (fresh_invariant url)) as [Hc Hb _ _].
  split; [| done]. fold st in Hc. lia.
Qed.

(** The same holds for a session started with a first garment. *)
Lemma try_on_session_cursor_in_range (baseModelUrl finalTryOnUrl : string)
    (garmentInfo : WardrobeItem) (events : list Event) :
  let st :=
    app (run (freshTryOnSession baseModelUrl finalTryOnUrl garmentInfo) events) in
  (currentOutfitIndex st < length (outfitHistory st))%nat
  ∧ ∃ L, outfitHistory st !! 0 = Some L ∧ garment L = None.
Proof.
  intros st.
  by destruct (run_invariant _ events
                 (fresh_try_on_invariant baseModelUrl finalTryOnUrl garmentInfo))
    as [Hc Hb _ _].
Qed.

(** C3: with history [[base; A; B]] and the cursor on [A], a garment [C]
    other than that of [B] whose compose call succeeds with image [i]
    leaves the history [[base; A; layer C i]] and the cursor at 2. *)
Theorem garment_select_truncates (base A B : OutfitLayer) (C : WardrobeItem)
    (garmentFile : File) (st st1 : AppState) (call : RemoteCall)
    (k : Continuation) (i : string) :
  outfitHistory st = [base; A; B] →
  currentOutfitIndex st = 1%nat →
  id <$> garment B ≠ Some (id C) →
  handleGarmentSelect garmentFile C st = Awaiting st1 call k →
  let st2 := resume k (Fulfilled i) st1 in
  outfitHistory st2 =
    [ base; A;
      {| garment := Some C;
         poseImages :=
           [(keyOf (poseInstructionAt (currentPoseIndex st)),
             {| standard := i; enhanced := None |})] |} ]
  ∧ currentOutfitIndex st2 = 2%nat
  ∧ isLoading st2 = false.
Proof.
  intros Hh Hc _ Hcall.
  destruct (handleGarmentSelect_cases garmentFile C st)
    as [Hr | [(_ & _ & Hr) | (_ & _ & url & _ & _ & Hr)]];
    rewrite Hr in Hcall; [done | done |].
  injection Hcall as <- <- <-. cbn. by rewrite Hh, Hc.
Qed.

(** The compose call is issued whenever nothing is loading, there is a
    display image and the selection is not a redo. *)
Lemma garment_select_issues_call (garmentFile : File) (garmentInfo : WardrobeItem)
    (st : AppState) (url : string) :
  isLoading st = false →
  displayImageUrl st = Some url → truthy url = true →
  isNextLayerOf (outfitHistory st !! (currentOutfitIndex st + 1)%nat) garmentInfo
    = false →
  ∃ st1,
    handleGarmentSelect garmentFile garmentInfo st =
      Awaiting st1 (generateVirtualTryOnImage url garmentFile)
        (AfterTryOn garmentInfo (currentOutfitIndex st) (currentPoseIndex st))
    ∧ isLoading st1 = true ∧ error st1 = None
    ∧ outfitHistory st1 = outfitHistory st.
Proof.
  intros Hidle Hd Hu Hnext. unfold handleGarmentSelect.
  rewrite Hd, Hu, Hidle, Hnext. cbn. by eexists.
Qed.

Lemma garment_select_truncates_witness :
  currentOutfitIndex
    (resume (AfterTryOn scarf 1 0) (Fulfilled "scarf_on_shirt.png")
       (setLoadingMessage "Adding Scarf..."
          (setIsLoading true (setError None (app steppedBack))))) = 2%nat.
Proof.
  refine (proj1 (proj2
            (garment_select_truncates (baseLayerOf "model.png") shirtLayer
               jacketLayer scarf "scarf.png" (app steppedBack)
               (setLoadingMessage "Adding Scarf..."
                  (setIsLoading true (setError None (app steppedBack))))
               (generateVirtualTryOnImage "shirt_on_model.png" "scarf.png")
               (AfterTryOn scarf 1 0) "scarf_on_shirt.png" _ _ _ _))).
  - vm_compute. reflexivity.
  - vm_compute. reflexivity.
  - vm_compute. discriminate.
  - vm_compute. reflexivity.
Defined.

End Timeline.

(** ** The try-on orchestrator *)

Section Orchestrator.
Import Utils App Spec Invariants Scenario.

(** C1, where the code departs from it: [handleRemoveLastGarment] does not
    look at [isLoading]. With a pose change outstanding on two garments it
    still steps the cursor back and resets the pose cursor. *)
Theorem handleRemoveLastGarment_while_loading :
  let st := app twoGarmentsLoading in
  isLoading st = true
  ∧ currentOutfitIndex st = 2%nat ∧ currentPoseIndex st = 1%Z
  ∧ ∃ st', handleRemoveLastGarment st = Returned st'
           ∧ currentOutfitIndex st' = 1%nat ∧ currentPoseIndex st' = 0%Z
           ∧ isLoading st' = true.
Proof.
  vm_compute. do 3 (split; [reflexivity |]). eexists. split; [reflexivity |].
  by repeat split.
Qed.

(** In general: whatever [isLoading] is, a cursor above the base layer is
    stepped back and the pose cursor reset. *)
Lemma handleRemoveLastGarment_ignores_loading (st : AppState) (L : OutfitLayer) :
  (0 < currentOutfitIndex st)%nat →
  outfitHistory st !! currentOutfitIndex st = Some L →
  handleRemoveLastGarment st =
    Returned (setCurrentPoseIndex 0
                (setCurrentOutfitIndex (currentOutfitIndex st - 1) st)).
Proof.
  intros Hpos HL. unfold handleRemoveLastGarment. rewrite HL.
  by apply Nat.ltb_lt in Hpos as ->.
Qed.

(** The other three entry points do nothing while loading. *)
Lemma guarded_handlers_while_loading (st : AppState) :
  isLoading st = true →
  (∀ garmentFile garmentInfo,
     handleGarmentSelect garmentFile garmentInfo st = Returned st)
  ∧ (∀ newIndex, handlePoseSelect newIndex st = Returned st)
  ∧ handleEnhanceImage st = Returned st.
Proof.
  intros Hbusy. split; [| split].
  - intros. by apply handleGarmentSelect_busy.
  - intros. by apply handlePoseSelect_busy.
  - by apply handleEnhanceImage_busy.
Qed.

(** A garment removed while another is being composed: the new layer is
    committed above the captured cursor, and the cursor ends below it. *)
Example remove_during_compose :
  let s := run steppedBack
             [ GarmentSelect "scarf.png" scarf; RemoveLastGarment;
               Settle (Fulfilled "scarf_on_shirt.png") ] in
  (garment <$> outfitHistory (app s)) = [None; Some shirt; Some scarf]
  ∧ currentOutfitIndex (app s) = 1%nat.
Proof. by vm_compute. Qed.

(** C4 as stated fails while loading, and when there is no image to
    display: in both sessions the layer after the cursor carries the
    selected garment, and selecting it changes nothing. *)
Lemma redo_while_loading_counterexample :
  let st := app steppedBackLoading in
  let st' := app emptyPose in
  ((∃ nextLayer,
      outfitHistory st !! (currentOutfitIndex st + 1)%nat = Some nextLayer
      ∧ id <$> garment nextLayer = Some (id jacket))
   ∧ isLoading st = true
   ∧ handleGarmentSelect "jacket.png" jacket st = Returned st
   ∧ ¬ (∃ st1, handleGarmentSelect "jacket.png" jacket st = Returned st1
               ∧ currentOutfitIndex st1 = (currentOutfitIndex st + 1)%nat))
  ∧ ((∃ nextLayer,
        outfitHistory st' !! (currentOutfitIndex st' + 1)%nat = Some nextLayer
        ∧ id <$> garment nextLayer = Some (id shirt))
     ∧ isLoading st' = false ∧ displayImageUrl st' = Some ""
     ∧ handleGarmentSelect "shirt.png" shirt st' = Returned st'
     ∧ ¬ (∃ st1, handleGarmentSelect "shirt.png" shirt st' = Returned st1
                 ∧ currentOutfitIndex st1 = (currentOutfitIndex st' + 1)%nat)).
Proof.
  vm_compute. split.
  - split; [by eexists |]. do 2 (split; [done |]).
    intros (st1 & [= <-] & Hc). discriminate Hc.
  - split; [by eexists |]. do 3 (split; [done |]).
    intros (st1 & [= <-] & Hc). discriminate Hc.
Qed.

(** C4, amended: when not loading and with a display image, if the layer
    right after the cursor exists and carries the selected garment's id,
    [handleGarmentSelect] returns without a remote call, with the cursor
    advanced by one, the pose cursor at 0 and the history untouched. *)
Theorem redo_advances_cursor (garmentFile : File) (garmentInfo : WardrobeItem)
    (st : AppState) (nextLayer : OutfitLayer) :
  isLoading st = false →
  truthyOpt (displayImageUrl st) = true →
  outfitHistory st !! (currentOutfitIndex st + 1)%nat = Some nextLayer →
  id <$> garment nextLayer = Some (id garmentInfo) →
  ∃ st', handleGarmentSelect garmentFile garmentInfo st = Returned st'
         ∧ currentOutfitIndex st' = (currentOutfitIndex st + 1)%nat
         ∧ currentPoseIndex st' = 0%Z
         ∧ outfitHistory st' = outfitHistory st
         ∧ isLoading st' = false.
Proof.
  intros Hidle Hd Hnext Hid. unfold handleGarmentSelect.
  destruct (displayImageUrl st) as [url|]; [| done]. cbn in Hd.
  rewrite Hd, Hidle, Hnext. cbn.
  destruct (garment nextLayer) as [g|]; [| done]. injection Hid as ->.
  rewrite String.eqb_refl. eexists. split; [done |]. by repeat split.
Qed.

Lemma redo_advances_cursor_witness :
  ∃ st', handleGarmentSelect "jacket.png" jacket (app steppedBack) = Returned st'
         ∧ currentOutfitIndex st' = (currentOutfitIndex (app steppedBack) + 1)%nat
         ∧ currentPoseIndex st' = 0%Z
         ∧ outfitHistory st' = outfitHistory (app steppedBack)
         ∧ isLoading st' = false.
Proof.
  apply (redo_advances_cursor "jacket.png" jacket (app steppedBack) jacketLayer).
  - vm_compute. reflexivity.
  - vm_compute. reflexivity.
  - vm_compute. reflexivity.
  - vm_compute. reflexivity.
Defined.

(** C2 as stated fails when there is no image to regenerate from: the
    shirt layer holds the empty string as its only image, the timeline is
    non-empty, nothing is loading, pose 2 has no image, and
    [handlePoseSelect 2] returns with the pose cursor still at 0. *)
Lemma pose_select_without_image_counterexample :
  let st := app emptyImage in
  outfitHistory st ≠ [] ∧ isLoading st = false
  ∧ currentPoseIndex st = 0%Z
  ∧ (∃ L, outfitHistory st !! currentOutfitIndex st = Some L
          ∧ objGet (keyOf (poseInstructionAt 2)) (poseImages L) = None)
  ∧ displayImageUrl st = Some ""
  ∧ handlePoseSelect 2 st = Returned st
  ∧ ¬ (∃ st1 call k, handlePoseSelect 2 st = Awaiting st1 call k
                     ∧ currentPoseIndex st1 = 2%Z).
Proof.
  vm_compute. split; [done |]. do 2 (split; [done |]).
  split; [by eexists |]. do 2 (split; [done |]).
  by intros (st1 & call & k & Habs & _).
Qed.

(** C2, amended: on a non-empty timeline, not loading, with a non-empty
    display image and no usable standard image for pose [p] on the current
    layer ([p] not the current pose), [handlePoseSelect p] issues the
    regeneration call with the pose cursor already at [p]; if the call
    fails, the pose cursor is back at its value before the call, an error
    is stored, and the history is as before. *)
Theorem pose_select_optimistic_rollback (p : Z) (st : AppState)
    (L : OutfitLayer) (url : string) :
  outfitHistory st ≠ [] →
  isLoading st = false →
  p ≠ currentPoseIndex st →
  outfitHistory st !! currentOutfitIndex st = Some L →
  truthyOpt (standard <$> objGet (keyOf (poseInstructionAt p)) (poseImages L))
    = false →
  displayImageUrl st = Some url → truthy url = true →
  ∃ st1 k,
    handlePoseSelect p st =
      Awaiting st1 (generatePoseVariation url (poseInstructionAt p)) k
    ∧ currentPoseIndex st1 = p ∧ isLoading st1 = true
    ∧ outfitHistory st1 = outfitHistory st
    ∧ ∀ err,
        let st2 := resume k (Rejected err) st1 in
        currentPoseIndex st2 = currentPoseIndex st
        ∧ error st2 ≠ None
        ∧ outfitHistory st2 = outfitHistory st
        ∧ currentOutfitIndex st2 = currentOutfitIndex st
        ∧ isLoading st2 = false.
Proof.
  intros Hne Hidle Hp HL Hcached Hd Hu. unfold handlePoseSelect.
  rewrite Hidle, HL, Hcached, Hd, Hu.
  destruct (outfitHistory st) as [|L0 rest] eqn:Hh; [done |].
  assert ((p =? currentPoseIndex st)%Z = false) as -> by by apply Z.eqb_neq.
  cbn. eexists _, _. split; [done |]. by repeat split.
Qed.

Lemma pose_select_optimistic_rollback_witness :
  ∃ st1 k,
    handlePoseSelect 2 (app steppedBack) =
      Awaiting st1
        (generatePoseVariation "shirt_on_model.png" (poseInstructionAt 2)) k
    ∧ currentPoseIndex st1 = 2%Z ∧ isLoading st1 = true
    ∧ outfitHistory st1 = outfitHistory (app steppedBack)
    ∧ ∀ err,
        let st2 := resume k (Rejected err) st1 in
        currentPoseIndex st2 = currentPoseIndex (app steppedBack)
        ∧ error st2 ≠ None
        ∧ outfitHistory st2 = outfitHistory (app steppedBack)
        ∧ currentOutfitIndex st2 = currentOutfitIndex (app steppedBack)
        ∧ isLoading st2 = false.
Proof.
  apply (pose_select_optimistic_rollback 2 (app steppedBack) shirtLayer
           "shirt_on_model.png").
  - vm_compute. discriminate.
  - vm_compute. reflexivity.
  - vm_compute. discriminate.
  - vm_compute. reflexivity.
  - vm_compute. reflexivity.
  - vm_compute. reflexivity.
  - vm_compute. reflexivity.
Defined.

(** The rollback also holds when handlers are called while the pose call
    is outstanding: they leave the history alone, and the pose cursor goes
    back to the value captured before the call. *)
Lemma pose_rollback_after_handler_calls (s : Session) (p : Z)
    (call : RemoteCall) (k : Continuation) (during : list Event) (err : string) :
  pending s = [] →
  pending (step s (PoseSelect p)) = [(call, k)] →
  Forall isHandlerCall during →
  let s1 := step s (PoseSelect p) in
  let s2 := step (run s1 during) (Settle (Rejected err)) in
  currentPoseIndex (app s1) = p
  ∧ currentPoseIndex (app s2) = currentPoseIndex (app s)
  ∧ error (app s2) ≠ None
  ∧ outfitHistory (app s2) = outfitHistory (app s)
  ∧ isLoading (app s2) = false.
Proof.
  intros Hidle Hcall Hduring s1 s2.
  assert (k = AfterPose (poseInstructionAt p) (currentOutfitIndex (app s))
                (currentPoseIndex (app s))
          ∧ currentPoseIndex (app s1) = p ∧ isLoading (app s1) = true
          ∧ outfitHistory (app s1) = outfitHistory (app s))
    as (-> & Hp & Hbusy & Hh).
  { subst s1 s2. destruct s as [st pend]. cbn [pending] in Hidle. subst pend.
    cbn [step app pending] in *.
    destruct (handlePoseSelect_cases p st)
      as [Hr | [Hr | [(_ & Hr) | (_ & ? & ? & _ & _ & _ & _ & Hr)]]];
      rewrite Hr in *; cbn in Hcall; [done.. |].
    by injection Hcall as <- <-. }
  split; [done |].
  destruct (handler_calls_while_loading s1 during Hduring Hbusy)
    as (_ & _ & Hpend).
  pose proof (handler_calls_history s1 during Hduring) as Hh'.
  subst s2. fold s1 in Hcall. rewrite Hcall in Hpend.
  rewrite (step_settle _ _ _ _ _ Hpend).
  cbn [app pending resume finallyIdle setLoadingMessage setIsLoading
       setCurrentPoseIndex setError currentPoseIndex error outfitHistory
       isLoading].
  split; [done |]. split; [done |]. split; [congruence | done].
Qed.

(** C10 as stated fails while loading, and when the fallback image is the
    empty string: in both sessions the current layer has no entry for the
    current pose, and [handleEnhanceImage] returns without a remote call. *)
Lemma enhance_while_loading_counterexample :
  let st := app sideOnlyLoading in
  let st' := app emptySide in
  ((∃ L, outfitHistory st !! currentOutfitIndex st = Some L
         ∧ objGet (keyOf (poseInstructionAt (currentPoseIndex st))) (poseImages L)
           = None)
   ∧ isLoading st = true
   ∧ displayImageUrl st = Some "shirt_side.png"
   ∧ handleEnhanceImage st = Returned st
   ∧ ¬ (∃ st1 call k, handleEnhanceImage st = Awaiting st1 call k))
  ∧ ((∃ L, outfitHistory st' !! currentOutfitIndex st' = Some L
           ∧ objGet (keyOf (poseInstructionAt (currentPoseIndex st')))
               (poseImages L) = None)
     ∧ isLoading st' = false
     ∧ displayImageUrl st' = Some ""
     ∧ handleEnhanceImage st' = Returned st'
     ∧ ¬ (∃ st1 call k, handleEnhanceImage st' = Awaiting st1 call k)).
Proof.
  vm_compute. split.
  - split; [by eexists |]. do 3 (split; [done |]).
    by intros (st1 & call & k & Habs).
  - split; [by eexists |]. do 3 (split; [done |]).
    by intros (st1 & call & k & Habs).
Qed.

(** C10, amended: when not loading, with a non-empty display image and a
    current layer that has no entry at all for the current pose,
    [handleEnhanceImage] issues the enhance call on the display image, and
    when the call succeeds the history, the cursor and the pose cursor are
    as they were: the enhanced image is dropped. *)
Theorem enhance_without_entry_discarded (st : AppState) (L : OutfitLayer)
    (url : string) :
  isLoading st = false →
  outfitHistory st !! currentOutfitIndex st = Some L →
  objGet (keyOf (poseInstructionAt (currentPoseIndex st))) (poseImages L) = None →
  displayImageUrl st = Some url → truthy url = true →
  ∃ st1 k,
    handleEnhanceImage st = Awaiting st1 (enhanceImageQuality url) k
    ∧ ∀ enhancedImageUrl,
        let st2 := resume k (Fulfilled enhancedImageUrl) st1 in
        outfitHistory st2 = outfitHistory st
        ∧ currentOutfitIndex st2 = currentOutfitIndex st
        ∧ currentPoseIndex st2 = currentPoseIndex st
        ∧ isEnhanced st2 = false.
Proof.
  intros Hidle HL Hget Hd Hu. unfold handleEnhanceImage.
  rewrite Hd, Hu, Hidle, HL, Hget. cbn [negb orb mbind option_bind truthyOpt].
  eexists _, _. split; [done |].
  intros enhancedImageUrl. set (st2 := resume _ _ _).
  assert (outfitHistory st2 = outfitHistory st) as Hh.
  { change (alter
              (withPoseEnhanced (poseInstructionAt (currentPoseIndex st))
                 enhancedImageUrl)
              (currentOutfitIndex st) (outfitHistory st) = outfitHistory st).
    apply alter_fixed. intros L' HL'. rewrite HL in HL'. injection HL' as <-.
    unfold withPoseEnhanced. rewrite Hget. by destruct L. }
  assert (currentOutfitIndex st2 = currentOutfitIndex st) as Hc by done.
  assert (currentPoseIndex st2 = currentPoseIndex st) as Hp by done.
  do 3 (split; [done |]).
  unfold isEnhanced. rewrite Hh, Hc, Hp, (length_pos_eqb _ _ _ HL), HL. cbn.
  by rewrite Hget.
Qed.

Lemma enhance_without_entry_discarded_witness :
  ∃ st1 k,
    handleEnhanceImage (app sideOnly) =
      Awaiting st1 (enhanceImageQuality "shirt_side.png") k
    ∧ ∀ enhancedImageUrl,
        let st2 := resume k (Fulfilled enhancedImageUrl) st1 in
        outfitHistory st2 = outfitHistory (app sideOnly)
        ∧ currentOutfitIndex st2 = currentOutfitIndex (app sideOnly)
        ∧ currentPoseIndex st2 = currentPoseIndex (app sideOnly)
        ∧ isEnhanced st2 = false.
Proof.
  apply (enhance_without_entry_discarded (app sideOnly) shirtSideLayer
           "shirt_side.png").
  - vm_compute. reflexivity.
  - vm_compute. reflexivity.
  - vm_compute. reflexivity.
  - vm_compute. reflexivity.
  - vm_compute. reflexivity.
Defined.

(** C9 as stated fails on the paths without a remote call: after a failed
    pose change the error is stored; re-selecting the shirt (a redo) and
    then removing it both complete, and the error is still there. *)
Lemma error_survives_redo_counterexample :
  let s1 := step failedPose (GarmentSelect "shirt.png" shirt) in
  let s2 := step s1 RemoveLastGarment in
  error (app failedPose) = Some rateLimitMessage
  ∧ currentOutfitIndex (app failedPose) = 0%nat
  ∧ currentOutfitIndex (app s1) = 1%nat ∧ pending s1 = []
  ∧ isLoading (app s1) = false
  ∧ error (app s1) = Some rateLimitMessage
  ∧ currentOutfitIndex (app s2) = 0%nat
  ∧ error (app s2) = Some rateLimitMessage
  ∧ error (app s1) ≠ None ∧ error (app s2) ≠ None.
Proof. by vm_compute. Qed.

(** The paths without a remote call leave the stored error as it is. *)
Lemma error_kept_without_remote_call (s : Session) (e : Event) :
  isHandlerCall e → pending (step s e) = pending s →
  error (app (step s e)) = error (app s).
Proof.
  intros He Hp. destruct s as [st pend].
  destruct e as [garmentFile garmentInfo | | newIndex | |];
    cbn [step app pending] in *; [| | | | done].
  - destruct (handleGarmentSelect_cases garmentFile garmentInfo st)
      as [-> | [(_ & _ & ->) | (_ & _ & url & _ & _ & Hr)]]; [done | done |].
    rewrite Hr in Hp. cbn in Hp.
    apply (f_equal length) in Hp. rewrite length_app in Hp. cbn in Hp. lia.
  - by destruct (handleRemoveLastGarment_cases st) as [-> | [-> | (_ & ->)]].
  - destruct (handlePoseSelect_cases newIndex st)
      as [-> | [-> | [(_ & ->) | (_ & L & url & _ & _ & _ & _ & Hr)]]];
      [done | done | done |].
    rewrite Hr in Hp. cbn in Hp.
    apply (f_equal length) in Hp. rewrite length_app in Hp. cbn in Hp. lia.
  - destruct (handleEnhanceImage_cases st)
      as [-> | [-> | (_ & L & url & _ & _ & _ & _ & Hr)]]; [done | done |].
    rewrite Hr in Hp. cbn in Hp.
    apply (f_equal length) in Hp. rewrite length_app in Hp. cbn in Hp. lia.
Qed.

Lemma issued_call_clears_error (s : Session) (e : Event)
    (call : RemoteCall) (k : Continuation) (during : list Event) (url : string) :
  pending s = [] →
  pending (step s e) = [(call, k)] →
  Forall isHandlerCall during →
  let s1 := step s e in
  let s2 := step (run s1 during) (Settle (Fulfilled url)) in
  error (app s1) = None ∧ isLoading (app s1) = true
  ∧ error (app s2) = None ∧ isLoading (app s2) = false ∧ pending s2 = [].
Proof.
  intros Hidle Hcall Hduring s1 s2.
  assert (error (app s1) = None ∧ isLoading (app s1) = true) as [Herr Hbusy].
  { subst s1 s2. destruct s as [st pend]. cbn [pending] in Hidle. subst pend.
    destruct e as [garmentFile garmentInfo | | newIndex | | r];
      cbn [step app pending] in *; [| | | | done].
    - by destruct (handleGarmentSelect_cases garmentFile garmentInfo st)
        as [Hr | [(_ & _ & Hr) | (_ & _ & ? & _ & _ & Hr)]];
        rewrite Hr in *.
    - by destruct (handleRemoveLastGarment_cases st) as [Hr | [Hr | (_ & Hr)]];
        rewrite Hr in *.
    - by destruct (handlePoseSelect_cases newIndex st)
        as [Hr | [Hr | [(_ & Hr) | (_ & ? & ? & _ & _ & _ & _ & Hr)]]];
        rewrite Hr in *.
    - by destruct (handleEnhanceImage_cases st)
        as [Hr | [Hr | (_ & ? & ? & _ & _ & _ & _ & Hr)]];
        rewrite Hr in *. }
  split; [done |]. split; [done |].
  destruct (handler_calls_while_loading s1 during Hduring Hbusy)
    as (_ & Herr' & Hpend').
  subst s2 s1. rewrite Hcall in Hpend'.
  rewrite (step_settle _ _ _ _ _ Hpend'). cbn [app pending].
  rewrite Herr in Herr'. by destruct k; cbn; rewrite ?Herr'.
Qed.

Lemma step_pending_idle (s : Session) (e : Event) :
  pending s = [] →
  pending (step s e) = [] ∨ ∃ call k, pending (step s e) = [(call, k)].
Proof.
  intros Hidle. destruct s as [st pend]. cbn [pending] in Hidle. subst pend.
  destruct e as [garmentFile garmentInfo | | newIndex | | r];
    cbn [step app pending].
  - destruct (handleGarmentSelect_cases garmentFile garmentInfo st)
      as [-> | [(_ & _ & ->) | (_ & _ & ? & _ & _ & ->)]]; cbn; eauto.
  - destruct (handleRemoveLastGarment_cases st) as [-> | [-> | (_ & ->)]];
      cbn; eauto.
  - destruct (handlePoseSelect_cases newIndex st)
      as [-> | [-> | [(_ & ->) | (_ & ? & ? & _ & _ & _ & _ & ->)]]]; cbn; eauto.
  - destruct (handleEnhanceImage_cases st)
      as [-> | [-> | (_ & ? & ? & _ & _ & _ & _ & ->)]]; cbn; eauto.
  - by left.
Qed.

(** C9, amended: from an idle session, an action that issues a remote call
    clears the stored error at once, and the error is still null when the
    call has succeeded, whatever handlers were called in between; an action
    that completes without a remote call (a redo, a removal, a cached pose
    selection) leaves the stored error as it was. *)
Theorem remote_success_clears_error (s : Session) (e : Event)
    (during : list Event) (url : string) :
  pending s = [] →
  isHandlerCall e →
  Forall isHandlerCall during →
  let s1 := step s e in
  match pending s1 with
  | [] => error (app s1) = error (app s)
  | _ :: _ =>
      let s2 := step (run s1 during) (Settle (Fulfilled url)) in
      error (app s1) = None ∧ isLoading (app s1) = true
      ∧ error (app s2) = None ∧ isLoading (app s2) = false ∧ pending s2 = []
  end.
Proof.
  intros Hidle He Hduring s1. subst s1.
  destruct (step_pending_idle s e Hidle) as [Hp | (call & k & Hp)]; rewrite Hp.
  - apply error_kept_without_remote_call; [done | congruence].
  - by apply (issued_call_clears_error s e call k).
Qed.

Lemma remote_success_clears_error_witness :
  (let s1 := step failedPose (PoseSelect 1) in
   match pending s1 with
   | [] => error (app s1) = error (app failedPose)
   | _ :: _ =>
       let s2 := step (run s1 [RemoveLastGarment; EnhanceImage])
                   (Settle (Fulfilled "model_pose1.png")) in
       error (app s1) = None ∧ isLoading (app s1) = true
       ∧ error (app s2) = None ∧ isLoading (app s2) = false ∧ pending s2 = []
   end)
  ∧ (let s1 := step failedPose (GarmentSelect "shirt.png" shirt) in
     match pending s1 with
     | [] => error (app s1) = error (app failedPose)
     | _ :: _ =>
         let s2 := step (run s1 []) (Settle (Fulfilled "unused.png")) in
         error (app s1) = None ∧ isLoading (app s1) = true
         ∧ error (app s2) = None ∧ isLoading (app s2) = false ∧ pending s2 = []
     end).
Proof.
  split.
  - apply (remote_success_clears_error failedPose (PoseSelect 1)
             [RemoveLastGarment; EnhanceImage] "model_pose1.png").
    + vm_compute. reflexivity.
    + exact I.
    + repeat constructor.
  - apply (remote_success_clears_error failedPose
             (GarmentSelect "shirt.png" shirt) [] "unused.png").
    + vm_compute. reflexivity.
    + exact I.
    + constructor.
Defined.

Example error_cleared_in_scenario :
  let s1 := step failedPose (PoseSelect 1) in
  let s2 := step (run s1 [RemoveLastGarment; EnhanceImage])
              (Settle (Fulfilled "model_pose1.png")) in
  error (app failedPose) ≠ None
  ∧ pending s1 ≠ [] ∧ error (app s1) = None ∧ error (app s2) = None
  ∧ isLoading (app s2) = false.
Proof. by vm_compute. Qed.

End Orchestrator.

(** ** Enhanced images are kept *)

Section Enhancement.
Import Utils App Spec Invariants Scenario.

Lemma enhanced_step (s : Session) (e : Event) (j : nat) (k v : string) :
  invariant s →
  enhancedAt (app s) j k = Some v →
  enhancedAt (app (step s e)) j k = Some v ∨ replacesLayer s e j.
Proof.
  intros Hinv Hv.
  destruct e as [| | | | r];
    [left; unfold enhancedAt in *; by rewrite handler_call_history.. |].
  destruct s as [st pend]. destruct pend as [|[call k0] rest]; [by left |].
  assert (rest = [] ∧ pendingOk st k0) as [-> Hk].
  { destruct Hinv as [_ _ _ Hp]; cbn in Hp.
    destruct Hp as [[? _] | (? & ? & ? & _ & ?)]; by simplify_eq. }
  rewrite (step_settle _ _ call k0 []) by done. cbn [app pending] in *.
  unfold enhancedAt in *.
  destruct k0 as [garmentInfo c p | poseInstruction c prev | poseInstruction c],
    r as [url | err]; cbn [resume pendingOk] in *; try by left.
  - destruct Hk as [_ Hlt].
    destruct (decide (c < j)%nat) as [Hj|Hj].
    + right. by exists url, call, garmentInfo, c, p, [].
    + left. cbn. rewrite lookup_app_l by (rewrite length_take; lia).
      by rewrite lookup_take_lt by lia.
  - left. cbn. rewrite list_lookup_alter. case_decide; [| done]. subst j.
    destruct (outfitHistory st !! c) as [Lc|] eqn:HLc; [| done]. cbn in *.
    rewrite objGet_objSet. case_decide; [| done]. subst k.
    destruct (objGet _ (poseImages Lc)) as [p|] eqn:Hget; [| done].
    cbn in Hv. rewrite (Hk Lc p) in Hv; done.
  - left. cbn. rewrite list_lookup_alter. case_decide; [| done]. subst j.
    destruct (outfitHistory st !! c) as [Lc|] eqn:HLc; [| done]. cbn in *.
    destruct (objGet (keyOf poseInstruction) (poseImages Lc)) as [p0|] eqn:Hp0;
      [| done].
    rewrite objGet_objSet. case_decide; [| done]. subst k.
    rewrite Hp0 in Hv. cbn in Hv. destruct (Hk Lc p0) as [Hnone _]; [done.. |].
    congruence.
Qed.

Lemma enhanced_run (s : Session) (events : list Event) (j : nat) (k v : string) :
  invariant s →
  enhancedAt (app s) j k = Some v →
  enhancedAt (app (run s events)) j k = Some v ∨ replacedDuring s events j.
Proof.
  revert s. induction events as [|e events IH]; intros s Hinv Hv; [by left |].
  rewrite run_cons.
  destruct (enhanced_step s e j k v Hinv Hv) as [Hv' | Hrep].
  - destruct (IH (step s e) (step_invariant _ _ Hinv) Hv')
      as [? | (before & e' & after & -> & Hrep)]; [by left | right].
    by exists (e :: before), e', after.
  - right. by exists [], e, events.
Qed.

(** As long as every handler is called as the closure of the latest
    render and the timeline starts with nothing outstanding (the sessions
    of [step]), an enhanced image stored for a pose of a layer is still
    stored, with the same locator, after any further garment selections,
    garment removals, pose selections, enhancements and settled calls,
    unless one of them committed a new garment layer below it, which
    discards or replaces that layer as a whole. *)
Lemma enhanced_kept_without_overlap (url : string) (before after : list Event)
    (j : nat) (k v : string) :
  let s := run (freshSession url) before in
  enhancedAt (app s) j k = Some v →
  enhancedAt (app (run s after)) j k = Some v ∨ replacedDuring s after j.
Proof.
  intros s Hv. apply enhanced_run; [| done].
  apply run_invariant, fresh_invariant.
Qed.

Example enhanced_kept_without_overlap_example :
  let s := run (freshSession "model.png")
             [ EnhanceImage; Settle (Fulfilled "model_hd.png") ] in
  enhancedAt (app (run s laterEvents)) 0 "Full frontal view, hands on hips"
    = Some "model_hd.png"
  ∨ replacedDuring s laterEvents 0.
Proof.
  apply (enhanced_kept_without_overlap "model.png"
           [ EnhanceImage; Settle (Fulfilled "model_hd.png") ] laterEvents 0
           "Full frontal view, hands on hips" "model_hd.png").
  vm_compute. reflexivity.
Qed.

Example enhanced_kept_in_scenario :
  enhancedAt (app (run enhancedBase laterEvents)) 0
    "Full frontal view, hands on hips" = Some "model_hd.png"
  ∧ isEnhanced (app (run enhancedBase (laterEvents ++ [PoseSelect 0]))) = true.
Proof. by vm_compute. Qed.

End Enhancement.

(** ** The wishlist and the wardrobe *)

Section Collections.
Import Utils App Session.

Lemma arrayIncludes_spec (x : string) (l : list string) :
  arrayIncludes x l = true ↔ x ∈ l.
Proof.
  unfold arrayIncludes. induction l as [|y l IH]; cbn.
  - split; [done | by intros ?%elem_of_nil].
  - rewrite orb_true_iff, IH, elem_of_cons.
    destruct (String.eqb_spec x y) as [->|Hne]; split.
    + by left.
    + by left.
    + intros [? | ?]; [done | by right].
    + intros [? | ?]; [done | by right].
Qed.

Lemma arrayIncludes_false (x : string) (l : list string) :
  arrayIncludes x l = false ↔ x ∉ l.
Proof.
  rewrite <- arrayIncludes_spec. by destruct (arrayIncludes x l).
Qed.

Lemma filter_other_all (x : string) (l : list string) :
  x ∉ l → filter (λ id, id ≠ x) l = l.
Proof.
  induction l as [|y l IH]; [done |].
  intros [Hne Hl]%not_elem_of_cons.
  rewrite filter_cons_True by done. by rewrite IH.
Qed.

(** X1: toggling a product flips whether it is in the wishlist, also when
    the stored list held it more than once, and changes that of no other
    product. *)
Theorem toggleWishlist_membership (productId other : string) (prev : list string) :
  isInWishlist productId (toggleWishlist productId prev)
    = negb (isInWishlist productId prev)
  ∧ (other ≠ productId →
     isInWishlist other (toggleWishlist productId prev) = isInWishlist other prev).
Proof.
  unfold isInWishlist, toggleWishlist.
  destruct (arrayIncludes productId prev) eqn:Hin; cbn [negb].
  - split.
    + apply arrayIncludes_false. rewrite list_elem_of_filter. by intros [? _].
    + intros Hne. apply eq_true_iff_eq.
      rewrite !arrayIncludes_spec, list_elem_of_filter.
      split; [by intros [_ ?] | done].
  - split.
    + apply arrayIncludes_spec, elem_of_app. right. by apply list_elem_of_singleton.
    + intros Hne. apply eq_true_iff_eq.
      rewrite !arrayIncludes_spec, elem_of_app, list_elem_of_singleton.
      split; [by intros [? | ?] | by left].
Qed.

(** X2: toggling twice gives back the list when the product was not in
    it; when it was, every occurrence is gone and one is added at the
    end. *)
Theorem toggleWishlist_twice (productId : string) (prev : list string) :
  toggleWishlist productId (toggleWishlist productId prev) =
    if isInWishlist productId prev
    then (filter (λ id, id ≠ productId) prev ++ [productId])%list
    else prev.
Proof.
  unfold isInWishlist. unfold toggleWishlist at 2.
  destruct (arrayIncludes productId prev) eqn:Hin; cbn [negb].
  - unfold toggleWishlist.
    assert (arrayIncludes productId (filter (λ id, id ≠ productId) prev) = false)
      as ->; [| done].
    apply arrayIncludes_false. rewrite list_elem_of_filter. by intros [? _].
  - unfold toggleWishlist.
    assert (arrayIncludes productId (prev ++ [productId]) = true) as ->.
    { apply arrayIncludes_spec, elem_of_app. right.
      by apply list_elem_of_singleton. }
    cbn [negb]. rewrite filter_app, filter_other_all
      by by apply arrayIncludes_false.
    rewrite filter_cons_False by (by intros ?). by rewrite filter_nil, app_nil_r.
Qed.

(** X3: a wishlist without duplicates stays without duplicates under any
    sequence of toggles. *)
Theorem toggleWishlist_NoDup (productIds prev : list string) :
  NoDup prev →
  NoDup (fold_left (λ wishlist productId, toggleWishlist productId wishlist)
           productIds prev).
Proof.
  revert prev. induction productIds as [|productId productIds IH];
    intros prev Hnd; [done |].
  cbn [fold_left]. apply IH. unfold toggleWishlist.
  destruct (arrayIncludes productId prev) eqn:Hin; cbn [negb].
  - by apply NoDup_filter.
  - apply NoDup_app. split; [done |]. split; [| apply NoDup_singleton].
    intros x Hx ->%list_elem_of_singleton.
    by apply arrayIncludes_false in Hin.
Qed.

Lemma toggleWishlist_NoDup_witness :
  NoDup (fold_left (λ wishlist productId, toggleWishlist productId wishlist)
           ["a"; "b"; "a"; "c"] ["b"]).
Proof.
  apply (toggleWishlist_NoDup ["a"; "b"; "a"; "c"] ["b"]).
  apply NoDup_singleton.
Defined.

Lemma addToWardrobe_cases (garmentInfo : WardrobeItem) (prev : list WardrobeItem) :
  (id garmentInfo ∈ (id <$> prev) ∧ addToWardrobe garmentInfo prev = prev)
  ∨ ((id garmentInfo ∉ (id <$> prev))
     ∧ addToWardrobe garmentInfo prev = (prev ++ [garmentInfo])%list).
Proof.
  unfold addToWardrobe.
  destruct (existsb _ prev) eqn:Hex.
  - left. split; [| done]. apply existsb_exists in Hex as (it & Hit & Heq).
    apply String.eqb_eq in Heq. apply list_elem_of_fmap. exists it.
    split; [done |]. by apply list_elem_of_In.
  - right. split; [| done]. intros (it & Heq & Hit)%list_elem_of_fmap.
    assert (existsb (λ item, (id item =? id garmentInfo)%string) prev = true)
      as Habs; [| congruence].
    apply existsb_exists. exists it. split; [by apply list_elem_of_In |].
    by apply String.eqb_eq.
Qed.

(** X4: adding a garment to the wardrobe keeps the items already there in
    place, leaves an item with the garment's id in it, does nothing the
    second time, and keeps the ids distinct if they were. *)
Theorem addToWardrobe_ids (garmentInfo : WardrobeItem) (prev : list WardrobeItem) :
  prev `prefix_of` addToWardrobe garmentInfo prev
  ∧ id garmentInfo ∈ (id <$> addToWardrobe garmentInfo prev)
  ∧ addToWardrobe garmentInfo (addToWardrobe garmentInfo prev)
    = addToWardrobe garmentInfo prev
  ∧ (NoDup (id <$> prev) → NoDup (id <$> addToWardrobe garmentInfo prev)).
Proof.
  destruct (addToWardrobe_cases garmentInfo prev) as [[Hin ->] | [Hout ->]].
  - split; [done |]. split; [done |]. split; [| done].
    by destruct (addToWardrobe_cases garmentInfo prev) as [[_ ->] | [? _]].
  - split; [by apply prefix_app_r |].
    assert (id garmentInfo ∈ (id <$> (prev ++ [garmentInfo])%list)) as Hin.
    { rewrite fmap_app, elem_of_app. right. by apply list_elem_of_singleton. }
    split; [done |]. split.
    + by destruct (addToWardrobe_cases garmentInfo (prev ++ [garmentInfo])%list)
        as [[_ ->] | [? _]].
    + intros Hnd. rewrite fmap_app. apply NoDup_app. split; [done |].
      split; [| apply NoDup_singleton].
      by intros x Hx ->%list_elem_of_singleton.
Qed.

Lemma sanitizeRow_kept (row : ProductRow) :
  (0 < length (image_urls (sanitizeRow row)))%nat ↔
  (∃ url urls, row_image_urls row = UrlArray (url :: urls))
  ∨ is_Some (row_image_url row).
Proof.
  unfold sanitizeRow.
  destruct (row_image_urls row) as [| |[|url urls]],
    (row_image_url row) as [u|]; cbn; split;
    try (intros _; eauto; lia); try lia;
    intros [(? & ? & [=]) | [? [=]]].
Qed.

(** X5: a product row is kept in the wardrobe exactly when it has a
    non-empty array of image locators or a single locator that is a
    string; every item kept has a first image, and the order of the rows
    is that of the table. *)
Theorem sanitizeWardrobe_kept (data : list ProductRow) :
  (∀ i, i ∈ sanitizeWardrobe data → is_Some (image_urls i !! 0%nat))
  ∧ (∀ row, row ∈ data →
       sanitizeRow row ∈ sanitizeWardrobe data ↔
         (∃ url urls, row_image_urls row = UrlArray (url :: urls))
         ∨ is_Some (row_image_url row))
  ∧ (item <$> sanitizeWardrobe data) `sublist_of` (row_item <$> data).
Proof.
  unfold sanitizeWardrobe. split; [| split].
  - intros i [Hlen _]%list_elem_of_filter.
    destruct (image_urls i); cbn in *; [lia | by eexists].
  - intros row Hrow. rewrite list_elem_of_filter, sanitizeRow_kept.
    split; [by intros [? _] |]. intros Hk. split; [done |].
    apply list_elem_of_fmap. by exists row.
  - induction data as [|row data IH]; [done |]. cbn [fmap list_fmap].
    destruct (decide (0 < length (image_urls (sanitizeRow row)))%nat).
    + rewrite filter_cons_True by done. cbn. by apply sublist_skip.
    + rewrite filter_cons_False by done. by apply sublist_cons.
Qed.

End Collections.

(** ** The pose-image object under [objSet] *)

Section SessionShape.
Import Utils App Invariants Layers Canvas.

Lemma objKeys_objSet (k : string) (v : PoseImage) (obj : PoseImages) :
  objKeys (objSet k v obj) =
    if decide (k ∈ objKeys obj) then objKeys obj else (objKeys obj ++ [k])%list.
Proof.
  unfold objKeys. induction obj as [|[k0 w] obj IH]; cbn [objSet].
  - rewrite decide_False by by intros ?%elem_of_nil. done.
  - destruct (String.eqb_spec k0 k) as [->|Hne]; cbn [map fst].
    + rewrite decide_True by by left. done.
    + rewrite IH. destruct (decide (k ∈ map fst obj)) as [Hin|Hout].
      * rewrite decide_True by by right. done.
      * rewrite decide_False; [done |].
        by intros [?|?]%elem_of_cons.
Qed.

Lemma objSet_NoDup (k : string) (v : PoseImage) (obj : PoseImages) :
  NoDup (objKeys obj) → NoDup (objKeys (objSet k v obj)).
Proof.
  intros Hnd. rewrite objKeys_objSet. case_decide; [done |].
  apply NoDup_app. split; [done |]. split; [| apply NoDup_singleton].
  by intros x Hx ->%list_elem_of_singleton.
Qed.

Lemma objSet_nonempty (k : string) (v : PoseImage) (obj : PoseImages) :
  objSet k v obj ≠ [].
Proof. destruct obj as [|[k0 w] obj]; cbn; [done |]. by case_match. Qed.

End SessionShape.

(** ** How the handlers compose *)

Section Composition.
Import Utils App Invariants Session Scenario.

(** X10: removing the last garment and selecting it again is a round
    trip without a remote call. With nothing loading, the cursor above the
    base layer and a garment on the current layer, the removal steps the
    cursor back; if there is then an image to display, selecting that
    garment puts the cursor back on the same layer of the same history,
    with the pose cursor at 0. *)
Theorem remove_then_reselect (garmentFile : File) (st : AppState)
    (L : OutfitLayer) (g : WardrobeItem) :
  isLoading st = false →
  (0 < currentOutfitIndex st)%nat →
  outfitHistory st !! currentOutfitIndex st = Some L →
  garment L = Some g →
  ∃ st1,
    handleRemoveLastGarment st = Returned st1
    ∧ currentOutfitIndex st1 = (currentOutfitIndex st - 1)%nat
    ∧ (truthyOpt (displayImageUrl st1) = true →
       ∃ st2,
         handleGarmentSelect garmentFile g st1 = Returned st2
         ∧ currentOutfitIndex st2 = currentOutfitIndex st
         ∧ outfitHistory st2 = outfitHistory st
         ∧ currentPoseIndex st2 = 0%Z
         ∧ isLoading st2 = false).
Proof.
  intros Hidle Hpos HL Hg. unfold handleRemoveLastGarment.
  rewrite HL. apply Nat.ltb_lt in Hpos as Hpos'. rewrite Hpos'.
  eexists. split; [done |]. split; [done |].
  intros Hd. unfold handleGarmentSelect.
  destruct (displayImageUrl _) as [url|]; [| done]. cbn in Hd.
  cbn [isLoading setCurrentPoseIndex setCurrentOutfitIndex outfitHistory
       currentOutfitIndex].
  rewrite Hd, Hidle. cbn [negb orb].
  replace (currentOutfitIndex st - 1 + 1)%nat with (currentOutfitIndex st) by lia.
  rewrite HL. cbn [isNextLayerOf]. rewrite Hg, String.eqb_refl.
  eexists. split; [done |]. cbn. repeat split; try done; lia.
Qed.

Lemma remove_then_reselect_witness :
  ∃ st1,
    handleRemoveLastGarment (app twoGarments) = Returned st1
    ∧ currentOutfitIndex st1 = (currentOutfitIndex (app twoGarments) - 1)%nat
    ∧ (truthyOpt (displayImageUrl st1) = true →
       ∃ st2,
         handleGarmentSelect "jacket.png" jacket st1 = Returned st2
         ∧ currentOutfitIndex st2 = currentOutfitIndex (app twoGarments)
         ∧ outfitHistory st2 = outfitHistory (app twoGarments)
         ∧ currentPoseIndex st2 = 0%Z
         ∧ isLoading st2 = false).
Proof.
  apply (remove_then_reselect "jacket.png" (app twoGarments) jacketLayer jacket).
  - vm_compute. reflexivity.
  - vm_compute. lia.
  - vm_compute. reflexivity.
  - vm_compute. reflexivity.
Defined.

Lemma lookup_alter_current {A : Type} (f : A → A) (i : nat) (l : list A) (x : A) :
  l !! i = Some x → alter f i l !! i = Some (f x).
Proof. intros Hl. by rewrite list_lookup_alter_eq, Hl. Qed.

(** X11: with nothing loading and a current-pose entry that has a
    non-empty standard image and no enhanced one, [handleEnhanceImage] sends
    the standard image to be enhanced, and when the call succeeds the
    enhanced image is what is displayed; the standard image, the other
    poses, the garment and both cursors are as they were. *)
Theorem enhance_success_shows_enhanced (st : AppState) (L : OutfitLayer)
    (p : PoseImage) :
  isLoading st = false →
  outfitHistory st !! currentOutfitIndex st = Some L →
  objGet (keyOf (poseInstructionAt (currentPoseIndex st))) (poseImages L) = Some p →
  enhanced p = None → truthy (standard p) = true →
  ∃ st1 k,
    handleEnhanceImage st = Awaiting st1 (enhanceImageQuality (standard p)) k
    ∧ ∀ enhancedImageUrl,
        let st2 := resume k (Fulfilled enhancedImageUrl) st1 in
        displayImageUrl st2 = Some enhancedImageUrl
        ∧ isEnhanced st2 = truthy enhancedImageUrl
        ∧ currentOutfitIndex st2 = currentOutfitIndex st
        ∧ currentPoseIndex st2 = currentPoseIndex st
        ∧ isLoading st2 = false
        ∧ ∃ L2,
            outfitHistory st2 !! currentOutfitIndex st = Some L2
            ∧ garment L2 = garment L
            ∧ ∀ k',
                objGet k' (poseImages L2) =
                  if decide (k' = keyOf (poseInstructionAt (currentPoseIndex st)))
                  then Some {| standard := standard p;
                               enhanced := Some enhancedImageUrl |}
                  else objGet k' (poseImages L).
Proof.
  intros Hidle HL Hget Hnone Hstd.
  assert (displayImageUrl st = Some (standard p)) as Hd.
  { unfold displayImageUrl. rewrite (length_pos_eqb _ _ _ HL), HL. cbn zeta.
    rewrite Hget. cbn. by rewrite Hnone. }
  unfold handleEnhanceImage. rewrite Hd, Hstd, Hidle, HL, Hget. cbn [negb orb].
  cbn [mbind option_bind]. rewrite Hnone. cbn [truthyOpt].
  eexists _, _. split; [done |]. intros enhancedImageUrl.
  set (st2 := resume _ _ _).
  set (key := keyOf (poseInstructionAt (currentPoseIndex st))) in *.
  set (L2 := withPoseEnhanced (poseInstructionAt (currentPoseIndex st))
               enhancedImageUrl L).
  assert (outfitHistory st2 !! currentOutfitIndex st = Some L2) as HL2
    by (by apply lookup_alter_current).
  assert (∀ k', objGet k' (poseImages L2) =
                if decide (k' = key)
                then Some {| standard := standard p;
                             enhanced := Some enhancedImageUrl |}
                else objGet k' (poseImages L)) as Hkeys.
  { intros k'. unfold L2, withPoseEnhanced. cbn [poseImages]. fold key.
    rewrite Hget. apply objGet_objSet. }
  assert (currentOutfitIndex st2 = currentOutfitIndex st) as Hc by done.
  assert (currentPoseIndex st2 = currentPoseIndex st) as Hp by done.
  split; [| split].
  - unfold displayImageUrl. rewrite Hc, Hp, (length_pos_eqb _ _ _ HL2), HL2.
    cbn zeta. fold key. rewrite (Hkeys key), decide_True by done. done.
  - unfold isEnhanced. rewrite Hc, Hp, (length_pos_eqb _ _ _ HL2), HL2.
    cbn [mbind option_bind]. fold key. rewrite (Hkeys key), decide_True by done.
    done.
  - do 3 (split; [done |]). by exists L2.
Qed.

Lemma enhance_success_shows_enhanced_witness :
  ∃ st1 k,
    handleEnhanceImage (app steppedBack) =
      Awaiting st1 (enhanceImageQuality (standard (Build_PoseImage "shirt_on_model.png" None))) k
    ∧ ∀ enhancedImageUrl,
        let st2 := resume k (Fulfilled enhancedImageUrl) st1 in
        displayImageUrl st2 = Some enhancedImageUrl
        ∧ isEnhanced st2 = truthy enhancedImageUrl
        ∧ currentOutfitIndex st2 = currentOutfitIndex (app steppedBack)
        ∧ currentPoseIndex st2 = currentPoseIndex (app steppedBack)
        ∧ isLoading st2 = false
        ∧ ∃ L2,
            outfitHistory st2 !! currentOutfitIndex (app steppedBack) = Some L2
            ∧ garment L2 = garment shirtLayer
            ∧ ∀ k',
                objGet k' (poseImages L2) =
                  if decide (k' = keyOf (poseInstructionAt
                                           (currentPoseIndex (app steppedBack))))
                  then Some {| standard := standard (Build_PoseImage "shirt_on_model.png" None);
                               enhanced := Some enhancedImageUrl |}
                  else objGet k' (poseImages shirtLayer).
Proof.
  apply (enhance_success_shows_enhanced (app steppedBack) shirtLayer
           (Build_PoseImage "shirt_on_model.png" None)).
  - vm_compute. reflexivity.
  - vm_compute. reflexivity.
  - vm_compute. reflexivity.
  - reflexivity.
  - vm_compute. reflexivity.
Defined.

(** X12: when the current pose is already enhanced, the enhanced image is
    the one displayed and [handleEnhanceImage] returns without a remote call
    and without a change. *)
Theorem enhanced_pose_is_final (st : AppState) :
  isEnhanced st = true →
  handleEnhanceImage st = Returned st
  ∧ ∃ enhancedImageUrl,
      displayImageUrl st = Some enhancedImageUrl
      ∧ enhancedAt st (currentOutfitIndex st)
          (keyOf (poseInstructionAt (currentPoseIndex st))) = Some enhancedImageUrl.
Proof.
  unfold isEnhanced, handleEnhanceImage, displayImageUrl, enhancedAt.
  destruct (length (outfitHistory st) =? 0)%nat; [done |].
  destruct (outfitHistory st !! currentOutfitIndex st) as [L|]; [| done]. cbn.
  destruct (objGet _ (poseImages L)) as [p|]; [| done]. cbn.
  destruct (enhanced p) as [e|]; [| done]. cbn. intros He. rewrite He. cbn.
  split; [by destruct (isLoading st) | by exists e].
Qed.

Lemma enhanced_pose_is_final_witness :
  handleEnhanceImage (app enhancedBase) = Returned (app enhancedBase)
  ∧ ∃ enhancedImageUrl,
      displayImageUrl (app enhancedBase) = Some enhancedImageUrl
      ∧ enhancedAt (app enhancedBase) (currentOutfitIndex (app enhancedBase))
          (keyOf (poseInstructionAt (currentPoseIndex (app enhancedBase))))
        = Some enhancedImageUrl.
Proof.
  apply (enhanced_pose_is_final (app enhancedBase)).
  vm_compute. reflexivity.
Defined.

(** X13: with nothing loading, an image to regenerate from and no usable
    standard image for pose [p] on the current layer, a pose call that
    succeeds stores its image under [p] on the current layer only, and that
    image is then displayed; the other poses, the garment, the cursor and
    the length of the history are as they were, and no error is stored. *)
Theorem pose_success_shows_new_pose (p : Z) (st : AppState) (L : OutfitLayer)
    (url : string) :
  isLoading st = false →
  p ≠ currentPoseIndex st →
  outfitHistory st !! currentOutfitIndex st = Some L →
  truthyOpt (standard <$> objGet (keyOf (poseInstructionAt p)) (poseImages L))
    = false →
  displayImageUrl st = Some url → truthy url = true →
  ∃ st1 k,
    handlePoseSelect p st =
      Awaiting st1 (generatePoseVariation url (poseInstructionAt p)) k
    ∧ ∀ newImageUrl,
        let st2 := resume k (Fulfilled newImageUrl) st1 in
        displayImageUrl st2 = Some newImageUrl
        ∧ currentPoseIndex st2 = p
        ∧ currentOutfitIndex st2 = currentOutfitIndex st
        ∧ length (outfitHistory st2) = length (outfitHistory st)
        ∧ isLoading st2 = false ∧ error st2 = None
        ∧ (∀ j, j ≠ currentOutfitIndex st →
                outfitHistory st2 !! j = outfitHistory st !! j)
        ∧ ∃ L2,
            outfitHistory st2 !! currentOutfitIndex st = Some L2
            ∧ garment L2 = garment L
            ∧ ∀ k',
                objGet k' (poseImages L2) =
                  if decide (k' = keyOf (poseInstructionAt p))
                  then Some {| standard := newImageUrl; enhanced := None |}
                  else objGet k' (poseImages L).
Proof.
  intros Hidle Hp HL Hcached Hd Hu. unfold handlePoseSelect.
  rewrite Hidle, (length_pos_eqb _ _ _ HL), HL, Hcached, Hd, Hu.
  assert ((p =? currentPoseIndex st)%Z = false) as -> by by apply Z.eqb_neq.
  cbn [negb orb]. eexists _, _. split; [done |]. intros newImageUrl.
  set (st2 := resume _ _ _).
  set (key := keyOf (poseInstructionAt p)) in *.
  set (L2 := withPoseStandard (poseInstructionAt p) newImageUrl L).
  assert (outfitHistory st2 !! currentOutfitIndex st = Some L2) as HL2
    by (by apply lookup_alter_current).
  assert (∀ k', objGet k' (poseImages L2) =
                if decide (k' = key)
                then Some {| standard := newImageUrl; enhanced := None |}
                else objGet k' (poseImages L)) as Hkeys
    by (intros k'; apply objGet_objSet).
  assert (currentOutfitIndex st2 = currentOutfitIndex st) as Hc by done.
  assert (currentPoseIndex st2 = p) as Hp2 by done.
  split.
  - unfold displayImageUrl. rewrite Hc, Hp2, (length_pos_eqb _ _ _ HL2), HL2.
    cbn zeta. fold key. rewrite (Hkeys key), decide_True by done. done.
  - do 2 (split; [done |]). split; [apply length_alter |].
    do 2 (split; [done |]). split.
    + intros j Hj. by apply list_lookup_alter_ne.
    + by exists L2.
Qed.

Lemma pose_success_shows_new_pose_witness :
  ∃ st1 k,
    handlePoseSelect 2 (app steppedBack) =
      Awaiting st1
        (generatePoseVariation "shirt_on_model.png" (poseInstructionAt 2)) k
    ∧ ∀ newImageUrl,
        let st2 := resume k (Fulfilled newImageUrl) st1 in
        displayImageUrl st2 = Some newImageUrl
        ∧ currentPoseIndex st2 = 2%Z
        ∧ currentOutfitIndex st2 = currentOutfitIndex (app steppedBack)
        ∧ length (outfitHistory st2) = length (outfitHistory (app steppedBack))
        ∧ isLoading st2 = false ∧ error st2 = None
        ∧ (∀ j, j ≠ currentOutfitIndex (app steppedBack) →
                outfitHistory st2 !! j = outfitHistory (app steppedBack) !! j)
        ∧ ∃ L2,
            outfitHistory st2 !! currentOutfitIndex (app steppedBack) = Some L2
            ∧ garment L2 = garment shirtLayer
            ∧ ∀ k',
                objGet k' (poseImages L2) =
                  if decide (k' = keyOf (poseInstructionAt 2))
                  then Some {| standard := newImageUrl; enhanced := None |}
                  else objGet k' (poseImages shirtLayer).
Proof.
  apply (pose_success_shows_new_pose 2 (app steppedBack) shirtLayer
           "shirt_on_model.png").
  - vm_compute. reflexivity.
  - vm_compute. discriminate.
  - vm_compute. reflexivity.
  - vm_compute. reflexivity.
  - vm_compute. reflexivity.
  - vm_compute. reflexivity.
Defined.

(** X14: a pose whose standard image is on the current layer is selected
    without a remote call: with nothing loading, [handlePoseSelect] only
    moves the pose cursor, and what is displayed is the stored image of
    that pose, the enhanced one if there is one. *)
Theorem cached_pose_is_shown (p : Z) (st : AppState) (L : OutfitLayer)
    (img : PoseImage) :
  isLoading st = false →
  p ≠ currentPoseIndex st →
  outfitHistory st !! currentOutfitIndex st = Some L →
  objGet (keyOf (poseInstructionAt p)) (poseImages L) = Some img →
  truthy (standard img) = true →
  handlePoseSelect p st = Returned (setCurrentPoseIndex p st)
  ∧ displayImageUrl (setCurrentPoseIndex p st)
    = Some (default (standard img) (enhanced img)).
Proof.
  intros Hidle Hp HL Hget Hstd. unfold handlePoseSelect, displayImageUrl.
  cbn [outfitHistory currentOutfitIndex currentPoseIndex setCurrentPoseIndex].
  rewrite Hidle, (length_pos_eqb _ _ _ HL), HL, Hget.
  assert ((p =? currentPoseIndex st)%Z = false) as -> by by apply Z.eqb_neq.
  cbn. rewrite Hstd. split; [done |]. by destruct (enhanced img).
Qed.

Lemma cached_pose_is_shown_witness :
  let st := app (run Scenario.sideOnly [GarmentSelect "x" Scenario.jacket;
                                        PoseSelect 0]) in
  handlePoseSelect 2 st = Returned (setCurrentPoseIndex 2 st)
  ∧ displayImageUrl (setCurrentPoseIndex 2 st)
    = Some (default (standard (Build_PoseImage "jacket_side.png" None))
              (enhanced (Build_PoseImage "jacket_side.png" None))).
Proof.
  apply (cached_pose_is_shown 2
           (app (run Scenario.sideOnly [GarmentSelect "x" Scenario.jacket;
                                        PoseSelect 0]))
           (Build_OutfitLayer (Some jacket)
              [("Side profile view", Build_PoseImage "jacket_side.png" None)])
           (Build_PoseImage "jacket_side.png" None)).
  - vm_compute. reflexivity.
  - vm_compute. discriminate.
  - vm_compute. reflexivity.
  - vm_compute. reflexivity.
  - vm_compute. reflexivity.
Defined.

(** X15: after [handleStartOver] there is nothing to display, and none of
    the four handlers changes the state or issues a remote call. *)
Theorem start_over_disables_handlers (st : AppState) (garmentFile : File)
    (garmentInfo : WardrobeItem) (newIndex : Z) :
  let st0 := handleStartOver st in
  displayImageUrl st0 = None
  ∧ isLoading st0 = false ∧ error st0 = None
  ∧ handleGarmentSelect garmentFile garmentInfo st0 = Returned st0
  ∧ handleRemoveLastGarment st0 = Returned st0
  ∧ handlePoseSelect newIndex st0 = Returned st0
  ∧ handleEnhanceImage st0 = Returned st0.
Proof. by repeat split. Qed.

(** X16: [handleStartOver] does not cancel an outstanding call. A compose
    call fulfilled after it leaves a history that is the garment layer
    alone with the cursor at 1, outside the history, so there is still
    nothing to display; a pose or an enhance call fulfilled after it
    leaves the history empty. Creating a model afterwards resets both. *)
Theorem settle_after_start_over (st : AppState) (garmentInfo : WardrobeItem)
    (c : nat) (p prev : Z) (poseInstruction : option string) (url model : string) :
  let st0 := handleStartOver st in
  let composed := resume (AfterTryOn garmentInfo c p) (Fulfilled url) st0 in
  (garment <$> outfitHistory composed) = [Some garmentInfo]
  ∧ currentOutfitIndex composed = 1%nat
  ∧ outfitHistory composed !! currentOutfitIndex composed = None
  ∧ displayImageUrl composed = None
  ∧ outfitHistory (resume (AfterPose poseInstruction c prev) (Fulfilled url) st0) = []
  ∧ outfitHistory (resume (AfterEnhance poseInstruction c) (Fulfilled url) st0) = []
  ∧ outfitHistory (handleModelFinalized model composed) = [baseLayerOf model]
  ∧ currentOutfitIndex (handleModelFinalized model composed) = 0%nat.
Proof.
  intros st0 composed. subst composed st0. cbn.
  rewrite take_nil. cbn. by repeat split.
Qed.

Lemma single_pose_layer_display (st : AppState) (L : OutfitLayer) (k : string)
    (img : PoseImage) :
  outfitHistory st !! currentOutfitIndex st = Some L →
  poseImages L = [(k, img)] → enhanced img = None →
  displayImageUrl st = Some (standard img).
Proof.
  intros HL Himgs Hnone. unfold displayImageUrl.
  rewrite (length_pos_eqb _ _ _ HL), HL, Himgs. cbn.
  rewrite String.eqb_refl. destruct (k =? _)%string; cbn; by rewrite ?Hnone.
Qed.

(** X17: creating a model alone. [handleFileSelectForTryOn] sets the
    loading flag and clears the error; when the model image arrives the
    history is the base layer alone, the cursor is 0, nothing is loading,
    and the model image is displayed whatever the pose cursor is, which is
    left as it was. The session satisfies the session invariant. *)
Theorem model_creation_success (st : AppState) (result : string) :
  let st1 := handleFileSelectForTryOn None st in
  let st2 := afterGenerateModelImage (Resolved result) st1 in
  isLoading st1 = true ∧ error st1 = None
  ∧ outfitHistory st1 = outfitHistory st
  ∧ outfitHistory st2 = [baseLayerOf result]
  ∧ currentOutfitIndex st2 = 0%nat
  ∧ modelImageUrl st2 = Some result
  ∧ displayImageUrl st2 = Some result
  ∧ currentPoseIndex st2 = currentPoseIndex st
  ∧ isLoading st2 = false ∧ error st2 = None
  ∧ invariant {| app := st2; pending := [] |}.
Proof.
  intros st1 st2. do 6 (split; [reflexivity |]). split.
  - by apply (single_pose_layer_display st2 (baseLayerOf result)
                (keyOf (poseInstructionAt 0))
                {| standard := result; enhanced := None |}).
  - do 3 (split; [reflexivity |]). subst st1 st2. split; cbn.
    + lia.
    + by eexists.
    + intros [|j] L k p e; [| done]. intros [= <-]. cbn.
      case_match; [| done]. by intros [= <-].
    + by left.
Qed.

(** X18: creating a model with a pending garment. When the try-on
    arrives the history is the base layer and the garment layer, the
    cursor is on the garment layer, the try-on image is displayed whatever
    the pose cursor is, the garment is in the wardrobe, and the session
    satisfies the session invariant. *)
Theorem initial_try_on_success (st : AppState) (pendingGarment : WardrobeItem)
    (baseModelUrl finalTryOnUrl : string) :
  let st1 := handleFileSelectForTryOn (Some pendingGarment) st in
  let st2 :=
    afterGenerateInitialTryOn pendingGarment
      (Resolved (baseModelUrl, finalTryOnUrl)) st1 in
  isLoading st1 = true ∧ error st1 = None
  ∧ (garment <$> outfitHistory st2) = [None; Some pendingGarment]
  ∧ currentOutfitIndex st2 = 1%nat
  ∧ modelImageUrl st2 = Some baseModelUrl
  ∧ displayImageUrl st2 = Some finalTryOnUrl
  ∧ id pendingGarment ∈ (id <$> wardrobe st2)
  ∧ isLoading st2 = false ∧ error st2 = None
  ∧ invariant {| app := st2; pending := [] |}.
Proof.
  intros st1 st2. do 5 (split; [reflexivity |]). split; [| split].
  - by apply (single_pose_layer_display st2
                {| garment := Some pendingGarment;
                   poseImages :=
                     [(keyOf (poseInstructionAt 0),
                       {| standard := finalTryOnUrl; enhanced := None |})] |}
                (keyOf (poseInstructionAt 0))
                {| standard := finalTryOnUrl; enhanced := None |}).
  - change (id pendingGarment
            ∈ (id <$> addToWardrobe pendingGarment (wardrobe st))).
    destruct (addToWardrobe_cases pendingGarment (wardrobe st))
      as [[Hin ->] | [_ ->]]; [done |].
    rewrite fmap_app, elem_of_app. right. by apply list_elem_of_singleton.
  - do 2 (split; [reflexivity |]). subst st1 st2. split; cbn.
    + lia.
    + by eexists.
    + intros [|[|j]] L k p e; [| | done]; intros [= <-]; cbn;
        (case_match; [| done]); by intros [= <-].
    + by left.
Qed.

(** X19: when model creation fails, in either branch, with a value thrown
    whose message is ASCII text, the timeline, the cursors, the model image
    and the wardrobe are as before the file was selected, the loading flag
    and the loading message are cleared, and the stored error is the
    message of the kind the thrown value's message classifies as, for the
    context "Failed to create your look". *)
Theorem creation_failure_keeps_timeline (st : AppState)
    (pendingGarment : option WardrobeItem) (err : unknown) :
  isAsciiText (rawMessageOf err) = true →
  let st1 := handleFileSelectForTryOn pendingGarment st in
  let st2 :=
    match pendingGarment with
    | Some g => afterGenerateInitialTryOn g (Thrown err) st1
    | None => afterGenerateModelImage (Thrown err) st1
    end in
  outfitHistory st2 = outfitHistory st
  ∧ currentOutfitIndex st2 = currentOutfitIndex st
  ∧ currentPoseIndex st2 = currentPoseIndex st
  ∧ modelImageUrl st2 = modelImageUrl st
  ∧ wardrobe st2 = wardrobe st
  ∧ isLoading st2 = false ∧ loadingMessage st2 = ""
  ∧ ∃ kind message,
      Spec.classifies (rawMessageOf err) kind
      ∧ Spec.describes (rawMessageOf err) "Failed to create your look" kind message
      ∧ error st2 = Some message.
Proof.
  intros _ st1 st2. subst st1 st2.
  destruct (friendly_message_described err "Failed to create your look")
    as (kind & Hk & Hmsg).
  destruct pendingGarment as [g|]; cbn; (do 7 (split; [done |]));
    by exists kind, (getFriendlyErrorMessage err "Failed to create your look").
Qed.

Lemma creation_failure_keeps_timeline_witness :
  let st1 := handleFileSelectForTryOn None (app Scenario.twoGarments) in
  let st2 :=
    afterGenerateModelImage
      (Thrown (ErrorObject "RESOURCE_EXHAUSTED: Quota exceeded")) st1 in
  outfitHistory st2 = outfitHistory (app Scenario.twoGarments)
  ∧ currentOutfitIndex st2 = currentOutfitIndex (app Scenario.twoGarments)
  ∧ currentPoseIndex st2 = currentPoseIndex (app Scenario.twoGarments)
  ∧ modelImageUrl st2 = modelImageUrl (app Scenario.twoGarments)
  ∧ wardrobe st2 = wardrobe (app Scenario.twoGarments)
  ∧ isLoading st2 = false ∧ loadingMessage st2 = ""
  ∧ ∃ kind message,
      Spec.classifies "RESOURCE_EXHAUSTED: Quota exceeded" kind
      ∧ Spec.describes "RESOURCE_EXHAUSTED: Quota exceeded"
          "Failed to create your look" kind message
      ∧ error st2 = Some message.
Proof.
  apply (creation_failure_keeps_timeline (app Scenario.twoGarments) None
           (ErrorObject "RESOURCE_EXHAUSTED: Quota exceeded")).
  vm_compute. reflexivity.
Defined.

(** X20: a remote call that fails leaves the history, the cursor, the
    pose cursor and the model image as they were before the action that
    issued it, clears the loading flag and stores an error, whichever of
    the three calls it is. *)
Theorem failed_call_restores_state (s : Session) (e : Event)
    (call : RemoteCall) (k : Continuation) (err : string) :
  pending s = [] →
  pending (step s e) = [(call, k)] →
  let s2 := step (step s e) (Settle (Rejected err)) in
  outfitHistory (app s2) = outfitHistory (app s)
  ∧ currentOutfitIndex (app s2) = currentOutfitIndex (app s)
  ∧ currentPoseIndex (app s2) = currentPoseIndex (app s)
  ∧ modelImageUrl (app s2) = modelImageUrl (app s)
  ∧ wardrobe (app s2) = wardrobe (app s)
  ∧ isLoading (app s2) = false ∧ is_Some (error (app s2)) ∧ pending s2 = [].
Proof.
  intros Hidle Hcall s2. subst s2.
  rewrite (step_settle _ _ _ _ _ Hcall).
  destruct s as [st pend]. cbn [pending] in Hidle. subst pend.
  destruct e as [garmentFile garmentInfo | | newIndex | | r];
    cbn [step app pending] in *; [| | | | done].
  - destruct (handleGarmentSelect_cases garmentFile garmentInfo st)
      as [Hr | [(_ & _ & Hr) | (_ & _ & ? & _ & _ & Hr)]];
      rewrite Hr in *; cbn in Hcall; [done.. |].
    injection Hcall as <- <-. cbn. by repeat split.
  - by destruct (handleRemoveLastGarment_cases st) as [Hr | [Hr | (_ & Hr)]];
      rewrite Hr in *.
  - destruct (handlePoseSelect_cases newIndex st)
      as [Hr | [Hr | [(_ & Hr) | (_ & ? & ? & _ & _ & _ & _ & Hr)]]];
      rewrite Hr in *; cbn in Hcall; [done.. |].
    injection Hcall as <- <-. cbn. by repeat split.
  - destruct (handleEnhanceImage_cases st)
      as [Hr | [Hr | (_ & ? & ? & _ & _ & _ & _ & Hr)]];
      rewrite Hr in *; cbn in Hcall; [done.. |].
    injection Hcall as <- <-. cbn. by repeat split.
Qed.

Lemma failed_call_restores_state_witness :
  let s := steppedBack in
  let s2 := step (step s EnhanceImage) (Settle (Rejected "safety block")) in
  outfitHistory (app s2) = outfitHistory (app s)
  ∧ currentOutfitIndex (app s2) = currentOutfitIndex (app s)
  ∧ currentPoseIndex (app s2) = currentPoseIndex (app s)
  ∧ modelImageUrl (app s2) = modelImageUrl (app s)
  ∧ wardrobe (app s2) = wardrobe (app s)
  ∧ isLoading (app s2) = false ∧ is_Some (error (app s2)) ∧ pending s2 = [].
Proof.
  apply (failed_call_restores_state steppedBack EnhanceImage
           (enhanceImageQuality "shirt_on_model.png")
           (AfterEnhance (poseInstructionAt 0) 1)).
  - vm_compute. reflexivity.
  - vm_compute. reflexivity.
Defined.

End Composition.

(** ** Pose navigation on the canvas *)

Section PoseNavigation.
Import Utils App Invariants Canvas.

Lemma indexOfFrom_found (i : Z) (x : string) (l : list string) :
  indexOfFrom i x l ≠ (-1)%Z → (0 ≤ i)%Z →
  (i ≤ indexOfFrom i x l < i + Z.of_nat (length l))%Z
  ∧ l !! Z.to_nat (indexOfFrom i x l - i) = Some x.
Proof.
  revert i. induction l as [|y l IH]; intros i Hr Hi; cbn in *; [done |].
  destruct (String.eqb_spec y x) as [->|Hne].
  - rewrite Z.sub_diag. split; [lia | done].
  - destruct (IH (i + 1)%Z Hr ltac:(lia)) as [Hrange Hl]. split; [lia |].
    replace (Z.to_nat (indexOfFrom (i + 1) x l - i))
      with (S (Z.to_nat (indexOfFrom (i + 1) x l - (i + 1)))) by lia.
    done.
Qed.

Lemma indexOfFrom_elem (i : Z) (x : string) (l : list string) :
  x ∈ l → (0 ≤ i)%Z → indexOfFrom i x l ≠ (-1)%Z.
Proof.
  revert i. induction l as [|y l IH]; intros i Hin Hi; cbn.
  - by apply elem_of_nil in Hin.
  - destruct (String.eqb_spec y x) as [->|Hne]; [lia |].
    apply elem_of_cons in Hin as [-> | Hin]; [done |].
    apply IH; [done | lia].
Qed.

Lemma indexOf_found (x : option string) (l : list string) :
  indexOf x l ≠ (-1)%Z →
  (0 ≤ indexOf x l < Z.of_nat (length l))%Z
  ∧ ∃ s, x = Some s ∧ at_ l (indexOf x l) = Some s.
Proof.
  destruct x as [s|]; cbn; [| done]. intros Hr.
  destruct (indexOfFrom_found 0 s l Hr ltac:(lia)) as [Hrange Hl].
  split; [lia |]. exists s. split; [done |]. unfold at_.
  rewrite Z.sub_0_r in Hl.
  by destruct (Z.ltb_spec (indexOfFrom 0 s l) 0); [lia |].
Qed.

Lemma at_in_range (l : list string) (i : Z) :
  (0 ≤ i < Z.of_nat (length l))%Z → ∃ s, at_ l i = Some s ∧ s ∈ l.
Proof.
  intros Hi. unfold at_. destruct (Z.ltb_spec i 0); [lia |].
  destruct (lookup_lt_is_Some_2 l (Z.to_nat i) ltac:(lia)) as [s Hs].
  exists s. split; [done |]. by eapply list_elem_of_lookup_2.
Qed.

Lemma poseInstructionAt_indexOf (x : option string) :
  indexOf x POSE_INSTRUCTIONS ≠ (-1)%Z →
  (0 ≤ indexOf x POSE_INSTRUCTIONS < poseCount)%Z
  ∧ poseInstructionAt (indexOf x POSE_INSTRUCTIONS) = x.
Proof.
  intros Hr. destruct (indexOf_found _ _ Hr) as [Hrange (s & -> & Hat)].
  split; [done |]. exact Hat.
Qed.

(** X21: with the pose cursor on one of the six poses, whatever index the
    previous and next buttons hand to [onSelectPose] is again one of the
    six poses. *)
Theorem pose_navigation_in_range (loading : bool) (available : list string)
    (currentPoseIndex newIndex : Z) :
  (0 ≤ currentPoseIndex < poseCount)%Z →
  handlePreviousPose loading available currentPoseIndex = Some newIndex
  ∨ handleNextPose loading available currentPoseIndex = Some newIndex →
  (0 ≤ newIndex < poseCount)%Z ∧ is_Some (poseInstructionAt newIndex).
Proof.
  intros Hcur Hcall.
  assert (0 ≤ newIndex < poseCount)%Z as Hrange.
  { unfold handlePreviousPose, handleNextPose in Hcall.
    change poseCount with 6%Z in *.
    destruct Hcall as [Hcall | Hcall];
      repeat (case_match; simplify_eq; try done);
      try (apply Z.rem_bound_pos; lia);
      match goal with
      | H : negb (indexOf ?x POSE_INSTRUCTIONS =? -1)%Z = true |- _ =>
          apply negb_true_iff, Z.eqb_neq, poseInstructionAt_indexOf in H
            as [? _]; by change poseCount with 6%Z in *
      end. }
  split; [done |]. unfold poseInstructionAt.
  destruct (Z.ltb_spec newIndex 0); [lia |].
  apply lookup_lt_is_Some_2. change poseCount with 6%Z in Hrange. cbn. lia.
Qed.

Lemma pose_navigation_in_range_witness :
  (0 ≤ 2 < poseCount)%Z ∧ is_Some (poseInstructionAt 2).
Proof.
  apply (pose_navigation_in_range false
           ["Full frontal view, hands on hips"; "Side profile view"] 0 2).
  - vm_compute. by split.
  - right. vm_compute. reflexivity.
Defined.

Lemma objGet_of_key (k : string) (obj : PoseImages) :
  k ∈ objKeys obj → is_Some (objGet k obj).
Proof.
  unfold objKeys. induction obj as [|[k0 v] obj IH]; cbn.
  - by intros ?%elem_of_nil.
  - destruct (String.eqb_spec k0 k); [by eexists |].
    intros [-> | Hin]%elem_of_cons; [done | by apply IH].
Qed.

Lemma key_of_objGet (k : string) (obj : PoseImages) :
  is_Some (objGet k obj) → k ∈ objKeys obj.
Proof.
  unfold objKeys. induction obj as [|[k0 v] obj IH]; cbn; [by intros [? ?] |].
  destruct (String.eqb_spec k0 k) as [->|Hne]; [by left |].
  intros Hs. right. by apply IH.
Qed.

(** X22: the previous-pose button never starts a remote call from a pose
    that has been generated. With nothing loading, the pose cursor on a
    pose the current layer has an image of, and every image of the layer
    non-empty, the index it hands to [handlePoseSelect] is a pose of the
    current layer, and [handlePoseSelect] returns with the pose cursor
    there and the history untouched. *)
Theorem previous_pose_needs_no_call (st : AppState) (L : OutfitLayer)
    (instruction : string) (newIndex : Z) :
  isLoading st = false →
  outfitHistory st !! currentOutfitIndex st = Some L →
  (∀ k img, objGet k (poseImages L) = Some img → truthy (standard img) = true) →
  poseInstructionAt (currentPoseIndex st) = Some instruction →
  is_Some (objGet instruction (poseImages L)) →
  handlePreviousPose (isLoading st) (availablePoseKeys st) (currentPoseIndex st)
    = Some newIndex →
  keyOf (poseInstructionAt newIndex) ∈ availablePoseKeys st
  ∧ ∃ st', handlePoseSelect newIndex st = Returned st'
           ∧ currentPoseIndex st' = newIndex
           ∧ outfitHistory st' = outfitHistory st
           ∧ isLoading st' = false.
Proof.
  intros Hidle HL Htruthy Hinstr Hcur Hprev.
  assert (availablePoseKeys st = objKeys (poseImages L)) as Hav.
  { unfold availablePoseKeys. by rewrite (length_pos_eqb _ _ _ HL), HL. }
  rewrite Hav in *. unfold handlePreviousPose in Hprev.
  rewrite Hidle, Hinstr in Hprev. cbn [orb] in Hprev.
  destruct (length (objKeys (poseImages L)) <=? 1)%nat eqn:Hlen; [done |].
  apply Nat.leb_gt in Hlen.
  pose proof (indexOfFrom_elem 0 instruction _ (key_of_objGet _ _ Hcur)
                ltac:(lia)) as Hci.
  change (indexOf (Some instruction) (objKeys (poseImages L)))
    with (indexOfFrom 0 instruction (objKeys (poseImages L))) in Hprev.
  destruct (Z.eqb_spec (indexOfFrom 0 instruction (objKeys (poseImages L))) (-1));
    [done |].
  destruct (indexOfFrom_found 0 instruction _ Hci ltac:(lia)) as [Hrange _].
  set (len := Z.of_nat (length (objKeys (poseImages L)))) in *.
  set (ci := indexOfFrom 0 instruction (objKeys (poseImages L))) in *.
  assert (0 ≤ Z.rem (ci - 1 + len) len < len)%Z as Hpi
    by (apply Z.rem_bound_pos; lia).
  destruct (at_in_range _ _ Hpi) as (k' & Hat & Hk').
  rewrite Hat in Hprev.
  destruct (Z.eqb_spec (indexOf (Some k') POSE_INSTRUCTIONS) (-1)); [done |].
  cbn [negb] in Hprev.
  assert (indexOf (Some k') POSE_INSTRUCTIONS = newIndex) as <-
    by congruence.
  clear Hprev.
  destruct (poseInstructionAt_indexOf (Some k') ltac:(done)) as [_ Hg].
  rewrite Hg. cbn [keyOf default]. split; [done |].
  destruct (objGet_of_key _ _ Hk') as [img Himg].
  unfold handlePoseSelect.
  rewrite Hidle, (length_pos_eqb _ _ _ HL), HL, Hg. cbn [orb keyOf default].
  destruct (indexOf (Some k') POSE_INSTRUCTIONS =? currentPoseIndex st)%Z
    eqn:Heq.
  - apply Z.eqb_eq in Heq. exists st. by rewrite Heq.
  - change (Datatypes.id k') with k'. rewrite Himg.
    cbn [fmap option_fmap option_map truthyOpt].
    rewrite (Htruthy _ _ Himg). by eexists.
Qed.

Lemma previous_pose_needs_no_call_witness :
  let st := app (run (freshSession "model.png")
                   [PoseSelect 2; Settle (Fulfilled "model_side.png")]) in
  keyOf (poseInstructionAt 0) ∈ availablePoseKeys st
  ∧ ∃ st', handlePoseSelect 0 st = Returned st'
           ∧ currentPoseIndex st' = 0%Z
           ∧ outfitHistory st' = outfitHistory st
           ∧ isLoading st' = false.
Proof.
  apply (previous_pose_needs_no_call
           (app (run (freshSession "model.png")
                   [PoseSelect 2; Settle (Fulfilled "model_side.png")]))
           (Build_OutfitLayer None
              [("Full frontal view, hands on hips",
                Build_PoseImage "model.png" None);
               ("Side profile view", Build_PoseImage "model_side.png" None)])
           "Side profile view" 0).
  - vm_compute. reflexivity.
  - vm_compute. reflexivity.
  - intros k img. cbn [objGet poseImages].
    destruct (String.eqb _ k); [by intros [= <-] |].
    destruct (String.eqb _ k); [by intros [= <-] |]. done.
  - vm_compute. reflexivity.
  - vm_compute. by eexists.
  - vm_compute. reflexivity.
Defined.

End PoseNavigation.

(** ** Retailer names, share images and their file names *)

Section TextFacts.
Import Utils App Spec Text.

Lemma findRetailer_Some (hostname retailer : string) (map : list (string * string)) :
  findRetailer hostname map = Some retailer →
  ∃ keyword, (keyword, retailer) ∈ map ∧ includes hostname keyword = true.
Proof.
  induction map as [|[k r] map IH]; cbn [findRetailer]; [done |].
  destruct (includes hostname k) eqn:Hk.
  - intros [= ->]. exists k. split; [by left | done].
  - intros (k' & Hin & Hk')%IH. exists k'. split; [by right | done].
Qed.

Lemma findRetailer_first (hostname keyword retailer : string)
    (before after : list (string * string)) :
  (∀ k r, (k, r) ∈ before → includes hostname k = false) →
  includes hostname keyword = true →
  findRetailer hostname (before ++ (keyword, retailer) :: after) = Some retailer.
Proof.
  intros Hbefore Hk. induction before as [|[k r] before IH]; cbn.
  - by rewrite Hk.
  - rewrite (Hbefore k r) by by left. apply IH. intros k' r' Hin.
    apply (Hbefore k' r'). by right.
Qed.

Lemma findRetailer_None (hostname : string) (map : list (string * string)) :
  (∀ k r, (k, r) ∈ map → includes hostname k = false) →
  findRetailer hostname map = None.
Proof.
  intros Hmap. induction map as [|[k r] map IH]; cbn; [done |].
  rewrite (Hmap k r) by by left. apply IH. intros k' r' Hin.
  apply (Hmap k' r'). by right.
Qed.

Lemma retailerMap_entries (k r : string) :
  (k, r) ∈ retailerMap → toLowerCase k = k ∧ r ≠ "".
Proof.
  unfold retailerMap. intros Hin.
  repeat (apply elem_of_cons in Hin as [[= -> ->] | Hin]; [by split |]).
  by apply elem_of_nil in Hin.
Qed.

Lemma capitalize_nonempty (s : string) : s ≠ "" → capitalize s ≠ "".
Proof. by destruct s. Qed.

Lemma truthy_nonempty (s : string) : truthy s = true ↔ s ≠ "".
Proof. by destruct s. Qed.

Lemma dotless_cons (c : ascii) (s : string) :
  dotless (String c s) → c ≠ "."%char ∧ dotless s.
Proof.
  intros Hd. split.
  - intros ->. by apply (Hd "" s).
  - intros pre post ->. by apply (Hd (String c pre) post).
Qed.

Lemma splitOn_first_label (label rest : string) :
  dotless label →
  ∃ others, splitOn "." (label ++ "." ++ rest) = label :: others.
Proof.
  induction label as [|c label IH]; intros Hd.
  - exists (splitOn "." rest). reflexivity.
  - apply dotless_cons in Hd as [Hc Hd]. destruct (IH Hd) as [others Hs].
    exists others. rewrite append_cons. cbn [splitOn].
    destruct (Ascii.eqb_spec c "."); [done |]. by rewrite Hs.
Qed.

Lemma replaceFirst_prefix (pat rep s : string) :
  replaceFirst pat rep (pat ++ s) = rep ++ s.
Proof.
  assert (dropChars (String.length pat) (pat ++ s) = s) as Hdrop
    by (induction pat as [|x pat IH]; [by destruct s | exact IH]).
  assert (startsWith (pat ++ s) pat = true) as Hstart
    by (apply startsWith_spec; by exists s).
  destruct (pat ++ s) eqn:Heq; cbn [replaceFirst]; by rewrite Hstart, Hdrop.
Qed.

(** X23: [getRetailerName] never returns the empty string, whatever the
    link holds and whether or not it parses as a URL. *)
Theorem getRetailerName_never_empty (parsedHostname : option string) :
  getRetailerName parsedHostname ≠ "".
Proof.
  destruct parsedHostname as [h|]; cbn [getRetailerName]; [| done].
  destruct (findRetailer (toLowerCase h) retailerMap) as [r|] eqn:Hfind.
  - apply findRetailer_Some in Hfind as (k & Hin & _).
    by apply retailerMap_entries in Hin as [_ Hr].
  - destruct (splitOn "." _) as [|retailer parts]; [done |].
    destruct (truthy retailer) eqn:Ht; [| done].
    by apply capitalize_nonempty, truthy_nonempty.
Qed.

(** X24: the retailer named is that of the first keyword of the table,
    in the order it is written, that occurs in the host name, whatever the
    case of the host name's letters; keywords written later do not
    matter. *)
Theorem getRetailerName_first_keyword (hostname keyword retailer : string)
    (before after : list (string * string)) :
  retailerMap = (before ++ (keyword, retailer) :: after)%list →
  occursIgnoringCase keyword hostname →
  (∀ k r, (k, r) ∈ before → ¬ occursIgnoringCase k hostname) →
  getRetailerName (Some hostname) = retailer.
Proof.
  intros Hmap Hk Hbefore. cbn [getRetailerName]. rewrite Hmap.
  assert (∀ k r, (k, r) ∈ (before ++ (keyword, retailer) :: after)%list →
                 toLowerCase k = k) as Hlow.
  { intros k r Hin. rewrite <- Hmap in Hin.
    by apply retailerMap_entries in Hin as [? _]. }
  rewrite (findRetailer_first (toLowerCase hostname) keyword retailer before after);
    [done | |].
  - intros k r Hin. apply includes_toLowerCase_false.
    + apply (Hlow k r). apply elem_of_app. by left.
    + by apply (Hbefore k r).
  - apply includes_toLowerCase; [| done].
    apply (Hlow keyword retailer). apply elem_of_app. right. by left.
Qed.

Lemma getRetailerName_first_keyword_witness :
  getRetailerName (Some "WWW.Amazon.in") = "Amazon".
Proof.
  apply (getRetailerName_first_keyword "WWW.Amazon.in" "amazon" "Amazon"
           [("ajio", "Ajio"); ("ajiio", "Ajio"); ("bitli", "Ajio")]
           [("flipkart", "Flipkart"); ("fkrt", "Flipkart");
            ("fktr", "Flipkart"); ("meesho", "Meesho");
            ("nykaafashion", "Nykaa"); ("myntra", "Myntra");
            ("myntr", "Myntra")]).
  - reflexivity.
  - apply includes_toLowerCase; [reflexivity | vm_compute; reflexivity].
  - intros k r Hin.
    repeat (apply elem_of_cons in Hin as [[= -> ->] | Hin];
            [apply includes_toLowerCase_false;
             [reflexivity | vm_compute; reflexivity] |]).
    by apply elem_of_nil in Hin.
Defined.

(** X25: for a host name [www.<label>.<rest>] in which no keyword of the
    table occurs, the retailer named is the label in lower case with its
    first letter in upper case. *)
Theorem getRetailerName_unknown_host (hostname label rest : string) :
  (∀ k r, (k, r) ∈ retailerMap → ¬ occursIgnoringCase k hostname) →
  toLowerCase hostname = "www." ++ label ++ "." ++ rest →
  label ≠ "" → dotless label →
  getRetailerName (Some hostname) = capitalize label.
Proof.
  intros Hnone Hhost Hlabel Hd. cbn [getRetailerName].
  rewrite findRetailer_None.
  - rewrite Hhost, replaceFirst_prefix, append_empty.
    destruct (splitOn_first_label label rest Hd) as [others ->].
    by apply truthy_nonempty in Hlabel as ->.
  - intros k r Hin. apply includes_toLowerCase_false.
    + by apply retailerMap_entries in Hin as [? _].
    + by apply (Hnone k r).
Qed.

Lemma getRetailerName_unknown_host_witness :
  getRetailerName (Some "WWW.Zara.com") = capitalize "zara".
Proof.
  apply (getRetailerName_unknown_host "WWW.Zara.com" "zara" "com").
  - intros k r Hin. unfold retailerMap in Hin.
    repeat (apply elem_of_cons in Hin as [[= -> ->] | Hin];
            [apply includes_toLowerCase_false;
             [reflexivity | vm_compute; reflexivity] |]).
    by apply elem_of_nil in Hin.
  - vm_compute. reflexivity.
  - done.
  - intros pre post Heq.
    assert (includes "zara" "." = true) as Hinc
      by (apply includes_spec; by exists pre, post).
    by vm_compute in Hinc.
Defined.

(** [words.join(' ') + ' '], the text the loop of [wrapText] rebuilds. *)
Lemma splitOn_nonempty (sep : ascii) (s : string) : splitOn sep s ≠ [].
Proof.
  induction s as [|c s IH]; cbn [splitOn]; [done |].
  destruct (Ascii.eqb c sep); [done |]. by destruct (splitOn sep s).
Qed.

Lemma splitOn_rebuilt (s : string) :
  foldr (λ word acc, word ++ " " ++ acc) "" (splitOn " " s) = s ++ " ".
Proof.
  induction s as [|c s IH]; [done |]. cbn [splitOn].
  destruct (Ascii.eqb_spec c " ") as [->|Hc].
  - cbn [foldr]. by rewrite IH.
  - pose proof (splitOn_nonempty " " s) as Hne.
    destruct (splitOn " " s) as [|h t]; [done |].
    cbn [foldr] in *. rewrite !append_cons. f_equal. exact IH.
Qed.

Lemma trimEnd_space (s : string) : trimEnd (s ++ " ") = trimEnd s.
Proof.
  induction s as [|c s IH]; [done |].
  rewrite append_cons. cbn [trimEnd]. by rewrite IH.
Qed.

Lemma trim_space (s : string) : trim (s ++ " ") = trim s.
Proof.
  unfold trim. induction s as [|c s IH]; [done |].
  rewrite append_cons. cbn [trimStart]. destruct (isSpace c); [exact IH |].
  by rewrite <- append_cons, trimEnd_space.
Qed.

Lemma length_dropLast (s : string) :
  String.length (dropLast s) = (String.length s - 1)%nat.
Proof.
  induction s as [|c s IH]; [done |]. destruct s as [|d s]; [done |].
  change (dropLast (String c (String d s))) with (String c (dropLast (String d s))).
  cbn [String.length] in *. rewrite IH. lia.
Qed.

Lemma truncateFrom_returns (tooWide : string → bool) (n : nat) (t : string) :
  tooWide "..." = false → String.length t = n →
  is_Some (truncateFrom tooWide n t).
Proof.
  intros Hdots. revert t. induction n as [|n IH]; intros t Hlen; cbn [truncateFrom].
  - destruct t; [| done]. rewrite append_empty, Hdots. by eexists.
  - destruct (tooWide (t ++ "...")); [| by eexists].
    apply IH. rewrite length_dropLast, Hlen. lia.
Qed.

Lemma truncateFrom_hangs (tooWide : string → bool) (n : nat) (t : string) :
  (∀ s, s ≠ "" → tooWide s = true) → truncateFrom tooWide n t = None.
Proof.
  intros Hwide. revert t. induction n as [|n IH]; intros t; cbn [truncateFrom];
    (rewrite Hwide; [| by destruct t]); [done | apply IH].
Qed.

Lemma wrapLoop_line_bound (tooWide : string → bool) (maxLines : Z)
    (words : list string) (first : bool) (line : string) (lineCount : Z)
    (lines : list string) :
  (lineCount ≤ maxLines)%Z →
  wrapLoop tooWide maxLines words first line lineCount = Some lines →
  (1 ≤ Z.of_nat (length lines) ≤ maxLines - lineCount + 1)%Z.
Proof.
  revert first line lineCount lines.
  induction words as [|word rest IH]; intros first line lineCount lines Hle;
    cbn [wrapLoop].
  - intros [= <-]. cbn. lia.
  - destruct (tooWide (line ++ word ++ " ") && negb first).
    + destruct (Z.eqb_spec lineCount maxLines) as [-> | Hne].
      * destruct (truncateFrom _ _ _); cbn; [| done]. intros [= <-]. cbn. lia.
      * destruct (wrapLoop _ _ rest _ _ _) as [below|] eqn:Hbelow; cbn; [| done].
        intros [= <-]. apply IH in Hbelow; [| lia]. cbn [length]. lia.
    + by apply IH.
Qed.

Lemma wrapLoop_returns (tooWide : string → bool) (maxLines : Z)
    (words : list string) (first : bool) (line : string) (lineCount : Z) :
  tooWide "..." = false →
  is_Some (wrapLoop tooWide maxLines words first line lineCount).
Proof.
  intros Hdots. revert first line lineCount.
  induction words as [|word rest IH]; intros first line lineCount;
    cbn [wrapLoop]; [by eexists |].
  destruct (tooWide (line ++ word ++ " ") && negb first); [| apply IH].
  destruct (lineCount =? maxLines)%Z.
  - destruct (truncateFrom_returns tooWide _ (trim line) Hdots eq_refl)
      as [t ->]. by eexists.
  - destruct (IH false (word ++ " ") (lineCount + 1)%Z) as [below ->].
    by eexists.
Qed.

Lemma wrapLoop_fits (tooWide : string → bool) (maxLines : Z)
    (words : list string) (first : bool) (line : string) (lineCount : Z) :
  (∀ pre post,
     line ++ foldr (λ word acc, word ++ " " ++ acc) "" words = pre ++ post →
     tooWide pre = false) →
  wrapLoop tooWide maxLines words first line lineCount
  = Some [trim (line ++ foldr (λ word acc, word ++ " " ++ acc) "" words)].
Proof.
  revert first line lineCount.
  induction words as [|word rest IH]; intros first line lineCount Hfit;
    cbn [wrapLoop foldr].
  - replace (line ++ "") with line; [done |].
    clear. induction line as [|c line IH]; [done |]. by rewrite append_cons, <- IH.
  - cbn [foldr] in Hfit.
    rewrite (Hfit (line ++ word ++ " ") (foldr (λ w acc, w ++ " " ++ acc) "" rest))
      by by rewrite !append_assoc.
    cbn [andb]. rewrite IH; [by rewrite !append_assoc |].
    intros pre post Heq. apply (Hfit pre post). by rewrite <- Heq, !append_assoc.
Qed.

(** X26: with [maxLines] at least one, [wrapText] draws at least one line
    and at most [maxLines] lines. *)
Theorem wrapText_line_bound (tooWide : string → bool) (maxLines : Z)
    (text : string) (lines : list string) :
  (1 ≤ maxLines)%Z →
  wrapText tooWide maxLines text = Some lines →
  (1 ≤ Z.of_nat (length lines) ≤ maxLines)%Z.
Proof.
  intros Hmax Hlines. unfold wrapText in Hlines.
  apply wrapLoop_line_bound in Hlines; lia.
Qed.

Lemma wrapText_line_bound_witness :
  (1 ≤ Z.of_nat (length ["Linen"; "summer..."]) ≤ 2)%Z.
Proof.
  apply (wrapText_line_bound (λ s, (10 <? String.length s)%nat) 2
           "Linen summer shirt with pockets" ["Linen"; "summer..."]).
  - lia.
  - vm_compute. reflexivity.
Defined.

(** X27: [wrapText] returns whenever the ellipsis alone fits the width,
    for every text and every number of lines. *)
Theorem wrapText_returns (tooWide : string → bool) (maxLines : Z) (text : string) :
  tooWide "..." = false → is_Some (wrapText tooWide maxLines text).
Proof. intros Hdots. by apply wrapLoop_returns. Qed.

Lemma wrapText_returns_witness :
  is_Some (wrapText (λ s, (10 <? String.length s)%nat) 2
             "Linen summer shirt with pockets").
Proof.
  apply (wrapText_returns (λ s, (10 <? String.length s)%nat) 2
           "Linen summer shirt with pockets").
  vm_compute. reflexivity.
Defined.

(** X28: [wrapText] does not return when nothing but the empty string
    fits the width, one line is allowed and the text has a space in it:
    the loop that shortens the last line runs on the empty string for
    ever. *)
Theorem wrapText_hangs (tooWide : string → bool) (before after : string) :
  (∀ s, s ≠ "" → tooWide s = true) →
  wrapText tooWide 1 (before ++ " " ++ after) = None.
Proof.
  intros Hwide. unfold wrapText.
  assert (∃ w1 w2 rest, splitOn " " (before ++ " " ++ after) = w1 :: w2 :: rest)
    as (w1 & w2 & rest & ->).
  { induction before as [|c before (w1 & w2 & rest & IH)].
    - pose proof (splitOn_nonempty " " after).
      change (splitOn " " ("" ++ " " ++ after)) with ("" :: splitOn " " after).
      destruct (splitOn " " after) as [|w2 rest]; [done |]. by eexists _, _, _.
    - rewrite append_cons. cbn [splitOn]. rewrite IH.
      destruct (Ascii.eqb c " "); by eexists _, _, _. }
  cbn [wrapLoop negb andb]. rewrite andb_false_r, append_empty.
  rewrite Hwide by (by destruct w1). cbn [andb Z.eqb Pos.eqb].
  by rewrite truncateFrom_hangs.
Qed.

Lemma wrapText_hangs_witness :
  wrapText (λ s, negb (String.eqb s "")) 1 ("Linen" ++ " " ++ "shirt") = None.
Proof.
  apply (wrapText_hangs (λ s, negb (String.eqb s "")) "Linen" "shirt").
  intros s Hs. by destruct s.
Defined.

(** X29: an ASCII text that fits the width, together with the space the
    loop puts after the last word, is drawn as one line: the text without
    the white space at its ends. *)
Theorem wrapText_fitting_text (tooWide : string → bool) (maxLines : Z)
    (text : string) :
  isAsciiText text = true →
  (∀ pre post, text ++ " " = pre ++ post → tooWide pre = false) →
  wrapText tooWide maxLines text = Some [trim text].
Proof.
  intros _ Hfit. unfold wrapText. rewrite wrapLoop_fits.
  - by rewrite append_empty, splitOn_rebuilt, trim_space.
  - intros pre post. rewrite append_empty, splitOn_rebuilt. apply Hfit.
Qed.

Lemma wrapText_fitting_text_witness :
  wrapText (λ s, (10 <? String.length s)%nat) 2 " Blue top" = Some [trim " Blue top"].
Proof.
  apply (wrapText_fitting_text (λ s, (10 <? String.length s)%nat) 2 " Blue top").
  { vm_compute. reflexivity. }
  intros pre post Heq. apply (f_equal String.length) in Heq.
  rewrite (length_append pre post) in Heq.
  change (String.length (" Blue top" ++ " ")) with 10%nat in Heq.
  apply Nat.ltb_ge. lia.
Defined.

Lemma list_ascii_of_string_app (a b : string) :
  list_ascii_of_string (a ++ b)
  = (list_ascii_of_string a ++ list_ascii_of_string b)%list.
Proof. induction a as [|c a IH]; [done |]. rewrite append_cons. cbn. by rewrite IH. Qed.

Lemma dashRuns_no_space (inRun : bool) (s : string) :
  Forall (λ c, isSpace c = false) (list_ascii_of_string (dashRuns inRun s)).
Proof.
  revert inRun. induction s as [|c s IH]; intros inRun; cbn [dashRuns].
  - constructor.
  - destruct (isSpace c) eqn:Hc.
    + destruct inRun; [apply IH |]. cbn. constructor; [done | apply IH].
    + cbn. constructor; [done | apply IH].
Qed.

(** X30: the name of the share image file holds no white space (tab, line
    feed, vertical tab, form feed, carriage return or space), whatever the
    product name. *)
Theorem shareFileName_no_white_space (productName : string) :
  Forall (λ c, isSpace c = false) (list_ascii_of_string (shareFileName productName)).
Proof.
  unfold shareFileName. rewrite list_ascii_of_string_app. apply Forall_app.
  split; [apply dashRuns_no_space |]. cbn. by repeat constructor.
Qed.

End TextFacts.

(** ** Handlers called as closures of an earlier render, overlapping calls *)

Section OverlappingCalls.
Import Utils App Invariants Session Layers Scenario Closures.

Lemma perform_cons (w : World) (a : Action) (actions : list Action) :
  perform w (a :: actions) = perform (act w a) actions.
Proof. reflexivity. Qed.

(** The closure of the latest render is the handler on the live state. *)
Lemma handleGarmentSelectOf_latest (garmentFile : File) (garmentInfo : WardrobeItem)
    (st : AppState) :
  handleGarmentSelectOf st garmentFile garmentInfo st
  = handleGarmentSelect garmentFile garmentInfo st.
Proof. reflexivity. Qed.

Lemma dispatch_worldOf (o : Outcome) (s : Session) :
  Closures.dispatch o (worldOf s) = worldOf (App.dispatch o s).
Proof. by destruct o. Qed.

(** Every session of [step] is one of [act]. *)
Lemma act_step (s : Session) (e : Event) :
  act (worldOf s) (actionOf e) = worldOf (step s e).
Proof.
  destruct e as [garmentFile garmentInfo | | newIndex | | r];
    cbn [actionOf act step]; try apply dispatch_worldOf.
  destruct s as [st [|[call k] rest]]; reflexivity.
Qed.

Lemma perform_run (s : Session) (events : list Event) :
  perform (worldOf s) (actionOf <$> events) = worldOf (run s events).
Proof.
  revert s. induction events as [|e events IH]; intros s; [done |].
  cbn [fmap list_fmap]. by rewrite perform_cons, act_step, IH.
Qed.

(** *** What the handlers and the continuations keep *)

Lemma handleGarmentSelectOf_ok (render : AppState) (garmentFile : File)
    (garmentInfo : WardrobeItem) (st : AppState) :
  outcomeOk st (handleGarmentSelectOf render garmentFile garmentInfo st).
Proof. unfold handleGarmentSelectOf. by repeat case_match. Qed.

Lemma handleGarmentSelect_ok (garmentFile : File) (garmentInfo : WardrobeItem)
    (st : AppState) :
  outcomeOk st (handleGarmentSelect garmentFile garmentInfo st).
Proof. apply (handleGarmentSelectOf_ok st). Qed.

Lemma handleRemoveLastGarment_ok (st : AppState) :
  outcomeOk st (handleRemoveLastGarment st).
Proof. unfold handleRemoveLastGarment. by repeat case_match. Qed.

Lemma handlePoseSelect_ok (newIndex : Z) (st : AppState) :
  outcomeOk st (handlePoseSelect newIndex st).
Proof. unfold handlePoseSelect. by repeat case_match. Qed.

Lemma handleEnhanceImage_ok (st : AppState) :
  outcomeOk st (handleEnhanceImage st).
Proof. unfold handleEnhanceImage. by repeat case_match. Qed.

Lemma resume_model (k : Continuation) (r : Settled) (st : AppState) :
  modelImageUrl (resume k r st) = modelImageUrl st
  ∧ isLoading (resume k r st) = false.
Proof. by destruct k, r. Qed.

Lemma resume_nonempty (k : Continuation) (r : Settled) (st : AppState) :
  outfitHistory st ≠ [] → outfitHistory (resume k r st) ≠ [].
Proof.
  intros Hne. destruct k, r; cbn; try done.
  - by destruct (take _ _).
  - intros Habs. apply (f_equal length) in Habs.
    rewrite length_alter in Habs. by destruct (outfitHistory st).
  - intros Habs. apply (f_equal length) in Habs.
    rewrite length_alter in Habs. by destruct (outfitHistory st).
Qed.

Lemma resume_historyOk (k : Continuation) (r : Settled) (st : AppState) :
  outfitHistory st ≠ [] → historyOk (outfitHistory st) →
  historyOk (outfitHistory (resume k r st)).
Proof.
  intros Hne Hok.
  destruct k as [garmentInfo c p | poseInstruction c prev | poseInstruction c],
    r as [url | err]; cbn [resume]; try done.
  - intros j L HL. cbn in HL.
    assert (0 < length (take (c + 1) (outfitHistory st)))%nat as Hpos.
    { rewrite length_take. destruct (outfitHistory st); [done |]. cbn. lia. }
    destruct (decide (j < length (take (c + 1) (outfitHistory st)))%nat) as [Hj|Hj].
    + rewrite lookup_app_l in HL by done.
      rewrite length_take in Hj. rewrite lookup_take_lt in HL by lia.
      by apply Hok.
    + rewrite lookup_app_r in HL by lia.
      apply list_lookup_singleton_Some in HL as [Hj' <-].
      split; [done |]. split; [apply NoDup_singleton |]. cbn. split; [done | lia].
  - intros j L HL. cbn in HL. rewrite list_lookup_alter in HL.
    case_decide; [| by apply Hok]. subst j.
    destruct (outfitHistory st !! c) as [Lc|] eqn:HLc; [| done].
    cbn in HL. injection HL as <-. destruct (Hok c Lc HLc) as (Hne' & Hnd & Hg).
    split; [apply objSet_nonempty |]. split; [by apply objSet_NoDup | done].
  - intros j L HL. cbn in HL. rewrite list_lookup_alter in HL.
    case_decide; [| by apply Hok]. subst j.
    destruct (outfitHistory st !! c) as [Lc|] eqn:HLc; [| done].
    cbn in HL. injection HL as <-. destruct (Hok c Lc HLc) as (Hne' & Hnd & Hg).
    unfold withPoseEnhanced. cbn.
    destruct (objGet (keyOf poseInstruction) (poseImages Lc)); [| done].
    split; [apply objSet_nonempty |]. split; [by apply objSet_NoDup | done].
Qed.

Lemma dispatch_shaped (w w0 : World) (o : Outcome) :
  shaped w → live w0 = live w → calls w0 = calls w →
  creations w0 = creations w → outcomeOk (live w) o →
  shaped (Closures.dispatch o w0).
Proof.
  intros [Hne Hok Hm Hl] Hlive Hcalls Hcreations Ho.
  destruct o as [st | st call k |]; cbn in *.
  - destruct Ho as (Hh & Hmodel & Hload).
    split; cbn; rewrite ?Hh, ?Hmodel, ?Hload, ?Hcalls, ?Hcreations; done.
  - destruct Ho as (Hh & Hmodel & Hload).
    split; cbn; rewrite ?Hh, ?Hmodel; try done.
    intros _. left. by destruct (calls w0).
  - split; rewrite ?Hlive, ?Hcalls, ?Hcreations; done.
Qed.

(** The timeline as a model creation leaves it. *)
Lemma created_layers (h : list OutfitLayer) :
  (∃ url, h = [baseLayerOf url])
  ∨ (∃ url garmentInfo k img,
       h = [baseLayerOf url;
            {| garment := Some garmentInfo; poseImages := [(k, img)] |}]) →
  h ≠ [] ∧ historyOk h.
Proof.
  intros [(url & ->) | (url & g & k & img & ->)]; (split; [done |]).
  - intros [|j] L; [| done]. intros [= <-]. split; [done |].
    split; [apply NoDup_singleton | done].
  - intros [|[|j]] L; [| | done]; intros [= <-]; (split; [done |]);
      (split; [apply NoDup_singleton | done]).
Qed.

Lemma afterGenerateModelImage_shaped (w : World) (r : Awaited string)
    (l : list (option WardrobeItem)) :
  shaped w →
  shaped {| live := afterGenerateModelImage r (live w); calls := calls w;
            loads := loads w; creations := l |}.
Proof.
  intros [Hne Hok Hm Hl]. destruct r as [url | err].
  - destruct (created_layers [baseLayerOf url]) as [Hne' Hok']; [left; by exists url |].
    split; cbn; first [done | by eexists].
  - by split.
Qed.

Lemma afterGenerateInitialTryOn_shaped (w : World) (pendingGarment : WardrobeItem)
    (r : Awaited (string * string)) (l : list (option WardrobeItem)) :
  shaped w →
  shaped {| live := afterGenerateInitialTryOn pendingGarment r (live w);
            calls := calls w; loads := loads w; creations := l |}.
Proof.
  intros [Hne Hok Hm Hl]. destruct r as [[baseModelUrl finalTryOnUrl] | err].
  - destruct (created_layers (outfitHistory
                (handleInitialTryOnFinalized baseModelUrl finalTryOnUrl
                   pendingGarment (live w)))) as [Hne' Hok'].
    { right. by eexists _, _, _, _. }
    split; cbn; first [done | by eexists].
  - by split.
Qed.

Lemma act_shaped (w : World) (a : Action) : shaped w → shaped (act w a).
Proof.
  intros Hw. pose proof Hw as [Hne Hok Hm Hl].
  destruct a as [item | i file | garmentFile garmentInfo | | newIndex | | i r
                | pendingGarment | i r | i r | |]; cbn [act].
  - unfold handleGarmentClick. by case_match.
  - destruct (loads w !! i) as [[render item]|]; [| done].
    destruct file as [garmentFile|]; [| by split].
    apply (dispatch_shaped w); try done. apply handleGarmentSelectOf_ok.
  - apply (dispatch_shaped w); try done. apply handleGarmentSelect_ok.
  - apply (dispatch_shaped w); try done. apply handleRemoveLastGarment_ok.
  - apply (dispatch_shaped w); try done. apply handlePoseSelect_ok.
  - apply (dispatch_shaped w); try done. apply handleEnhanceImage_ok.
  - destruct (calls w !! i) as [[call k]|]; [| done].
    destruct (resume_model k r (live w)) as [Hmodel Hidle].
    split; cbn.
    + by apply resume_nonempty.
    + by apply resume_historyOk.
    + by rewrite Hmodel.
    + by rewrite Hidle.
  - split; cbn; try by destruct pendingGarment.
    intros _. right. by destruct (creations w).
  - destruct (creations w !! i) as [[g|]|]; try done.
    by apply afterGenerateModelImage_shaped.
  - destruct (creations w !! i) as [[g|]|]; try done.
    by apply afterGenerateInitialTryOn_shaped.
  - by split.
  - by split.
Qed.

Lemma perform_shaped (w : World) (actions : list Action) :
  shaped w → shaped (perform w actions).
Proof.
  revert w. induction actions as [|a actions IH]; intros w Hw; [done |].
  rewrite perform_cons. by apply IH, act_shaped.
Qed.

Lemma reset_shaped (w : World) : resetTimeline (live w) → shaped w.
Proof.
  intros (st0 & [(url & Hst) | (g & b & f & Hst)]).
  - destruct (created_layers [baseLayerOf url]) as [Hne Hok]; [left; by exists url |].
    split; rewrite Hst; cbn; first [done | by eexists].
  - destruct (created_layers (outfitHistory
                (handleInitialTryOnFinalized b f g st0))) as [Hne Hok].
    { right. by eexists _, _, _, _. }
    split; rewrite Hst; cbn; first [done | by eexists].
Qed.

(** The display image of a state whose current layer has a pose image. *)
Lemma display_from_layer (st : AppState) (L : OutfitLayer) :
  outfitHistory st !! currentOutfitIndex st = Some L →
  poseImages L ≠ [] →
  ∃ image k p,
    displayImageUrl st = Some image
    ∧ objGet k (poseImages L) = Some p
    ∧ (image = standard p ∨ enhanced p = Some image).
Proof.
  intros HL Hne. unfold displayImageUrl.
  rewrite (length_pos_eqb _ _ _ HL), HL. cbn zeta.
  destruct (objGet _ (poseImages L)) as [p|] eqn:Hget; cbn.
  - destruct (enhanced p) as [e|] eqn:He; cbn; eauto 10.
  - destruct (poseImages L) as [|[k0 p0] rest] eqn:Himgs; [done |]. cbn.
    rewrite String.eqb_refl. cbn. exists (standard p0), k0, p0. cbn.
    rewrite String.eqb_refl. eauto.
Qed.

(** A pose result replaces the whole entry of its pose on the layer it
    was requested for, and with it the enhanced image. *)
Lemma pose_result_overwrites_entry (st : AppState) (poseInstruction : option string)
    (c : nat) (prev : Z) (url : string) :
  enhancedAt (resume (AfterPose poseInstruction c prev) (Fulfilled url) st) c
    (keyOf poseInstruction) = None.
Proof.
  unfold enhancedAt. cbn. rewrite list_lookup_alter_eq.
  destruct (outfitHistory st !! c) as [L|]; [| done]. cbn.
  rewrite objGet_objSet. by rewrite decide_True.
Qed.

(** Two compose results committed above the same captured cursor leave
    the cursor at the length of the history. *)
Lemma two_commits_overrun (st : AppState) (A B : WardrobeItem) (c : nat)
    (p1 p2 : Z) (i1 i2 : string) :
  currentOutfitIndex st = c → (c < length (outfitHistory st))%nat →
  let st2 :=
    resume (AfterTryOn B c p2) (Fulfilled i2)
      (resume (AfterTryOn A c p1) (Fulfilled i1) st) in
  currentOutfitIndex st2 = length (outfitHistory st2).
Proof.
  intros Hc Hlt. cbn. rewrite !length_app, take_app_le by (rewrite length_take; lia).
  rewrite take_take, !length_take. cbn. lia.
Qed.

(** The half of the cursor invariant that overlapping calls do not break:
    the first layer is the base model layer. *)
Lemma first_layer_is_base (w : World) (actions : list Action) :
  resetTimeline (live w) →
  ∃ L, outfitHistory (live (perform w actions)) !! 0%nat = Some L
       ∧ garment L = None.
Proof.
  intros Hreset.
  destruct (perform_shaped w actions (reset_shaped w Hreset)) as [Hne Hok _ _].
  destruct (outfitHistory (live (perform w actions))) as [|L rest] eqn:Hh; [done |].
  exists L. split; [done |]. by apply (Hok 0%nat L).
Qed.

(** C5, where the code departs from it. The wardrobe panel calls
    [handleGarmentSelect] after it has loaded the garment image, as the
    closure of the render the click was made in. Two garments clicked one
    after the other on a fresh timeline both pass the [isLoading] guard;
    both compose calls are issued and committed above the same captured
    cursor: the history has two layers and the cursor is 2. There is then
    no current layer: the base model image is displayed, and removing a
    garment, selecting a pose and enhancing all throw. *)
Theorem quick_garment_clicks_overrun_cursor :
  let issued := perform (freshWorld "model.png") (take 4 quickClicks) in
  let w := perform (freshWorld "model.png") quickClicks in
  length (calls issued) = 2%nat
  ∧ calls w = [] ∧ isLoading (live w) = false
  ∧ (garment <$> outfitHistory (live w)) = [None; Some jacket]
  ∧ currentOutfitIndex (live w) = 2%nat
  ∧ length (outfitHistory (live w)) = 2%nat
  ∧ outfitHistory (live w) !! currentOutfitIndex (live w) = None
  ∧ displayImageUrl (live w) = Some "model.png"
  ∧ handleRemoveLastGarment (live w) = Threw
  ∧ handlePoseSelect 1 (live w) = Threw
  ∧ handleEnhanceImage (live w) = Threw.
Proof. vm_compute. by repeat split. Qed.

(** C7, where the code departs from it. With a pose call left outstanding
    behind a failed compose call, the same pose is generated by a second
    call and enhanced; when the first call then succeeds, its result
    replaces the entry of the pose, and the enhanced image is gone. No
    garment layer was committed: the history is the base layer throughout. *)
Theorem late_pose_result_drops_enhanced :
  let w := perform (freshWorld "model.png") poseCallLeftBehind in
  let w' := act w (CallSettles 0 (Fulfilled "model_pose1_late.png")) in
  isLoading (live w) = false
  ∧ calls w
    = [(generatePoseVariation "model.png" (Some "Slightly turned, 3/4 view"),
        AfterPose (Some "Slightly turned, 3/4 view") 0 0)]
  ∧ enhancedAt (live w) 0 "Slightly turned, 3/4 view" = Some "model_pose1_hd.png"
  ∧ isEnhanced (live w) = true
  ∧ enhancedAt (live w') 0 "Slightly turned, 3/4 view" = None
  ∧ isEnhanced (live w') = false
  ∧ displayImageUrl (live w') = Some "model_pose1_late.png"
  ∧ (garment <$> outfitHistory (live w)) = [None]
  ∧ (garment <$> outfitHistory (live w')) = [None].
Proof. vm_compute. by repeat split. Qed.

(** X6: from a freshly reset timeline, with whatever calls, garment loads
    and creations left over from before, and under any garment clicks,
    loads, uploads, removals, pose selections, enhancements, model
    creations and settling of calls in any order (every action but start
    over), the history is never empty, every layer has at least one pose
    image and no pose key twice, and the first layer is the only one
    without a garment. *)
Theorem history_layers_well_formed (w : World) (actions : list Action) :
  resetTimeline (live w) →
  let history := outfitHistory (live (perform w actions)) in
  history ≠ []
  ∧ ∀ j L, history !! j = Some L →
           poseImages L ≠ [] ∧ NoDup (objKeys (poseImages L))
           ∧ (garment L = None ↔ j = 0%nat).
Proof.
  intros Hreset history.
  destruct (perform_shaped w actions (reset_shaped w Hreset)) as [Hne Hok _ _].
  split; [done | exact Hok].
Qed.

Lemma history_layers_well_formed_witness :
  let history := outfitHistory (live (perform (freshWorld "model.png") quickClicks)) in
  history ≠ []
  ∧ ∀ j L, history !! j = Some L →
           poseImages L ≠ [] ∧ NoDup (objKeys (poseImages L))
           ∧ (garment L = None ↔ j = 0%nat).
Proof.
  apply (history_layers_well_formed (freshWorld "model.png") quickClicks).
  exists initialState. left. exists "model.png". reflexivity.
Defined.

(** X7: from a freshly reset timeline, under any such actions,
    [displayImageUrl] is never [null]: when the cursor is on a layer it is
    the standard or the enhanced image of a pose of that layer, and when
    the cursor is past the history it is the model image. *)
Theorem display_from_layer_or_model (w : World) (actions : list Action) :
  resetTimeline (live w) →
  let st := live (perform w actions) in
  (∃ L image k p,
     outfitHistory st !! currentOutfitIndex st = Some L
     ∧ displayImageUrl st = Some image
     ∧ objGet k (poseImages L) = Some p
     ∧ (image = standard p ∨ enhanced p = Some image))
  ∨ (outfitHistory st !! currentOutfitIndex st = None
     ∧ is_Some (modelImageUrl st)
     ∧ displayImageUrl st = modelImageUrl st).
Proof.
  intros Hreset st.
  destruct (perform_shaped w actions (reset_shaped w Hreset)) as [Hne Hok Hm _].
  fold st in Hne, Hok, Hm.
  destruct (outfitHistory st !! currentOutfitIndex st) as [L|] eqn:HL.
  - left. destruct (Hok _ _ HL) as (Himgs & _ & _).
    destruct (display_from_layer st L HL Himgs) as (image & k & p & Hd & Hk & Hp).
    by exists L, image, k, p.
  - right. split; [done |]. split; [done |]. unfold displayImageUrl. rewrite HL.
    by destruct (_ =? _)%nat.
Qed.

Lemma display_from_layer_or_model_witness :
  let st := live (perform (freshWorld "model.png") quickClicks) in
  (∃ L image k p,
     outfitHistory st !! currentOutfitIndex st = Some L
     ∧ displayImageUrl st = Some image
     ∧ objGet k (poseImages L) = Some p
     ∧ (image = standard p ∨ enhanced p = Some image))
  ∨ (outfitHistory st !! currentOutfitIndex st = None
     ∧ is_Some (modelImageUrl st)
     ∧ displayImageUrl st = modelImageUrl st).
Proof.
  apply (display_from_layer_or_model (freshWorld "model.png") quickClicks).
  exists initialState. left. exists "model.png". reflexivity.
Defined.

(** X8: from a freshly reset timeline, under any such actions, a remote
    call or a model creation is outstanding whenever [isLoading] is set;
    and the settling of any one outstanding call, fulfilled or rejected,
    clears [isLoading] and takes that call alone off the outstanding ones,
    whether or not others are still outstanding. *)
Theorem loading_flag_has_call (w : World) (actions : list Action) :
  resetTimeline (live w) →
  let w' := perform w actions in
  (isLoading (live w') = true → calls w' ≠ [] ∨ creations w' ≠ [])
  ∧ ∀ i r, is_Some (calls w' !! i) →
           isLoading (live (act w' (CallSettles i r))) = false
           ∧ length (calls (act w' (CallSettles i r)))
             = (length (calls w') - 1)%nat
           ∧ creations (act w' (CallSettles i r)) = creations w'.
Proof.
  intros Hreset w'.
  destruct (perform_shaped w actions (reset_shaped w Hreset)) as [_ _ _ Hl].
  split; [done |]. intros i r [[call k] Hi]. cbn [act]. rewrite Hi. cbn.
  split; [apply resume_model |]. split; [| done].
  rewrite length_delete; [done | by eexists].
Qed.

Lemma loading_flag_has_call_witness :
  let w' := perform (freshWorld "model.png") poseCallLeftBehind in
  (isLoading (live w') = true → calls w' ≠ [] ∨ creations w' ≠ [])
  ∧ ∀ i r, is_Some (calls w' !! i) →
           isLoading (live (act w' (CallSettles i r))) = false
           ∧ length (calls (act w' (CallSettles i r)))
             = (length (calls w') - 1)%nat
           ∧ creations (act w' (CallSettles i r)) = creations w'.
Proof.
  apply (loading_flag_has_call (freshWorld "model.png") poseCallLeftBehind).
  exists initialState. left. exists "model.png". reflexivity.
Defined.

(** X9: in every state the outfit stack shows the layers up to the cursor,
    or the whole history when the cursor is past it, and offers the remove
    button on the last of these rows only, and only if that row is above
    the base layer; when the cursor is on a layer, that row is the current
    layer. *)
Theorem active_outfit_and_remove_button (st : AppState) :
  let shown := activeOutfitLayers st in
  length shown
  = Nat.min (currentOutfitIndex st + 1) (length (outfitHistory st))
  ∧ (∀ row, row ∈ Canvas.removeButtonRows shown ↔
            (0 < row)%nat ∧ (row + 1)%nat = length shown)
  ∧ ((currentOutfitIndex st < length (outfitHistory st))%nat →
     shown !! currentOutfitIndex st = outfitHistory st !! currentOutfitIndex st
     ∧ ∀ row, row ∈ Canvas.removeButtonRows shown ↔
              row = currentOutfitIndex st ∧ (0 < row)%nat).
Proof.
  intros shown. subst shown. unfold activeOutfitLayers.
  assert (∀ row, row ∈ Canvas.removeButtonRows
                    (take (currentOutfitIndex st + 1) (outfitHistory st)) ↔
                 (0 < row)%nat
                 ∧ (row + 1)%nat
                   = length (take (currentOutfitIndex st + 1) (outfitHistory st)))
    as Hrows.
  { intros row. unfold Canvas.removeButtonRows.
    rewrite list_elem_of_filter, elem_of_seq. lia. }
  split; [by rewrite length_take |]. split; [done |].
  intros Hlt. split; [by rewrite lookup_take_lt by lia |].
  intros row. rewrite Hrows, length_take. lia.
Qed.

End OverlappingCalls.
